(** * Hello Genetic Programming: the elitist string-evolution loop

    A shallow embedding of the code cells of the "Hello Genetic Programming"
    notebook (Python 2): [calc_fitness], [mutate], [random_parent], the
    creation of the starting pool and the body of the [while True] loop.

    Modelling choices.
    - A character is a Python 2 one-character [str], that is a byte: [ascii].
      [ord] maps it to 0..255 and [chr] raises [ValueError] outside 0..255.
    - Python integers are [Z].
    - A dna is a Python list of characters and a candidate is a Python dict
      with the two keys ['dna'] and ['fitness'].  Both are mutable objects that
      the program passes around by reference, so they live in a store
      ([heap]) and the program handles locations.
    - [random] is an oracle: a tape of integers with a cursor.  A draw
      [randint a b] reads the next cell [v] and returns [a + v mod (b-a+1)],
      so that every value of [a..b] is the outcome of some tape.
    - Exceptions are the [Raise] outcome of an error monad that threads the
      store and the random source.
    - [silent] is [True] throughout, so the loop never calls
      [print_gene_pool] and the display of the history after the loop never
      prints; both are left out of the loop.  [print_gene_pool] is modelled
      on its own: the standard output is a stream of characters. *)

From Stdlib Require Import ZArith Ascii String List Lia Permutation.
From stdpp Require Import base numbers option list sorting gmap.
From stdpp Require Import pretty.

Local Open Scope Z_scope.

(** ** Characters *)

Definition ord (c : ascii) : Z := Z.of_N (N_of_ascii c).

Inductive exn : Set :=
  | IndexError      (* list index out of range *)
  | ValueError      (* chr() arg not in range(256), empty range for randrange() *)
  | DanglingRef.    (* a location outside the store: no Python state has one *)

Inductive result (A : Type) : Type :=
  | Ok (a : A)
  | Raise (e : exn).
Arguments Ok {A} a.
Arguments Raise {A} e.

Definition chr (n : Z) : result ascii :=
  if (0 <=? n) && (n <? 256) then Ok (ascii_of_N (Z.to_N n)) else Raise ValueError.

(** [string.letters + '!, '], with [string.letters] as it is in the C locale:
    the lowercase letters followed by the uppercase ones. *)
Definition GENES : list ascii :=
  list_ascii_of_string "abcdefghijklmnopqrstuvwxyzABCDEFGHIJKLMNOPQRSTUVWXYZ!, ".

Definition POPULATION : nat := 20.

(** ** calc_fitness *)

(** The body of [for i in xrange(len(source))], over the indices still to
    visit.  [target[i]] is evaluated before [source[i]]; either raises
    [IndexError] when [i] is out of range. *)
Fixpoint calc_fitness_loop (source target : list ascii) (idxs : list nat)
    (fitval : Z) : result Z :=
  match idxs with
  | [] => Ok fitval
  | i :: rest =>
      match target !! i with
      | None => Raise IndexError
      | Some t =>
          match source !! i with
          | None => Raise IndexError
          | Some s => calc_fitness_loop source target rest (fitval + (ord t - ord s) ^ 2)
          end
      end
  end.

Definition calc_fitness (source target : list ascii) : result Z :=
  calc_fitness_loop source target (seq 0 (length source)) 0.

(** The specification's fitness: the sum, position by position, of the
    squared difference of the ordinals.  On lists of different lengths the
    positions are those of the shorter one. *)
Definition sq_diff (s t : ascii) : Z := (ord t - ord s) ^ 2.

Definition fitness_sum (genome target : list ascii) : Z :=
  foldr Z.add 0 (zip_with sq_diff genome target).

(** ** Python lists: indexing, item assignment, slices *)

(** [l[i]]: a negative index counts from the end; out of range raises. *)
Definition norm_index (len i : Z) : Z := if i <? 0 then i + len else i.

Definition py_index {A} (l : list A) (i : Z) : result A :=
  let j := norm_index (Z.of_nat (length l)) i in
  if j <? 0 then Raise IndexError
  else match l !! Z.to_nat j with
       | Some x => Ok x
       | None => Raise IndexError
       end.

(** [l[i] = x] *)
Definition py_setitem {A} (l : list A) (i : Z) (x : A) : result (list A) :=
  let j := norm_index (Z.of_nat (length l)) i in
  if (j <? 0) || (Z.of_nat (length l) <=? j) then Raise IndexError
  else Ok (<[Z.to_nat j := x]> l).

(** A slice bound is clamped to [0, len]; a negative one counts from the end. *)
Definition slice_bound (len i : Z) : nat :=
  Z.to_nat (if i <? 0 then Z.max (i + len) 0 else Z.min i len).

(** [l[start:stop]] *)
Definition py_slice {A} (l : list A) (start stop : Z) : list A :=
  let a := slice_bound (Z.of_nat (length l)) start in
  let b := slice_bound (Z.of_nat (length l)) stop in
  take (b - a) (drop a l).

(** [l[start:stop] = r]: the slice is cut out and [r] spliced in, whatever
    its length. *)
Definition py_slice_assign {A} (l : list A) (start stop : Z) (r : list A) : list A :=
  let a := slice_bound (Z.of_nat (length l)) start in
  let b := Nat.max a (slice_bound (Z.of_nat (length l)) stop) in
  take a l ++ r ++ drop b l.

(** ** The store and the random source *)

Abbreviation loc := positive (only parsing).

Inductive obj : Type :=
  | OList (l : list ascii)              (* a dna: a list of characters *)
  | ODict (dna : loc) (fitness : Z).    (* {'dna': dna, 'fitness': fitness} *)

Record rng : Type := Rng { tape : nat -> Z; cursor : nat }.

Record world : Type := World { heap : gmap loc obj; rand : rng }.

Definition M (A : Type) : Type := world -> result (A * world).

Definition ret {A} (a : A) : M A := fun w => Ok (a, w).

Definition bind {A B} (m : M A) (k : A -> M B) : M B :=
  fun w => match m w with
           | Ok (a, w') => k a w'
           | Raise e => Raise e
           end.

#[global] Instance M_ret : MRet M := @ret.
#[global] Instance M_bind : MBind M := fun A B k m => bind m k.

Definition lift {A} (r : result A) : M A :=
  fun w => match r with Ok a => Ok (a, w) | Raise e => Raise e end.

(** A new object gets a location that the store does not use yet. *)
Definition alloc (o : obj) : M loc :=
  fun w => let l := fresh (dom (heap w)) in
           Ok (l, World (<[l := o]> (heap w)) (rand w)).

Definition read_list (l : loc) : M (list ascii) :=
  fun w => match heap w !! l with
           | Some (OList cs) => Ok (cs, w)
           | _ => Raise DanglingRef
           end.

Definition write_list (l : loc) (cs : list ascii) : M unit :=
  fun w => match heap w !! l with
           | Some (OList _) => Ok (tt, World (<[l := OList cs]> (heap w)) (rand w))
           | _ => Raise DanglingRef
           end.

(** [c['dna']] and [c['fitness']] *)
Definition get_dna (c : loc) : M loc :=
  fun w => match heap w !! c with
           | Some (ODict d _) => Ok (d, w)
           | _ => Raise DanglingRef
           end.

Definition get_fitness (c : loc) : M Z :=
  fun w => match heap w !! c with
           | Some (ODict _ f) => Ok (f, w)
           | _ => Raise DanglingRef
           end.

(** One cell of the tape. *)
Definition draw : M Z :=
  fun w => let r := rand w in
           Ok (tape r (cursor r), World (heap w) (Rng (tape r) (S (cursor r)))).

(** The world after [n] draws. *)
Definition advance (w : world) (n : nat) : world :=
  World (heap w) (Rng (tape (rand w)) (n + cursor (rand w))).

(** [random.randint(a, b)]: an integer of [a..b]; an empty range raises. *)
Definition randint (a b : Z) : M Z :=
  if b <? a then lift (Raise ValueError)
  else v ← draw; ret (a + v mod (b - a + 1)).

(** [random.choice(seq)]: the element at a random index; raises on [[]]. *)
Definition choice {A} (seq : list A) : M A :=
  v ← draw;
  lift (match seq with
        | [] => Raise IndexError
        | _ => py_index seq (v mod Z.of_nat (length seq))
        end).

(** ** mutate *)

Definition mutate (parent1 parent2 : loc) (target : list ascii) : M loc :=
  (* child_dna = parent1['dna'][:] *)
  d1 ← get_dna parent1;
  l1 ← read_list d1;
  child_dna ← alloc (OList l1);
  (* start = random.randint(0, len(parent2['dna']) - 1) *)
  d2 ← get_dna parent2;
  l2 ← read_list d2;
  start ← randint 0 (Z.of_nat (length l2) - 1);
  (* stop = random.randint(0, len(parent2['dna']) - 1) *)
  d2 ← get_dna parent2;
  l2 ← read_list d2;
  stop ← randint 0 (Z.of_nat (length l2) - 1);
  (* if start > stop: stop, start = start, stop *)
  let '(start, stop) := if stop <? start then (stop, start) else (start, stop) in
  (* child_dna[start:stop] = parent2['dna'][start:stop] *)
  d2 ← get_dna parent2;
  l2 ← read_list d2;
  cs ← read_list child_dna;
  _ ← write_list child_dna (py_slice_assign cs start stop (py_slice l2 start stop));
  (* char_pos = random.randint(0, len(child_dna) - 1) *)
  cs ← read_list child_dna;
  char_pos ← randint 0 (Z.of_nat (length cs) - 1);
  (* child_dna[char_pos] = chr(ord(child_dna[char_pos]) + random.randint(-1, 1)) *)
  cs ← read_list child_dna;
  c ← lift (py_index cs char_pos);
  delta ← randint (-1) 1;
  c' ← lift (chr (ord c + delta));
  cs ← read_list child_dna;
  cs' ← lift (py_setitem cs char_pos c');
  _ ← write_list child_dna cs';
  (* child_fitness = calc_fitness(child_dna, target) *)
  cs ← read_list child_dna;
  child_fitness ← lift (calc_fitness cs target);
  (* return {'dna': child_dna, 'fitness': child_fitness} *)
  alloc (ODict child_dna child_fitness).

(** ** random_parent *)

Definition random_parent (gene_pool : list loc) : M loc :=
  index ← randint 0 (Z.of_nat (length gene_pool) - 1);
  lift (py_index gene_pool index).

(** ** The starting pool *)

(** [[random.choice(GENES) for g in xrange(0, n)]] *)
Fixpoint random_dna (n : nat) : M (list ascii) :=
  match n with
  | O => ret []
  | S n' => c ← choice GENES; rest ← random_dna n'; ret (c :: rest)
  end.

(** [for i in xrange(0, population)]: one candidate appended per round. *)
Fixpoint create_pool (population : nat) (target : list ascii) (gene_pool : list loc)
    : M (list loc) :=
  match population with
  | O => ret gene_pool
  | S n =>
      cs ← random_dna (length target);
      dna ← alloc (OList cs);
      cs ← read_list dna;
      fitness ← lift (calc_fitness cs target);
      candidate ← alloc (ODict dna fitness);
      create_pool n target (gene_pool ++ [candidate])
  end.

(** ** gene_pool.sort(key=...) *)

(** [list.sort] is stable: candidates of equal fitness keep their order.  A
    stable sort is determined by its input, so insertion from the right is
    the same function. *)
Fixpoint insert_by_key (x : Z * loc) (l : list (Z * loc)) : list (Z * loc) :=
  match l with
  | [] => [x]
  | y :: l' => if x.1 <=? y.1 then x :: y :: l' else y :: insert_by_key x l'
  end.

Definition sort_by_key (l : list (Z * loc)) : list (Z * loc) :=
  foldr insert_by_key [] l.

Fixpoint mapM {A B} (f : A -> M B) (l : list A) : M (list B) :=
  match l with
  | [] => ret []
  | x :: l' => y ← f x; ys ← mapM f l'; ret (y :: ys)
  end.

(** The keys are read first, one per element, then the list is reordered. *)
Definition sort_pool (gene_pool : list loc) : M (list loc) :=
  keys ← mapM get_fitness gene_pool;
  ret (map snd (sort_by_key (zip keys gene_pool))).

(** ** The loop *)

(** The variables of the loop.  [gene_pool] and [fittest] are lists of
    references to candidates; no other name refers to these two lists, so
    their contents are kept here. *)
Record state : Type := State {
  st_world : world;
  gene_pool : list loc;
  fittest : list loc;
  generation : Z
}.

(** [if child['fitness'] < gene_pool[-1]['fitness']: gene_pool[-1] = child] *)
Definition replace_worst (gene_pool : list loc) (child : loc) : M (list loc) :=
  cf ← get_fitness child;
  worst ← lift (py_index gene_pool (-1));
  wf ← get_fitness worst;
  if cf <? wf then lift (py_setitem gene_pool (-1) child) else ret gene_pool.

(** One round of [while True], up to the test that ends the loop: the
    result is the pool, the history and whether [break] is taken. *)
Definition loop_body (target : list ascii) (gene_pool fittest : list loc)
    : M (list loc * list loc * bool) :=
  gene_pool ← sort_pool gene_pool;
  best ← lift (py_index gene_pool 0);
  let fittest := fittest ++ [best] in
  parent1 ← random_parent gene_pool;
  parent2 ← random_parent gene_pool;
  child ← mutate parent1 parent2 target;
  gene_pool ← replace_worst gene_pool child;
  first ← lift (py_index gene_pool 0);
  f0 ← get_fitness first;
  ret (gene_pool, fittest, f0 =? 0).

Inductive outcome : Type :=
  | Continue (s : state)    (* generation += 1, next round *)
  | Break (s : state)       (* break *)
  | Crash (e : exn).        (* an exception leaves the loop *)

Definition step (target : list ascii) (s : state) : outcome :=
  match loop_body target (gene_pool s) (fittest s) (st_world s) with
  | Raise e => Crash e
  | Ok (pool, hist, true, w) => Break (State w pool hist (generation s))
  | Ok (pool, hist, false, w) => Continue (State w pool hist (generation s + 1))
  end.

(** The program up to the loop: the pool is created in an empty store, the
    history is empty and the generation counter is 1. *)
Definition init (population : nat) (target : list ascii) (r : rng) : result state :=
  match create_pool population target [] (World ∅ r) with
  | Ok (pool, w) => Ok (State w pool [] 1)
  | Raise e => Raise e
  end.

(** The loop, for at most [fuel] rounds. *)
Inductive run_result : Type :=
  | Done (s : state)        (* left by break *)
  | Crashed (e : exn)       (* left by an exception *)
  | Running (s : state).    (* still looping after [fuel] rounds *)

Fixpoint run (fuel : nat) (target : list ascii) (s : state) : run_result :=
  match fuel with
  | O => Running s
  | S n =>
      match step target s with
      | Continue s' => run n target s'
      | Break s' => Done s'
      | Crash e => Crashed e
      end
  end.

(** The notebook's run: [target = 'Hello, world!'] and [POPULATION]
    candidates; the seed decides the tape. *)
Definition hello_target : list ascii := list_ascii_of_string "Hello, world!".

Definition main (fuel : nat) (r : rng) : run_result :=
  match init POPULATION hello_target r with
  | Ok s => run fuel hello_target s
  | Raise e => Crashed e
  end.

(** The state after exactly [n] rounds that all went on to the next one. *)
Fixpoint rounds (n : nat) (target : list ascii) (s : state) : option state :=
  match n with
  | O => Some s
  | S n' =>
      match step target s with
      | Continue s' => rounds n' target s'
      | _ => None
      end
  end.

(** ** Reading the store *)

Definition fitness_of (h : gmap loc obj) (c : loc) : option Z :=
  match h !! c with
  | Some (ODict _ f) => Some f
  | _ => None
  end.

Definition genome_of (h : gmap loc obj) (c : loc) : option (list ascii) :=
  match h !! c with
  | Some (ODict d _) =>
      match h !! d with
      | Some (OList cs) => Some cs
      | _ => None
      end
  | _ => None
  end.

(** ** Notions used in the statements *)

Definition key_le (x y : Z * loc) : Prop := x.1 <= y.1.

(** The fitness recorded in candidate [c1] is at most the one in [c2]. *)
Definition fit_le (h : gmap loc obj) (c1 c2 : loc) : Prop :=
  exists f1 f2, fitness_of h c1 = Some f1 /\ fitness_of h c2 = Some f2 /\ f1 <= f2.

(** [gene_pool[0]['fitness']] *)
Definition best_fitness (s : state) : option Z :=
  match gene_pool s with
  | c :: _ => fitness_of (heap (st_world s)) c
  | [] => None
  end.

(** [s'] is a state of the loop started in [s]: after some rounds that went
    on, and possibly a last one that took [break]. *)
Inductive reaches (target : list ascii) : state -> state -> Prop :=
  | reaches_here s : reaches target s s
  | reaches_continue s s1 s2 :
      step target s = Continue s1 -> reaches target s1 s2 -> reaches target s s2
  | reaches_break s s1 :
      step target s = Break s1 -> reaches target s s1.

(** A candidate as the program builds them: its dna is a list of the
    target's length and its fitness is the one of that dna. *)
Definition candidate_ok (target : list ascii) (h : gmap loc obj) (c : loc) : Prop :=
  exists d cs,
    h !! c = Some (ODict d (fitness_sum cs target)) /\
    h !! d = Some (OList cs) /\
    length cs = length target.

Definition pool_ok (target : list ascii) (s : state) : Prop :=
  Forall (candidate_ok target (heap (st_world s))) (gene_pool s).

(** The store [h'] keeps every object of [h] as it is. *)
Definition preserves (h h' : gmap loc obj) : Prop :=
  forall l, l ∈ dom h -> h' !! l = h !! l.

(** Two-point crossover as the specification words it: the child is [a]
    with the positions [i, j) overwritten by those of [b]. *)
Definition crossover (a b : list ascii) (i j : nat) : list ascii :=
  take i a ++ take (j - i) (drop i b) ++ drop j a.

(** The genome that the reproduction operator of the specification builds
    from the two parents' genomes, two drawn indices, the drawn position and
    the drawn perturbation: crossover over the ordered indices, then the
    character at [pos] moved by [delta].  There is no child when there is no
    such position or no such character. *)
Definition reproduce_spec (genomeA genomeB : list ascii) (i0 j0 pos : nat) (delta : Z)
    : option (list ascii) :=
  let child := crossover genomeA genomeB (Nat.min i0 j0) (Nat.max i0 j0) in
  match child !! pos with
  | None => None
  | Some c =>
      match chr (ord c + delta) with
      | Ok c' => Some (<[pos := c']> child)
      | Raise _ => None
      end
  end.

(** The store after [mutate]: a new list and a new dict, nothing else. *)
Definition with_child (h : gmap loc obj) (cs : list ascii) (f : Z) : gmap loc obj :=
  let cd := fresh (dom h) in
  let h2 := <[cd := OList cs]> h in
  <[fresh (dom h2) := ODict cd f]> h2.

Definition child_loc (h : gmap loc obj) (cs : list ascii) : loc :=
  fresh (dom (<[fresh (dom h) := OList cs]> h)).

(** The round started in [s] did not raise and left the loop in [s']. *)
Definition completes (target : list ascii) (s s' : state) : Prop :=
  step target s = Continue s' \/ step target s = Break s'.

(** The history does not go up, and some member of the pool is at least as
    good as its last entry. *)
Definition history_ok (s : state) : Prop :=
  (forall g c1 c2,
     fittest s !! g = Some c1 -> fittest s !! S g = Some c2 ->
     fit_le (heap (st_world s)) c2 c1) /\
  (forall c, last (fittest s) = Some c ->
     exists c', c' ∈ gene_pool s /\ fit_le (heap (st_world s)) c' c).

(** ** Examples *)

(** A store with two candidates, at the locations 2 and 4. *)
Definition two_parents (gA gB target : list ascii) : gmap loc obj :=
  <[4%positive := ODict 3 (fitness_sum gB target)]>
    (<[3%positive := OList gB]>
       (<[2%positive := ODict 1 (fitness_sum gA target)]>
          (<[1%positive := OList gA]> ∅))).

(** The tape that starts with [cells] and goes on with 0. *)
Definition tape_of (cells : list Z) : nat -> Z := fun i => default 0 (cells !! i).

Definition nul : ascii := "000"%char.

(** Two parents made of the character of ordinal 0, and the draws 0, 1, 0
    and -1. *)
Definition nul_world : world :=
  World (two_parents [nul; nul] [nul; nul] [nul; nul]) (Rng (tape_of [0; 1; 0; 0]) 0).

(** The state in a result, for the examples. *)
Definition state_of (o : outcome) (d : state) : state :=
  match o with
  | Continue s | Break s => s
  | Crash _ => d
  end.

Definition started (population : nat) (target : list ascii) (r : rng) : state :=
  match init population target r with
  | Ok s => s
  | Raise _ => State (World ∅ r) [] [] 1
  end.

Definition after_rounds (n : nat) (target : list ascii) (s : state) : state :=
  default s (rounds n target s).

Definition ended (fuel : nat) (target : list ascii) (s : state) : state :=
  match run fuel target s with
  | Done s' | Running s' => s'
  | Crashed _ => s
  end.

(** A run that converges in two rounds: target "b", a population of two
    that starts as "a" and "c". *)
Definition demo_target : list ascii := ["b"%char].
Definition demo_rng : rng := Rng (tape_of [0; 2; 0; 0; 0; 0; 0; 2; 0; 0; 0; 0; 0; 1]) 0.
Definition demo_start : state := started 2 demo_target demo_rng.

Definition demo_round1 : state := after_rounds 1 demo_target demo_start.
Definition demo_end : state := ended 5 demo_target demo_start.

(** Two parents, "Jelly" and "Hands", and the draws 3, 0, 4 and -1. *)
Definition demo_world : world :=
  World (two_parents (list_ascii_of_string "Jelly") (list_ascii_of_string "Hands")
           (list_ascii_of_string "Hello"))
        (Rng (tape_of [3; 0; 4; 0]) 0).

(** A pool of one candidate that the draws never improve: the genome is
    "a", the target "b", and every cell of the tape is 1, so that the
    perturbation is always 0. *)
Definition stuck_target : list ascii := ["b"%char].

Definition stuck_state : state :=
  State (World (<[2%positive := ODict 1 1]> (<[1%positive := OList ["a"%char]]> ∅))
               (Rng (fun _ => 1) 0))
        [2%positive] [] 1.

Definition stuck_round1 : state := state_of (step stuck_target stuck_state) stuck_state.

Definition stuck (s : state) : Prop :=
  gene_pool s = [2%positive] /\
  heap (st_world s) !! 2%positive = Some (ODict 1 1) /\
  heap (st_world s) !! 1%positive = Some (OList ["a"%char]) /\
  tape (rand (st_world s)) = (fun _ => 1).

(** No character of the genomes of the pool has the ordinal 0 or 255. *)
Definition inner_chars (s : state) : Prop :=
  forall c g x, c ∈ gene_pool s -> genome_of (heap (st_world s)) c = Some g ->
                x ∈ g -> 0 < ord x < 255.

(** Some character of a genome of the pool has the ordinal 0 or 255. *)
Definition edge_char (s : state) : Prop :=
  exists c g x, c ∈ gene_pool s /\ genome_of (heap (st_world s)) c = Some g /\
                x ∈ g /\ (ord x = 0 \/ ord x = 255).

(** A run of the notebook's program, [POPULATION] candidates and the target
    'Hello, world!', that an exception ends.  The draws of the starting pool
    give "zello, world!", "Hzzzzzzzzzzzz" and 18 times "zzzzzzzzzzzzz".  Each
    round breeds the newest child with an empty crossover and moves the
    character at position 6, a space at first, down by one; the child
    replaces the worst candidate.  Round 19 takes the 'H' of the second
    candidate on the way, which keeps the later children better than the
    earlier ones.  After 32 rounds the character has the ordinal 0, and
    round 33 asks for [chr(-1)]. *)
Definition crash_tape : list Z :=
  [25; 4; 11; 11; 14; 53; 54; 22; 14; 17; 11; 3; 52]
  ++ (33 :: replicate 12 25)
  ++ concat (replicate 18 (replicate 13 25))
  ++ concat (map (fun j => [j; 0; 0; 0; 6; 0]) (seqZ 0 18))
  ++ [18; 19; 0; 1; 6; 0]
  ++ concat (map (fun k => [k; 0; 0; 0; 6; 0]) (seqZ 0 14)).

Definition crash_rng : rng := Rng (tape_of crash_tape) 0.
Definition crash_start : state := started POPULATION hello_target crash_rng.
Definition crash_last : state := after_rounds 32 hello_target crash_start.

(** Two parents written in [GENES], "fuzz" and "jazz", with the target
    "buzz" and the draws 0, 0, 3 and +1. *)
Definition fuzz_world : world :=
  World (two_parents (list_ascii_of_string "fuzz") (list_ascii_of_string "jazz")
           (list_ascii_of_string "buzz"))
        (Rng (tape_of [0; 0; 3; 2]) 0).

(** ** More notions *)

(** What the creation of the pool adds: candidates that are well formed,
    written in [GENES], new to the store and all different. *)
Definition created (target : list ascii) (w w' : world) (new : list loc) : Prop :=
  preserves (heap w) (heap w') /\
  Forall (candidate_ok target (heap w')) new /\
  Forall (fun c => exists g, genome_of (heap w') c = Some g /\
                             Forall (fun x => x ∈ GENES) g) new /\
  Forall (fun c => (c ∉ dom (heap w)) /\ c ∈ dom (heap w')) new /\
  NoDup new.

Definition distinct_pool (s : state) : Prop :=
  NoDup (gene_pool s) /\ forall c, c ∈ gene_pool s -> c ∈ dom (heap (st_world s)).

(** The ordinals of the genomes of the pool are within [n] of the range of
    [GENES], which is 32..122. *)
Definition chars_within (n : Z) (s : state) : Prop :=
  forall c g x, c ∈ gene_pool s -> genome_of (heap (st_world s)) c = Some g ->
                x ∈ g -> 32 - n <= ord x <= 122 + n.

(** ** print_gene_pool *)

Definition newline : ascii := "010"%char.

(** ['%i %i %s' % (generation, fitness, ''.join(dna))]: the two integers in
    decimal, then the characters of the dna, with one space between. *)
Definition format_candidate (generation fitness : Z) (dna : list ascii) : string :=
  pretty generation +:+ " " +:+ pretty fitness +:+ " " +:+ string_of_list_ascii dna.

(** The value of the format expression for one candidate: the fitness is
    read before the dna. *)
Definition candidate_text (generation : Z) (candidate : loc) : M string :=
  fitness ← get_fitness candidate;
  d ← get_dna candidate;
  cs ← read_list d;
  ret (format_candidate generation fitness cs).

(** The standard output is a stream of characters, and [print s] writes the
    characters of [s] followed by a newline, whatever [s] holds.  The body
    of [for candidate in gene_pool] gives the text written and how the loop
    ends: with the world it leaves or with an exception, raised after the
    text of the candidates before. *)
Fixpoint print_candidates (gene_pool : list loc) (generation : Z) (w : world)
    : string * result world :=
  match gene_pool with
  | [] => (EmptyString, Ok w)
  | candidate :: rest =>
      match candidate_text generation candidate w with
      | Raise e => (EmptyString, Raise e)
      | Ok (text, w) =>
          let '(out, r) := print_candidates rest generation w in
          (text +:+ String newline out, r)
      end
  end.

(** The loop, then the bare [print]: one more newline. *)
Definition print_gene_pool (gene_pool : list loc) (generation : Z) (w : world)
    : string * result world :=
  match print_candidates gene_pool generation w with
  | (out, Ok w) => (out +:+ String newline EmptyString, Ok w)
  | (out, Raise e) => (out, Raise e)
  end.

(** The fitness and the dna of the candidates of a pool, in order. *)
Definition entries_of (h : gmap loc obj) (pool : list loc) (entries : list (Z * list ascii))
    : Prop :=
  Forall2 (fun c e => fitness_of h c = Some e.1 /\ genome_of h c = Some e.2) pool entries.

(** The text of a pool printed in full: for each candidate the formatted
    text and a newline, then one more newline. *)
Definition pool_text (generation : Z) (entries : list (Z * list ascii)) : string :=
  foldr (fun e out => format_candidate generation e.1 e.2 +:+ String newline out)
        (String newline EmptyString) entries.

(** How often a character occurs in a text, and a text without it. *)
Fixpoint count_char (a : ascii) (s : string) : nat :=
  match s with
  | EmptyString => 0
  | String b s' => (if decide (a = b) then 1 else 0) + count_char a s'
  end.

Fixpoint free_of (a : ascii) (s : string) : Prop :=
  match s with
  | EmptyString => True
  | String b s' => b <> a /\ free_of a s'
  end.

Definition separator (a : ascii) : Prop := a = " "%char \/ a = newline.

(** One candidate whose dna holds a newline, and two candidates whose dnas
    hold none. *)
Definition folded_world : world :=
  World (<[2%positive := ODict 1 4]>
           (<[1%positive :=
                OList (list_ascii_of_string "a" ++ newline :: list_ascii_of_string "1 1 b")]> ∅))
        demo_rng.

Definition unfolded_world : world :=
  World (two_parents ["a"%char] ["b"%char] ["c"%char]) demo_rng.

(** The sum of the fitness values of the candidates of a pool. *)
Definition total_fitness (h : gmap loc obj) (pool : list loc) : Z :=
  foldr (fun c acc => default 0 (fitness_of h c) + acc) 0 pool.

(** ** Facts on characters and on [calc_fitness] *)

Lemma ord_range c : 0 <= ord c < 256.
Proof.
  unfold ord. pose proof (N_ascii_bounded c) as H. lia.
Qed.

Lemma ord_inj c d : ord c = ord d -> c = d.
Proof.
  unfold ord. intros H.
  rewrite <- (ascii_N_embedding c), <- (ascii_N_embedding d).
  f_equal. lia.
Qed.

Lemma chr_ord c : chr (ord c) = Ok c.
Proof.
  unfold chr. pose proof (ord_range c) as H.
  replace ((0 <=? ord c) && (ord c <? 256)) with true
    by (symmetry; apply andb_true_iff; split; [apply Z.leb_le | apply Z.ltb_lt]; lia).
  unfold ord. rewrite N2Z.id. by rewrite ascii_N_embedding.
Qed.

Lemma chr_Ok n c : chr n = Ok c -> 0 <= n < 256 /\ ord c = n.
Proof.
  unfold chr. destruct ((0 <=? n) && (n <? 256)) eqn:E; [|done].
  apply andb_true_iff in E as [H1%Z.leb_le H2%Z.ltb_lt].
  intros [= <-]. split; [lia|].
  unfold ord. rewrite N_ascii_embedding; lia.
Qed.

Lemma chr_in_range n : 0 <= n < 256 -> exists c, chr n = Ok c /\ ord c = n.
Proof.
  intros H. unfold chr.
  replace ((0 <=? n) && (n <? 256)) with true
    by (symmetry; apply andb_true_iff; split; [apply Z.leb_le | apply Z.ltb_lt]; lia).
  eexists; split; [done|]. unfold ord. rewrite N_ascii_embedding; lia.
Qed.

Lemma chr_out_of_range n : n < 0 \/ 256 <= n -> chr n = Raise ValueError.
Proof.
  intros H. unfold chr.
  destruct ((0 <=? n) && (n <? 256)) eqn:E; [|done].
  apply andb_true_iff in E as [H1%Z.leb_le H2%Z.ltb_lt]. lia.
Qed.

Lemma chr_out_of_range_inv n e : chr n = Raise e -> e = ValueError.
Proof. unfold chr. destruct (_ && _); [done|]. by intros [= <-]. Qed.

(** The ordinals of [GENES]: from the space, 32, up to 'z', 122. *)
Lemma GENES_range : Forall (fun x => 32 <= ord x <= 122) GENES.
Proof. compute_done. Qed.

Lemma sq_diff_nonneg s t : 0 <= sq_diff s t.
Proof. unfold sq_diff. apply Z.pow_even_nonneg. by exists 1. Qed.

Lemma sq_diff_zero s t : sq_diff s t = 0 <-> s = t.
Proof.
  unfold sq_diff. split.
  - intros H. apply ord_inj. nia.
  - intros ->. replace (ord t - ord t) with 0 by lia. done.
Qed.

Lemma fitness_sum_nonneg g t : 0 <= fitness_sum g t.
Proof.
  unfold fitness_sum. revert t.
  induction g as [|s g IH]; intros [|c t]; simpl; try lia.
  pose proof (sq_diff_nonneg s c). specialize (IH t). lia.
Qed.

Lemma fitness_sum_zero g t :
  length g = length t -> (fitness_sum g t = 0 <-> g = t).
Proof.
  revert t. induction g as [|s g IH]; intros [|c t] Hlen; simpl in Hlen; try lia.
  - done.
  - injection Hlen as Hlen. specialize (IH t Hlen).
    unfold fitness_sum in *. simpl.
    pose proof (sq_diff_nonneg s c) as Hs.
    pose proof (fitness_sum_nonneg g t) as Hg. unfold fitness_sum in Hg.
    split.
    + intros H.
      assert (sq_diff s c = 0) as ->%sq_diff_zero by lia.
      f_equal. apply IH. lia.
    + intros [= -> ->].
      assert (sq_diff c c = 0) as -> by by apply sq_diff_zero.
      assert (foldr Z.add 0 (zip_with sq_diff t t) = 0) as -> by by apply IH.
      done.
Qed.

(** The loop over the indices [k, k+n), when both sequences reach that far. *)
Lemma calc_fitness_loop_spec source target n : forall k acc,
  (k + n = length source)%nat ->
  (length source <= length target)%nat ->
  calc_fitness_loop source target (seq k n) acc
  = Ok (acc + fitness_sum (drop k source) (drop k target)).
Proof.
  induction n as [|n IH]; intros k acc Hk Hle; simpl.
  - rewrite drop_ge by lia. unfold fitness_sum. simpl. f_equal. lia.
  - destruct (lookup_lt_is_Some_2 target k) as [t Ht]; [lia|].
    destruct (lookup_lt_is_Some_2 source k) as [s Hs]; [lia|].
    rewrite Ht, Hs. rewrite IH by lia.
    rewrite (drop_S source s k Hs), (drop_S target t k Ht).
    unfold fitness_sum. simpl. unfold sq_diff at 2. f_equal. lia.
Qed.

Lemma calc_fitness_le source target :
  (length source <= length target)%nat ->
  calc_fitness source target = Ok (fitness_sum source target).
Proof.
  intros H. unfold calc_fitness.
  rewrite calc_fitness_loop_spec by (done || lia).
  rewrite !drop_0. f_equal.
Qed.

(** The loop raises as soon as it reaches an index beyond the target. *)
Lemma calc_fitness_loop_raise source target n : forall k acc,
  (k + n = length source)%nat ->
  (k <= length target < length source)%nat ->
  calc_fitness_loop source target (seq k n) acc = Raise IndexError.
Proof.
  induction n as [|n IH]; intros k acc Hk Hlt; simpl.
  - lia.
  - destruct (target !! k) as [t|] eqn:Ht; [|done].
    apply lookup_lt_Some in Ht.
    destruct (lookup_lt_is_Some_2 source k) as [s Hs]; [lia|].
    rewrite Hs. apply IH; lia.
Qed.

Lemma calc_fitness_gt source target :
  (length target < length source)%nat ->
  calc_fitness source target = Raise IndexError.
Proof.
  intros H. unfold calc_fitness. apply calc_fitness_loop_raise; lia.
Qed.

(** ** The monad, step by step *)

Lemma bind_unfold {A B} (m : M A) (k : A -> M B) w :
  (m ≫= k) w = match m w with Ok (a, w') => k a w' | Raise e => Raise e end.
Proof. done. Qed.

Lemma bind_Ok {A B} (m : M A) (k : A -> M B) w b w' :
  (m ≫= k) w = Ok (b, w') -> exists a w1, m w = Ok (a, w1) /\ k a w1 = Ok (b, w').
Proof.
  rewrite bind_unfold. destruct (m w) as [[a w1]|e]; [|done]. eauto.
Qed.

Lemma ret_Ok {A} (a b : A) w w' : ret a w = Ok (b, w') -> b = a /\ w' = w.
Proof. by intros [= -> ->]. Qed.

Lemma lift_Ok {A} (r : result A) a w w' : lift r w = Ok (a, w') -> r = Ok a /\ w' = w.
Proof. unfold lift. destruct r; [|done]. by intros [= -> ->]. Qed.

Lemma get_dna_Ok c w d w' :
  get_dna c w = Ok (d, w') -> w' = w /\ exists f, heap w !! c = Some (ODict d f).
Proof.
  unfold get_dna. destruct (heap w !! c) as [[|d' f]|]; try done.
  intros [= -> ->]. eauto.
Qed.

Lemma get_fitness_Ok c w f w' :
  get_fitness c w = Ok (f, w') -> w' = w /\ exists d, heap w !! c = Some (ODict d f).
Proof.
  unfold get_fitness. destruct (heap w !! c) as [[|d f']|]; try done.
  intros [= -> ->]. eauto.
Qed.

Lemma read_list_Ok l w cs w' :
  read_list l w = Ok (cs, w') -> w' = w /\ heap w !! l = Some (OList cs).
Proof.
  unfold read_list. destruct (heap w !! l) as [[cs'|]|]; try done.
  by intros [= -> ->].
Qed.

Lemma write_list_Ok l cs w u w' :
  write_list l cs w = Ok (u, w') ->
  w' = World (<[l := OList cs]> (heap w)) (rand w) /\ exists old, heap w !! l = Some (OList old).
Proof.
  unfold write_list. destruct (heap w !! l) as [[old|]|]; try done.
  intros [= _ <-]. eauto.
Qed.

Lemma alloc_Ok o w l w' :
  alloc o w = Ok (l, w') ->
  l = fresh (dom (heap w)) /\ w' = World (<[l := o]> (heap w)) (rand w).
Proof. unfold alloc. by intros [= <- <-]. Qed.

Lemma fresh_heap (h : gmap loc obj) : h !! fresh (dom h) = None.
Proof. apply not_elem_of_dom. apply is_fresh. Qed.

Lemma randint_eq a b w :
  a <= b ->
  randint a b w = Ok (a + tape (rand w) (cursor (rand w)) mod (b - a + 1), advance w 1).
Proof.
  intros H. unfold randint. destruct (b <? a) eqn:E; [apply Z.ltb_lt in E; lia|]. done.
Qed.

Lemma randint_empty a b w : b < a -> randint a b w = Raise ValueError.
Proof.
  intros H. unfold randint. destruct (b <? a) eqn:E; [done|]. apply Z.ltb_ge in E. lia.
Qed.

Lemma randint_Ok a b w v w' :
  randint a b w = Ok (v, w') ->
  a <= v <= b /\ v = a + tape (rand w) (cursor (rand w)) mod (b - a + 1) /\ w' = advance w 1.
Proof.
  destruct (Z.lt_ge_cases b a) as [H|H].
  - by rewrite randint_empty.
  - rewrite randint_eq by lia. intros [= <- <-].
    pose proof (Z.mod_pos_bound (tape (rand w) (cursor (rand w))) (b - a + 1)).
    split; [lia|done].
Qed.

(** ** Python list operations *)

Lemma py_index_nat {A} (l : list A) (i : nat) x :
  l !! i = Some x -> py_index l (Z.of_nat i) = Ok x.
Proof.
  intros H. unfold py_index, norm_index.
  destruct (Z.of_nat i <? 0) eqn:E; [apply Z.ltb_lt in E; lia|].
  rewrite E. by rewrite Nat2Z.id, H.
Qed.

Lemma py_index_0 {A} (l : list A) : py_index l 0 = match l with x :: _ => Ok x | [] => Raise IndexError end.
Proof. by destruct l. Qed.

Lemma py_index_last {A} (l : list A) :
  py_index l (-1) = match last l with Some x => Ok x | None => Raise IndexError end.
Proof.
  unfold py_index, norm_index. simpl.
  destruct l as [|x l]; [done|].
  destruct (-1 + Z.of_nat (length (x :: l)) <? 0) eqn:E.
  { apply Z.ltb_lt in E. simpl in E. lia. }
  rewrite last_lookup.
  replace (Z.to_nat (-1 + Z.of_nat (length (x :: l)))) with (Nat.pred (length (x :: l)))
    by (simpl; lia).
  by destruct ((x :: l) !! Nat.pred (length (x :: l))).
Qed.

Lemma py_index_Ok {A} (l : list A) i x : py_index l i = Ok x -> x ∈ l.
Proof.
  unfold py_index. destruct (_ <? 0); [done|].
  destruct (l !! _) eqn:E; [|done]. intros [= <-].
  by eapply list_elem_of_lookup_2.
Qed.

Lemma py_setitem_last {A} (l : list A) x :
  l <> [] -> py_setitem l (-1) x = Ok (<[Nat.pred (length l) := x]> l).
Proof.
  intros H. unfold py_setitem, norm_index. simpl.
  destruct l as [|y l]; [done|].
  replace ((-1 + Z.of_nat (length (y :: l)) <? 0)) with false
    by (symmetry; apply Z.ltb_ge; simpl; lia).
  replace (Z.of_nat (length (y :: l)) <=? -1 + Z.of_nat (length (y :: l))) with false
    by (symmetry; apply Z.leb_gt; lia).
  simpl orb. cbv iota. do 2 f_equal. simpl. lia.
Qed.

Lemma py_setitem_nat {A} (l : list A) (i : nat) x :
  (i < length l)%nat -> py_setitem l (Z.of_nat i) x = Ok (<[i := x]> l).
Proof.
  intros H. unfold py_setitem, norm_index.
  replace (Z.of_nat i <? 0) with false by (symmetry; apply Z.ltb_ge; lia).
  replace (Z.of_nat i <? 0) with false by (symmetry; apply Z.ltb_ge; lia).
  replace (Z.of_nat (length l) <=? Z.of_nat i) with false by (symmetry; apply Z.leb_gt; lia).
  simpl. by rewrite Nat2Z.id.
Qed.

Lemma py_setitem_Ok {A} (l : list A) i x l' :
  py_setitem l i x = Ok l' -> length l' = length l.
Proof.
  unfold py_setitem. destruct (_ || _); [done|]. intros [= <-]. apply length_insert.
Qed.

Lemma slice_bound_nat len (i : nat) :
  slice_bound (Z.of_nat len) (Z.of_nat i) = Nat.min i len.
Proof.
  unfold slice_bound.
  replace (Z.of_nat i <? 0) with false by (symmetry; apply Z.ltb_ge; lia). lia.
Qed.

(** With indices [i <= j] the Python slice assignment is the plain splice. *)
Lemma py_slice_assign_nat {A} (l r : list A) (i j : nat) :
  (i <= j)%nat ->
  py_slice_assign l (Z.of_nat i) (Z.of_nat j) r = take i l ++ r ++ drop j l.
Proof.
  intros H. unfold py_slice_assign. rewrite !slice_bound_nat.
  destruct (Nat.le_gt_cases i (length l)) as [Hi|Hi].
  - rewrite (Nat.min_l i) by done.
    destruct (Nat.le_gt_cases j (length l)) as [Hj|Hj].
    + rewrite (Nat.min_l j) by done. by rewrite Nat.max_r by lia.
    + rewrite (Nat.min_r j) by lia. rewrite Nat.max_r by lia.
      by rewrite !drop_ge by lia.
  - rewrite !Nat.min_r by lia. rewrite Nat.max_id.
    rewrite !take_ge by lia. by rewrite !drop_ge by lia.
Qed.

Lemma py_slice_nat {A} (l : list A) (i j : nat) :
  (i <= j)%nat -> (j <= length l)%nat ->
  py_slice l (Z.of_nat i) (Z.of_nat j) = take (j - i) (drop i l).
Proof.
  intros H1 H2. unfold py_slice. rewrite !slice_bound_nat.
  by rewrite !Nat.min_l by lia.
Qed.

(** ** Sorting by key *)

Lemma insert_by_key_perm x l : Permutation (insert_by_key x l) (x :: l).
Proof.
  induction l as [|y l IH]; simpl; [done|].
  destruct (x.1 <=? y.1); [done|].
  rewrite IH. apply perm_swap.
Qed.

Lemma sort_by_key_perm l : Permutation (sort_by_key l) l.
Proof.
  induction l as [|x l IH]; simpl; [done|].
  rewrite insert_by_key_perm. by constructor.
Qed.

Lemma insert_by_key_sorted x l :
  StronglySorted key_le l -> StronglySorted key_le (insert_by_key x l).
Proof.
  induction 1 as [|y l Hl IH Hy]; simpl.
  - repeat constructor.
  - destruct (x.1 <=? y.1) eqn:E.
    + apply Z.leb_le in E. constructor; [by constructor|].
      constructor; [done|].
      eapply Forall_impl; [exact Hy|]. unfold key_le. intros; lia.
    + apply Z.leb_gt in E. constructor; [done|].
      rewrite insert_by_key_perm. constructor; [unfold key_le; lia|done].
Qed.

Lemma sort_by_key_sorted l : StronglySorted key_le (sort_by_key l).
Proof.
  induction l as [|x l IH]; simpl; [constructor|]. by apply insert_by_key_sorted.
Qed.

(** An element goes in front of the first one that is not smaller: equal
    keys keep their order, and a sorted list is left as it is. *)
Lemma insert_by_key_head x l :
  Forall (key_le x) l -> insert_by_key x l = x :: l.
Proof.
  destruct l as [|y l]; [done|]. intros [H _]%Forall_cons. simpl.
  unfold key_le in H. by destruct (Z.leb_spec (x.1) (y.1)); [|lia].
Qed.

Lemma sort_by_key_id l : StronglySorted key_le l -> sort_by_key l = l.
Proof.
  induction 1 as [|x l Hl IH Hx]; simpl; [done|].
  rewrite IH. by apply insert_by_key_head.
Qed.

(** Stability: the candidates of one key come out in the order they went in. *)
Lemma insert_by_key_stable k x l :
  filter (fun y : Z * loc => y.1 = k) (insert_by_key x l)
  = filter (fun y : Z * loc => y.1 = k) (x :: l).
Proof.
  induction l as [|y l IH]; simpl; [done|].
  destruct (Z.leb_spec (x.1) (y.1)) as [Hle|Hgt]; [done|].
  rewrite (filter_cons _ y), IH, !(filter_cons _ x), !(filter_cons _ y).
  repeat case_decide; try done; lia.
Qed.

Lemma sort_by_key_stable k l :
  filter (fun y : Z * loc => y.1 = k) (sort_by_key l)
  = filter (fun y : Z * loc => y.1 = k) l.
Proof.
  induction l as [|x l IH]; simpl; [done|].
  rewrite insert_by_key_stable, !(filter_cons _ x), IH. done.
Qed.

Lemma mapM_get_fitness_Ok pool : forall w keys w',
  mapM get_fitness pool w = Ok (keys, w') ->
  w' = w /\ Forall2 (fun c k => fitness_of (heap w) c = Some k) pool keys.
Proof.
  induction pool as [|c pool IH]; intros w keys w' H; simpl in H.
  - apply ret_Ok in H as [-> ->]. by split; [|constructor].
  - apply bind_Ok in H as (k & w1 & Hk & H).
    apply get_fitness_Ok in Hk as [-> [d Hd]].
    apply bind_Ok in H as (ks & w2 & Hks & H).
    apply IH in Hks as [-> Hks].
    apply ret_Ok in H as [-> ->].
    split; [done|]. constructor; [|done].
    unfold fitness_of. by rewrite Hd.
Qed.

Lemma fitness_of_Some h c f :
  fitness_of h c = Some f <-> exists d, h !! c = Some (ODict d f).
Proof.
  unfold fitness_of. split.
  - destruct (h !! c) as [[|d f']|]; try done. intros [= ->]. eauto.
  - by intros [d ->].
Qed.

Lemma get_fitness_eq c w f :
  fitness_of (heap w) c = Some f -> get_fitness c w = Ok (f, w).
Proof. intros [d H]%fitness_of_Some. unfold get_fitness. by rewrite H. Qed.

Lemma mapM_get_fitness_eq pool : forall w keys,
  Forall2 (fun c k => fitness_of (heap w) c = Some k) pool keys ->
  mapM get_fitness pool w = Ok (keys, w).
Proof.
  induction pool as [|c pool IH]; intros w keys H.
  - by apply Forall2_nil_inv_l in H as ->.
  - apply Forall2_cons_inv_l in H as (k & ks & Hk & Hks & ->).
    simpl. rewrite bind_unfold, (get_fitness_eq _ _ _ Hk).
    rewrite bind_unfold, (IH _ _ Hks). done.
Qed.

(** What [gene_pool.sort(key=...)] does: the store is only read, the pool
    is permuted, and the fitness values go up along the result. *)
Lemma sort_pool_Ok pool w sorted w' :
  sort_pool pool w = Ok (sorted, w') ->
  w' = w /\ Permutation sorted pool /\
  StronglySorted (fit_le (heap w)) sorted /\
  Forall (fun c => is_Some (fitness_of (heap w) c)) pool.
Proof.
  unfold sort_pool. intros H.
  apply bind_Ok in H as (keys & w1 & Hkeys & H).
  apply mapM_get_fitness_Ok in Hkeys as [-> Hkeys].
  apply ret_Ok in H as [-> ->].
  assert (length keys = length pool) as Hlen by (symmetry; by eapply Forall2_length).
  assert (Forall (fun x => fitness_of (heap w) x.2 = Some x.1) (zip keys pool)) as Hzip.
  { clear Hlen. induction Hkeys; simpl; constructor; done. }
  split; [done|]. split; [|split].
  - rewrite sort_by_key_perm. by rewrite snd_zip by lia.
  - rewrite <- (sort_by_key_perm (zip keys pool)) in Hzip.
    pose proof (sort_by_key_sorted (zip keys pool)) as Hs.
    induction Hs as [|x l Hl IH Hx]; simpl; [constructor|].
    apply Forall_cons in Hzip as [Hx0 Hzip].
    constructor; [by apply IH|].
    apply Forall_fmap. apply Forall_forall. intros y Hy. simpl.
    exists x.1, y.1. split; [done|]. split.
    + by eapply Forall_forall in Hzip.
    + by eapply Forall_forall in Hx.
  - clear Hlen Hzip. induction Hkeys; constructor; eauto.
Qed.

(** ** mutate: forward execution and inversion *)

Lemma get_dna_eq c w d f : heap w !! c = Some (ODict d f) -> get_dna c w = Ok (d, w).
Proof. intros H. unfold get_dna. by rewrite H. Qed.

Lemma read_list_eq l w cs : heap w !! l = Some (OList cs) -> read_list l w = Ok (cs, w).
Proof. intros H. unfold read_list. by rewrite H. Qed.

Lemma write_list_eq l w old cs :
  heap w !! l = Some (OList old) ->
  write_list l cs w = Ok (tt, World (<[l := OList cs]> (heap w)) (rand w)).
Proof. intros H. unfold write_list. by rewrite H. Qed.

Lemma crossover_length a b i j :
  length a = length b -> (i <= j)%nat -> (j <= length a)%nat ->
  length (crossover a b i j) = length a.
Proof.
  intros Hab Hij Hj. unfold crossover.
  rewrite !length_app, !length_take, !length_drop. lia.
Qed.

Ltac mfwd L := rewrite bind_unfold; rewrite L; cbn [heap rand advance].

Lemma mutate_eq target w p1 p2 d1 f1 d2 f2 gA gB :
  heap w !! p1 = Some (ODict d1 f1) -> heap w !! d1 = Some (OList gA) ->
  heap w !! p2 = Some (ODict d2 f2) -> heap w !! d2 = Some (OList gB) ->
  length gA = length gB ->
  let n := Z.of_nat (length gA) in
  let tp i := tape (rand w) (i + cursor (rand w))%nat in
  let i0 := Z.to_nat (tp 0%nat mod n) in
  let j0 := Z.to_nat (tp 1%nat mod n) in
  let pos := Z.to_nat (tp 2%nat mod n) in
  let delta := -1 + tp 3%nat mod 3 in
  mutate p1 p2 target w =
    match reproduce_spec gA gB i0 j0 pos delta with
    | None => Raise ValueError
    | Some final =>
        match calc_fitness final target with
        | Raise e => Raise e
        | Ok f =>
            let cd := fresh (dom (heap w)) in
            let h2 := <[cd := OList final]> (heap w) in
            let child := fresh (dom h2) in
            Ok (child, advance (World (<[child := ODict cd f]> h2) (rand w)) 4)
        end
    end.
Proof.
  intros Hp1 Hd1 Hp2 Hd2 Hlen n tp i0 j0 pos delta.
  set (cd := fresh (dom (heap w))).
  assert (heap w !! cd = None) as Hcd by apply fresh_heap.
  assert (cd <> p2) as Hcp2 by (intros ->; congruence).
  assert (cd <> d2) as Hcd2 by (intros ->; congruence).
  unfold mutate.
  mfwd (get_dna_eq _ _ _ _ Hp1).
  mfwd (read_list_eq _ _ _ Hd1).
  rewrite bind_unfold. unfold alloc at 1. cbn [heap rand]. fold cd.
  assert (<[cd:=OList gA]> (heap w) !! p2 = Some (ODict d2 f2)) as Hp2' by by rewrite lookup_insert_ne.
  assert (<[cd:=OList gA]> (heap w) !! d2 = Some (OList gB)) as Hd2' by by rewrite lookup_insert_ne.
  rewrite bind_unfold, (get_dna_eq _ _ d2 f2) by done.
  rewrite bind_unfold, (read_list_eq _ _ gB) by done.
  destruct (decide (gA = [])) as [->|Hne].
  { rewrite bind_unfold, randint_empty by (destruct gB; simpl in *; lia).
    destruct gB; [|done]. unfold reproduce_spec, crossover.
    by rewrite !drop_nil, !take_nil. }
  assert (0 < n) as Hn by (subst n; destruct gA; [done | simpl; lia]).
  rewrite bind_unfold, randint_eq by lia. unfold advance at 1. cbn [heap rand tape cursor].
  rewrite bind_unfold, (get_dna_eq _ _ d2 f2) by done.
  rewrite bind_unfold, (read_list_eq _ _ gB) by done.
  rewrite bind_unfold, randint_eq by lia. unfold advance at 1. cbn [heap rand tape cursor].
  replace (Z.of_nat (length gB) - 1 - 0 + 1) with n by lia.
  change (tape (rand w) (cursor (rand w))) with (tp 0%nat).
  change (tape (rand w) (1 + cursor (rand w))) with (tp 1%nat).
  pose proof (Z.mod_pos_bound (tp 0%nat) n Hn) as Hi0.
  pose proof (Z.mod_pos_bound (tp 1%nat) n Hn) as Hj0.
  pose proof (Z.mod_pos_bound (tp 2%nat) n Hn) as Hpos.
  set (first := Nat.min i0 j0). set (second := Nat.max i0 j0).
  assert ((if 0 + tp 1%nat `mod` n <? 0 + tp 0%nat `mod` n
           then (0 + tp 1%nat `mod` n, 0 + tp 0%nat `mod` n)
           else (0 + tp 0%nat `mod` n, 0 + tp 1%nat `mod` n))
          = (Z.of_nat first, Z.of_nat second)) as ->.
  { subst first second i0 j0. destruct (Z.ltb_spec (0 + tp 1%nat `mod` n) (0 + tp 0%nat `mod` n)).
    - rewrite Nat.min_r, Nat.max_l by lia. f_equal; lia.
    - rewrite Nat.min_l, Nat.max_r by lia. f_equal; lia. }
  assert (first <= second)%nat as Hfs by (subst first second; lia).
  assert (second < length gA)%nat as Hsn by (subst second i0 j0 n; lia).
  rewrite bind_unfold, (get_dna_eq _ _ d2 f2) by done.
  rewrite bind_unfold, (read_list_eq _ _ gB) by done.
  rewrite bind_unfold, (read_list_eq _ _ gA) by (cbn; apply lookup_insert_eq).
  rewrite bind_unfold, (write_list_eq _ _ gA) by (cbn; apply lookup_insert_eq).
  cbn [heap rand]. rewrite insert_insert_eq.
  rewrite py_slice_assign_nat, py_slice_nat by lia.
  fold (crossover gA gB first second).
  set (crossed := crossover gA gB first second).
  assert (length crossed = length gA) as Hcl by (apply crossover_length; lia).
  rewrite bind_unfold, (read_list_eq _ _ crossed) by (cbn; apply lookup_insert_eq).
  rewrite bind_unfold, randint_eq by lia. unfold advance at 1. cbn [heap rand tape cursor].
  rewrite bind_unfold, (read_list_eq _ _ crossed) by (cbn; apply lookup_insert_eq).
  replace (Z.of_nat (length crossed) - 1 - 0 + 1) with n by lia.
  change (tape (rand w) (1 + (1 + cursor (rand w)))) with (tp 2%nat).
  replace (0 + tp 2%nat `mod` n) with (Z.of_nat pos) by (subst pos; lia).
  unfold reproduce_spec. fold first second crossed.
  destruct (lookup_lt_is_Some_2 crossed pos) as [c Hc]; [subst pos n; lia|].
  rewrite Hc.
  rewrite bind_unfold, (py_index_nat _ _ _ Hc). cbn [lift].
  rewrite bind_unfold, randint_eq by lia. unfold advance at 1. cbn [heap rand tape cursor].
  change (tape (rand w) (1 + (1 + (1 + cursor (rand w))))) with (tp 3%nat).
  replace (-1 + tp 3%nat `mod` (1 - -1 + 1)) with delta by done.
  rewrite bind_unfold.
  destruct (chr (ord c + delta)) as [c'|e] eqn:Hchr; cbn [lift];
    [|by rewrite (chr_out_of_range_inv _ _ Hchr)].
  rewrite bind_unfold, (read_list_eq _ _ crossed) by (cbn; apply lookup_insert_eq).
  rewrite bind_unfold, py_setitem_nat by (subst pos n; lia). cbn [lift].
  rewrite bind_unfold, (write_list_eq _ _ crossed) by (cbn; apply lookup_insert_eq).
  cbn [heap rand]. rewrite insert_insert_eq.
  rewrite bind_unfold, (read_list_eq _ _ (<[pos:=c']> crossed)) by (cbn; apply lookup_insert_eq).
  rewrite bind_unfold.
  destruct (calc_fitness (<[pos:=c']> crossed) target) as [f|e]; cbn [lift]; [|done].
  unfold alloc, advance. cbn [heap rand tape cursor]. done.
Qed.

Ltac minv_prim H :=
  first
    [ apply get_dna_Ok in H as [-> [? H]]
    | apply get_fitness_Ok in H as [-> [? H]]
    | apply read_list_Ok in H as [-> H]
    | apply write_list_Ok in H as [-> [? H]]
    | apply alloc_Ok in H as [? ->]
    | apply randint_Ok in H as (? & ? & ->)
    | apply lift_Ok in H as [H ->]
    | apply ret_Ok in H as [-> ->] ].

Ltac minv H :=
  let Hm := fresh "Hm" in
  apply bind_Ok in H as (? & ? & Hm & H); minv_prim Hm.

Lemma mutate_Ok p1 p2 target w child w' :
  mutate p1 p2 target w = Ok (child, w') ->
  exists cs f,
    let cd := fresh (dom (heap w)) in
    calc_fitness cs target = Ok f /\
    child = fresh (dom (<[cd := OList cs]> (heap w))) /\
    w' = advance (World (<[child := ODict cd f]> (<[cd := OList cs]> (heap w))) (rand w)) 4.
Proof.
  unfold mutate. intros H.
  do 9 minv H.
  match type of H with context [if ?b then _ else _] => destruct b end.
  all: do 15 minv H.
  all: apply alloc_Ok in H as [-> ->].
  all: unfold advance in *; cbn [heap rand tape cursor] in *.
  all: subst.
  all: rewrite ?insert_insert_eq in *.
  all: repeat match goal with
         | H : <[?l := _]> _ !! ?l = Some _ |- _ => rewrite lookup_insert_eq in H
         end.
  all: simplify_eq.
  all: eexists _, _; split; [eassumption|]; split; reflexivity.
Qed.

(** ** The store only grows *)

Lemma preserves_refl h : preserves h h.
Proof. by intros l _. Qed.

Lemma preserves_trans h1 h2 h3 : preserves h1 h2 -> preserves h2 h3 -> preserves h1 h3.
Proof.
  intros H12 H23 l Hl. rewrite <- (H12 l Hl). apply H23.
  apply elem_of_dom. rewrite (H12 l Hl). by apply elem_of_dom.
Qed.

Lemma preserves_dom h h' : preserves h h' -> dom h ⊆ dom h'.
Proof.
  intros H l Hl. apply elem_of_dom. rewrite (H l Hl). by apply elem_of_dom.
Qed.

Lemma preserves_insert_fresh (h : gmap loc obj) o :
  preserves h (<[fresh (dom h) := o]> h).
Proof.
  intros l Hl. apply lookup_insert_ne. intros <-. by apply is_fresh in Hl.
Qed.

Lemma with_child_preserves h cs f : preserves h (with_child h cs f).
Proof.
  unfold with_child. eapply preserves_trans; apply preserves_insert_fresh.
Qed.

Lemma child_loc_fresh h cs : child_loc h cs ∉ dom h.
Proof.
  unfold child_loc. intros H.
  apply (is_fresh (dom (<[fresh (dom h) := OList cs]> h))).
  by apply (preserves_dom _ _ (preserves_insert_fresh h (OList cs))).
Qed.

Lemma child_loc_ne_dna h cs : child_loc h cs <> fresh (dom h).
Proof.
  unfold child_loc. intros H.
  apply (is_fresh (dom (<[fresh (dom h) := OList cs]> h))).
  rewrite H. apply elem_of_dom. rewrite lookup_insert_eq. eauto.
Qed.

Lemma with_child_lookup h cs f :
  with_child h cs f !! child_loc h cs = Some (ODict (fresh (dom h)) f).
Proof. unfold with_child, child_loc. apply lookup_insert_eq. Qed.

Lemma with_child_lookup_dna h cs f :
  with_child h cs f !! fresh (dom h) = Some (OList cs).
Proof.
  unfold with_child. rewrite lookup_insert_ne; [apply lookup_insert_eq|].
  apply child_loc_ne_dna.
Qed.

Lemma with_child_fitness h cs f : fitness_of (with_child h cs f) (child_loc h cs) = Some f.
Proof. unfold fitness_of. by rewrite with_child_lookup. Qed.

Lemma with_child_genome h cs f : genome_of (with_child h cs f) (child_loc h cs) = Some cs.
Proof. unfold genome_of. by rewrite with_child_lookup, with_child_lookup_dna. Qed.

Lemma fitness_of_dom h c f : fitness_of h c = Some f -> c ∈ dom h.
Proof. intros [d H]%fitness_of_Some. apply elem_of_dom. eauto. Qed.

Lemma preserves_fitness h h' c f :
  preserves h h' -> fitness_of h c = Some f -> fitness_of h' c = Some f.
Proof.
  intros Hp H. pose proof (fitness_of_dom _ _ _ H) as Hd.
  unfold fitness_of in *. by rewrite (Hp c Hd).
Qed.

Lemma preserves_candidate_ok target h h' c :
  preserves h h' -> candidate_ok target h c -> candidate_ok target h' c.
Proof.
  intros Hp (d & cs & Hc & Hd & Hlen). exists d, cs.
  rewrite (Hp c), (Hp d); [done| |]; apply elem_of_dom; eauto.
Qed.

Lemma mutate_Ok' p1 p2 target w child w' :
  mutate p1 p2 target w = Ok (child, w') ->
  exists cs f,
    calc_fitness cs target = Ok f /\
    child = child_loc (heap w) cs /\
    w' = advance (World (with_child (heap w) cs f) (rand w)) 4.
Proof.
  intros (cs & f & H)%mutate_Ok. exists cs, f.
  cbn zeta in H. destruct H as (Hc & -> & ->). done.
Qed.

Lemma random_parent_Ok pool w p w' :
  random_parent pool w = Ok (p, w') -> p ∈ pool /\ w' = advance w 1.
Proof.
  unfold random_parent. intros H. minv H. minv_prim H.
  split; [by eapply py_index_Ok|done].
Qed.

Lemma head_py_index {A} (l : list A) x : py_index l 0 = Ok x <-> head l = Some x.
Proof. rewrite py_index_0. destruct l; simpl; split; congruence. Qed.

Lemma last_py_index {A} (l : list A) x : py_index l (-1) = Ok x <-> last l = Some x.
Proof. rewrite py_index_last. destruct (last l); split; congruence. Qed.

(** The test and the assignment of the replacement, on a store that holds
    the two fitness values. *)
Lemma replace_worst_Ok pool child w pool' w' :
  replace_worst pool child w = Ok (pool', w') ->
  w' = w /\
  exists cf worst fw,
    fitness_of (heap w) child = Some cf /\
    last pool = Some worst /\
    fitness_of (heap w) worst = Some fw /\
    pool' = if cf <? fw then <[Nat.pred (length pool) := child]> pool else pool.
Proof.
  unfold replace_worst. intros H.
  apply bind_Ok in H as (cf & w1 & Hcf & H).
  apply get_fitness_Ok in Hcf as [-> [dc Hcf]].
  apply bind_Ok in H as (worst & w1 & Hw & H).
  apply lift_Ok in Hw as [Hw ->]. apply last_py_index in Hw.
  apply bind_Ok in H as (fw & w1 & Hfw & H).
  apply get_fitness_Ok in Hfw as [-> [dw Hfw]].
  assert (pool <> []) as Hne by (intros ->; done).
  assert (fitness_of (heap w) child = Some cf) as Hcf' by (apply fitness_of_Some; eauto).
  assert (fitness_of (heap w) worst = Some fw) as Hfw' by (apply fitness_of_Some; eauto).
  destruct (cf <? fw) eqn:E.
  - apply lift_Ok in H as [H ->]. rewrite py_setitem_last in H by done.
    injection H as <-. split; [done|]. exists cf, worst, fw. by rewrite E.
  - apply ret_Ok in H as [-> ->]. split; [done|]. exists cf, worst, fw. by rewrite E.
Qed.

(** Everything one round does, read off a round that did not raise. *)
Lemma loop_body_Ok target pool hist w pool' hist' b w' :
  loop_body target pool hist w = Ok (pool', hist', b, w') ->
  exists sorted best p1 p2 cs f worst fw first f0,
    let h := heap w in
    let child := child_loc h cs in
    sort_pool pool w = Ok (sorted, w) /\
    head sorted = Some best /\
    hist' = hist ++ [best] /\
    p1 ∈ sorted /\ p2 ∈ sorted /\
    mutate p1 p2 target (advance w 2) = Ok (child, w') /\
    calc_fitness cs target = Ok f /\
    w' = advance (World (with_child h cs f) (rand w)) 6 /\
    last sorted = Some worst /\
    fitness_of h worst = Some fw /\
    pool' = (if f <? fw then <[Nat.pred (length sorted) := child]> sorted else sorted) /\
    head pool' = Some first /\
    fitness_of (heap w') first = Some f0 /\
    b = (f0 =? 0).
Proof.
  unfold loop_body. intros H.
  apply bind_Ok in H as (sorted & w1 & Hsort & H).
  pose proof (sort_pool_Ok _ _ _ _ Hsort) as (-> & Hperm & Hsorted & Hfit).
  apply bind_Ok in H as (best & w1 & Hbest & H).
  apply lift_Ok in Hbest as [Hbest ->]. apply head_py_index in Hbest.
  apply bind_Ok in H as (p1 & w1 & Hp1 & H). apply random_parent_Ok in Hp1 as [Hp1 ->].
  apply bind_Ok in H as (p2 & w1 & Hp2 & H). apply random_parent_Ok in Hp2 as [Hp2 ->].
  apply bind_Ok in H as (child & w1 & Hmut & H).
  pose proof (mutate_Ok' _ _ _ _ _ _ Hmut) as (cs & f & Hcalc & -> & ->).
  apply bind_Ok in H as (pool1 & w1 & Hrep & H).
  apply replace_worst_Ok in Hrep as (-> & cf & worst & fw & Hcf & Hlast & Hfw & ->).
  apply bind_Ok in H as (first & w1 & Hfirst & H).
  apply lift_Ok in Hfirst as [Hfirst ->]. apply head_py_index in Hfirst.
  apply bind_Ok in H as (f0 & w1 & Hf0 & H).
  apply get_fitness_Ok in Hf0 as [-> [d0 Hf0]].
  apply ret_Ok in H as [[= -> -> ->] ->].
  unfold advance in *. cbn [heap rand tape cursor] in *.
  rewrite with_child_fitness in Hcf. injection Hcf as <-.
  assert (fitness_of (heap w) worst = Some fw) as Hfw0.
  { apply last_Some_elem_of in Hlast. rewrite Hperm in Hlast.
    eapply Forall_forall in Hfit as [fw' Hfw']; [|done].
    rewrite (preserves_fitness _ _ _ _ (with_child_preserves _ cs f) Hfw') in Hfw.
    congruence. }
  exists sorted, best, p1, p2, cs, f, worst, fw, first, f0. cbn zeta.
  split_and!; try done.
  all: try (apply fitness_of_Some; eauto).
Qed.

(** ** One round of the loop *)

Lemma step_Continue target s s' :
  step target s = Continue s' <->
  loop_body target (gene_pool s) (fittest s) (st_world s)
    = Ok (gene_pool s', fittest s', false, st_world s') /\
  generation s' = generation s + 1.
Proof.
  unfold step.
  destruct (loop_body _ _ _ _) as [[[[pool hist] [|]] w]|e]; destruct s'; simpl;
    (split; [intros [=]; by subst | intros [[=] ?]; by subst]).
Qed.

Lemma step_Break target s s' :
  step target s = Break s' <->
  loop_body target (gene_pool s) (fittest s) (st_world s)
    = Ok (gene_pool s', fittest s', true, st_world s') /\
  generation s' = generation s.
Proof.
  unfold step.
  destruct (loop_body _ _ _ _) as [[[[pool hist] [|]] w]|e]; destruct s'; simpl;
    (split; [intros [=]; by subst | intros [[=] ?]; by subst]).
Qed.

Lemma completes_loop_body target s s' :
  completes target s s' ->
  exists b, loop_body target (gene_pool s) (fittest s) (st_world s)
    = Ok (gene_pool s', fittest s', b, st_world s').
Proof.
  intros [[H _]%step_Continue | [H _]%step_Break]; eauto.
Qed.

Lemma fit_le_refl h c : is_Some (fitness_of h c) -> fit_le h c c.
Proof. intros [f H]. exists f, f. split_and!; [done..|lia]. Qed.

Lemma fit_le_trans h c1 c2 c3 : fit_le h c1 c2 -> fit_le h c2 c3 -> fit_le h c1 c3.
Proof.
  intros (f1 & f2 & H1 & H2 & H12) (f2' & f3 & H2' & H3 & H23).
  exists f1, f3. split_and!; [done..|]. simplify_eq. lia.
Qed.

Lemma preserves_fit_le h h' c1 c2 : preserves h h' -> fit_le h c1 c2 -> fit_le h' c1 c2.
Proof.
  intros Hp (f1 & f2 & H1 & H2 & H12). exists f1, f2.
  split_and!; [by eapply preserves_fitness..|done].
Qed.

(** In a sorted pool the first candidate is a best one and the last a worst one. *)
Lemma sorted_head_least h sorted best c :
  StronglySorted (fit_le h) sorted ->
  Forall (fun c => is_Some (fitness_of h c)) sorted ->
  head sorted = Some best -> c ∈ sorted -> fit_le h best c.
Proof.
  intros Hs Hf Hh Hc. destruct sorted as [|x l]; [done|]. injection Hh as ->.
  apply StronglySorted_inv in Hs as [_ Hx].
  apply elem_of_cons in Hc as [->|Hc].
  - apply fit_le_refl. by apply Forall_cons in Hf as [? _].
  - by eapply Forall_forall in Hx.
Qed.

Lemma sorted_last_greatest h sorted worst c :
  StronglySorted (fit_le h) sorted ->
  Forall (fun c => is_Some (fitness_of h c)) sorted ->
  last sorted = Some worst -> c ∈ sorted -> fit_le h c worst.
Proof.
  intros Hs Hf Hl Hc.
  apply last_Some in Hl as [rest ->].
  apply elem_of_app in Hc as [Hc|Hc].
  - apply (StronglySorted_app_1_elem_of _ rest [worst]); [done|done|].
    by apply list_elem_of_singleton.
  - apply list_elem_of_singleton in Hc as ->. apply fit_le_refl.
    apply Forall_app in Hf as [_ Hf]. by apply Forall_cons in Hf as [? _].
Qed.

Lemma insert_last {A} (rest : list A) x y :
  <[Nat.pred (length (rest ++ [x])) := y]> (rest ++ [x]) = rest ++ [y].
Proof.
  rewrite length_app. simpl.
  replace (Nat.pred (length rest + 1)) with (length rest + 0)%nat by lia.
  by rewrite insert_app_r.
Qed.

(** What a round that did not raise has done: the pool was sorted into
    [rest ++ [worst]], its head recorded, a child made from two members of the
    pool and stored as two new objects, the last slot given to the child or
    left alone, and the head of the resulting pool tested. *)
Lemma round_summary target s s' :
  completes target s s' ->
  exists rest worst fw best p1 p2 cs f first f0,
    let h := heap (st_world s) in
    let child := child_loc h cs in
    sort_pool (gene_pool s) (st_world s) = Ok (rest ++ [worst], st_world s) /\
    Permutation (rest ++ [worst]) (gene_pool s) /\
    StronglySorted (fit_le h) (rest ++ [worst]) /\
    Forall (fun c => is_Some (fitness_of h c)) (rest ++ [worst]) /\
    head (rest ++ [worst]) = Some best /\
    fittest s' = fittest s ++ [best] /\
    p1 ∈ gene_pool s /\ p2 ∈ gene_pool s /\
    mutate p1 p2 target (advance (st_world s) 2) = Ok (child, st_world s') /\
    calc_fitness cs target = Ok f /\
    st_world s' = advance (World (with_child h cs f) (rand (st_world s))) 6 /\
    fitness_of h worst = Some fw /\
    gene_pool s' = rest ++ [if f <? fw then child else worst] /\
    head (gene_pool s') = Some first /\
    fitness_of (heap (st_world s')) first = Some f0 /\
    ((step target s = Break s' /\ f0 = 0 /\ generation s' = generation s) \/
     (step target s = Continue s' /\ f0 <> 0 /\ generation s' = generation s + 1)).
Proof.
  intros Hc.
  assert (exists b,
    loop_body target (gene_pool s) (fittest s) (st_world s)
      = Ok (gene_pool s', fittest s', b, st_world s') /\
    ((step target s = Break s' /\ b = true /\ generation s' = generation s) \/
     (step target s = Continue s' /\ b = false /\ generation s' = generation s + 1)))
    as (b & H & Hb).
  { destruct Hc as [Hc|Hc].
    - pose proof Hc as [H Hg]%step_Continue. exists false. split; [done|]. by right.
    - pose proof Hc as [H Hg]%step_Break. exists true. split; [done|]. by left. }
  apply loop_body_Ok in H
    as (sorted & best & p1 & p2 & cs & f & worst & fw & first & f0 & H).
  cbn zeta in H.
  destruct H as (Hsort & Hbest & Hhist & Hp1 & Hp2 & Hmut & Hcalc & Hw' & Hlast
                 & Hfw & Hpool' & Hfirst & Hf0 & Hb0).
  pose proof (sort_pool_Ok _ _ _ _ Hsort) as (_ & Hperm & Hsorted & Hfit).
  apply last_Some in Hlast as [rest ->].
  exists rest, worst, fw, best, p1, p2, cs, f, first, f0. cbn zeta.
  split_and!; try done.
  - by rewrite Hperm.
  - by rewrite <- Hperm.
  - by rewrite <- Hperm.
  - rewrite Hpool'. destruct (f <? fw); [apply insert_last|done].
  - destruct Hb as [(? & -> & ?)|(? & -> & ?)]; [left|right]; split_and!; try done.
    + symmetry in Hb0. by apply Z.eqb_eq in Hb0.
    + symmetry in Hb0. by apply Z.eqb_neq in Hb0.
Qed.

Lemma completes_preserves target s s' :
  completes target s s' -> preserves (heap (st_world s)) (heap (st_world s')).
Proof.
  intros (rest & worst & fw & best & p1 & p2 & cs & f & first & f0 & H)%round_summary.
  cbn zeta in H. destruct H as (_ & _ & _ & _ & _ & _ & _ & _ & _ & _ & -> & _).
  apply with_child_preserves.
Qed.

Lemma completes_length target s s' :
  completes target s s' -> length (gene_pool s') = length (gene_pool s).
Proof.
  intros (rest & worst & fw & best & p1 & p2 & cs & f & first & f0 & H)%round_summary.
  cbn zeta in H. destruct H as (_ & Hperm & _ & _ & _ & _ & _ & _ & _ & _ & _ & _ & -> & _).
  rewrite <- Hperm. by rewrite !length_app.
Qed.

Lemma pool_in_store target s s' c :
  completes target s s' -> c ∈ gene_pool s -> c ∈ dom (heap (st_world s)).
Proof.
  intros (rest & worst & fw & best & p1 & p2 & cs & f & first & f0 & H)%round_summary Hc.
  cbn zeta in H. destruct H as (_ & Hperm & _ & Hfit & _).
  rewrite <- Hperm in Hc. eapply Forall_forall in Hfit as [fc Hfc]; [|done].
  by eapply fitness_of_dom.
Qed.

(** ** The replacement rule *)

(** C1. In a round that does not raise, let [rest ++ [worst]] be the pool
    after the sort, by ascending fitness, and [child] the new candidate that
    reproduction returned.  The pool at the end of the round is
    [rest ++ [child]] when the child's fitness is below the worst member's
    and [rest ++ [worst]], the sorted pool itself, otherwise: the child is in
    the pool exactly in the first case, the only slot it takes is the worst
    member's, and no object of the store is changed. *)
Theorem elitist_replacement target s s' :
  completes target s s' ->
  exists rest worst fw child fc,
    let h := heap (st_world s) in
    let h' := heap (st_world s') in
    sort_pool (gene_pool s) (st_world s) = Ok (rest ++ [worst], st_world s) /\
    Permutation (rest ++ [worst]) (gene_pool s) /\
    StronglySorted (fit_le h) (rest ++ [worst]) /\
    (forall c, c ∈ gene_pool s -> fit_le h c worst) /\
    fitness_of h worst = Some fw /\
    (child ∉ dom h) /\ (child ∉ gene_pool s) /\
    fitness_of h' child = Some fc /\
    (child ∈ gene_pool s' <-> fc < fw) /\
    (fc < fw -> gene_pool s' = rest ++ [child]) /\
    (fw <= fc -> gene_pool s' = rest ++ [worst]) /\
    preserves h h'.
Proof.
  intros Hc.
  pose proof (round_summary _ _ _ Hc)
    as (rest & worst & fw & best & p1 & p2 & cs & f & first & f0 & H).
  cbn zeta in H.
  destruct H as (Hsort & Hperm & Hsorted & Hfit & Hbest & Hhist & Hp1 & Hp2 & Hmut
                 & Hcalc & Hw' & Hfw & Hpool' & _).
  set (h := heap (st_world s)) in *.
  set (child := child_loc h cs) in *.
  assert (heap (st_world s') = with_child h cs f) as Hh' by by rewrite Hw'.
  assert (child ∉ dom h) as Hfresh by apply child_loc_fresh.
  assert (child ∉ gene_pool s) as Hnotin.
  { intros Hin. apply Hfresh. by eapply pool_in_store. }
  exists rest, worst, fw, child, f. cbn zeta. rewrite Hh'.
  split_and!; try done.
  - intros c Hin. eapply sorted_last_greatest; [done|done|apply last_snoc|by rewrite Hperm].
  - apply with_child_fitness.
  - rewrite Hpool'. destruct (Z.ltb_spec f fw) as [Hlt|Hge].
    + split; [done|]. intros _. apply elem_of_app. right.
      by apply list_elem_of_singleton.
    + split; [|lia]. intros Hin. rewrite Hperm in Hin. done.
  - intros Hlt. rewrite Hpool'. apply Z.ltb_lt in Hlt. by rewrite Hlt.
  - intros Hge. rewrite Hpool'. apply Z.ltb_ge in Hge. by rewrite Hge.
  - apply with_child_preserves.
Qed.

(** ** The fitness function *)

(** C2. On a genome and a target of the same length [calc_fitness] returns
    the sum over the positions of the squared difference of the ordinals;
    that sum is not negative, and it is 0 exactly when the genome is the
    target. *)
Theorem calc_fitness_correct genome target :
  length genome = length target ->
  calc_fitness genome target = Ok (fitness_sum genome target) /\
  0 <= fitness_sum genome target /\
  (fitness_sum genome target = 0 <-> genome = target).
Proof.
  intros Hlen. split_and!.
  - apply calc_fitness_le. lia.
  - apply fitness_sum_nonneg.
  - by apply fitness_sum_zero.
Qed.

Lemma calc_fitness_correct_witness :
  calc_fitness (list_ascii_of_string "Hilo") (list_ascii_of_string "Help") = Ok 17 /\
  0 <= 17 /\
  (17 = 0 <-> list_ascii_of_string "Hilo" = list_ascii_of_string "Help").
Proof.
  exact (calc_fitness_correct
           (list_ascii_of_string "Hilo") (list_ascii_of_string "Help") eq_refl).
Defined.

(** The sum leaves out the positions that only one of the two lists has. *)
Lemma fitness_sum_take genome target :
  fitness_sum genome target = fitness_sum genome (take (length genome) target).
Proof.
  unfold fitness_sum. revert target.
  induction genome as [|s g IH]; intros [|t target]; simpl; try done.
  by rewrite IH.
Qed.

(** C3, as the code has it.  [calc_fitness] does not compare the two
    lengths.  A genome shorter than the target gets the sum over its own
    positions, the rest of the target being ignored; a genome longer than the
    target makes [target[i]] raise [IndexError] at the first position past
    the end of the target. *)
Theorem calc_fitness_length_mismatch genome target :
  length genome <> length target ->
  calc_fitness genome target =
    if (length genome <? length target)%nat
    then Ok (fitness_sum genome (take (length genome) target))
    else Raise IndexError.
Proof.
  intros Hne. destruct (Nat.ltb_spec (length genome) (length target)) as [Hlt|Hge].
  - rewrite <- fitness_sum_take. apply calc_fitness_le. lia.
  - apply calc_fitness_gt. lia.
Qed.

Lemma calc_fitness_length_mismatch_witness :
  calc_fitness (list_ascii_of_string "Hj") (list_ascii_of_string "Hi!") = Ok 1 /\
  calc_fitness (list_ascii_of_string "Hi!") (list_ascii_of_string "Hi") = Raise IndexError.
Proof.
  split.
  - apply (calc_fitness_length_mismatch
             (list_ascii_of_string "Hj") (list_ascii_of_string "Hi!")).
    simpl. lia.
  - apply (calc_fitness_length_mismatch
             (list_ascii_of_string "Hi!") (list_ascii_of_string "Hi")).
    simpl. lia.
Defined.

(** C3 as stated fails: lengths differ, and a value comes back. *)
Lemma calc_fitness_no_length_check :
  ~ (forall genome target,
       length genome <> length target ->
       exists e, calc_fitness genome target = Raise e).
Proof.
  intros H.
  destruct (H (list_ascii_of_string "Hi") (list_ascii_of_string "Hi!")) as [e He].
  - simpl. lia.
  - vm_compute in He. discriminate.
Qed.

(** ** The history *)

Lemma history_ok_round target s s' :
  completes target s s' -> history_ok s -> history_ok s'.
Proof.
  intros Hc [Hmono Hlast].
  pose proof (completes_preserves _ _ _ Hc) as Hp.
  pose proof (round_summary _ _ _ Hc)
    as (rest & worst & fw & best & p1 & p2 & cs & f & first & f0 & H).
  cbn zeta in H.
  destruct H as (_ & Hperm & Hsorted & Hfit & Hbest & Hhist & _ & _ & _ & _ & Hw'
                 & Hfw & Hpool' & _).
  set (h := heap (st_world s)) in *.
  assert (forall c, c ∈ gene_pool s -> fit_le h best c) as Hleast.
  { intros c Hin. eapply sorted_head_least; [done..|by rewrite Hperm]. }
  assert (best ∈ rest ++ [worst]) as Hbin by by apply head_Some_elem_of.
  split.
  - intros g c1 c2. rewrite Hhist.
    destruct (decide (S g < length (fittest s))%nat) as [Hlt|Hge].
    + rewrite !lookup_app_l by lia. intros H1 H2.
      eapply preserves_fit_le; [done|]. by eapply Hmono.
    + destruct (decide (S g = length (fittest s))) as [Heq|Hne].
      * rewrite lookup_app_l by lia. rewrite lookup_app_r by lia.
        replace (S g - length (fittest s))%nat with 0%nat by lia.
        intros H1 [= <-].
        eapply preserves_fit_le; [done|].
        assert (last (fittest s) = Some c1) as Hl.
        { rewrite last_lookup. rewrite <- H1. f_equal. lia. }
        destruct (Hlast _ Hl) as (c' & Hin & Hle).
        eapply fit_le_trans; [|done]. by apply Hleast.
      * intros _ H2. apply lookup_lt_Some in H2. rewrite length_app in H2.
        simpl in H2. lia.
  - intros c. rewrite Hhist, last_snoc. intros [= <-].
    assert (fit_le h best best) as Hbb by (apply Hleast; by rewrite <- Hperm).
    rewrite Hpool'.
    destruct rest as [|x rest'].
    + simpl in Hbest. injection Hbest as <-.
      destruct (Z.ltb_spec f fw) as [Hlt|Hge].
      * exists (child_loc h cs). split; [by apply list_elem_of_singleton|].
        exists f, fw. rewrite Hw'. unfold advance. cbn [heap].
        split_and!; [apply with_child_fitness| |lia].
        eapply preserves_fitness; [apply with_child_preserves|done].
      * exists worst. split; [by apply list_elem_of_singleton|].
        by eapply preserves_fit_le.
    + simpl in Hbest. injection Hbest as <-.
      exists x. split; [apply elem_of_cons; by left|].
      by eapply preserves_fit_le.
Qed.

Lemma history_ok_reaches target s s' :
  reaches target s s' -> history_ok s -> history_ok s'.
Proof.
  induction 1 as [s|s s1 s2 Hstep _ IH|s s1 Hstep]; intros Hok.
  - done.
  - apply IH. eapply history_ok_round; [|done]. by left.
  - eapply history_ok_round; [|done]. by right.
Qed.

(** C7. Along any run that starts with an empty history, each entry of the
    history has a fitness that is at most the one of the entry before it. *)
Theorem history_non_increasing target s0 s g c1 c2 :
  fittest s0 = [] ->
  reaches target s0 s ->
  fittest s !! g = Some c1 ->
  fittest s !! S g = Some c2 ->
  exists f1 f2,
    fitness_of (heap (st_world s)) c1 = Some f1 /\
    fitness_of (heap (st_world s)) c2 = Some f2 /\
    f2 <= f1.
Proof.
  intros Hempty Hreach H1 H2.
  assert (history_ok s0) as Hok0.
  { split; rewrite Hempty; [intros ? ? ? [=]|intros ? [=]]. }
  destruct (history_ok_reaches _ _ _ Hreach Hok0) as [Hmono _].
  destruct (Hmono _ _ _ H1 H2) as (f2 & f1 & Hf2 & Hf1 & Hle).
  eauto.
Qed.

(** ** The starting pool *)

Lemma py_index_in_range {A} (l : list A) i :
  0 <= i < Z.of_nat (length l) -> exists x, py_index l i = Ok x /\ x ∈ l.
Proof.
  intros H.
  destruct (lookup_lt_is_Some_2 l (Z.to_nat i)) as [x Hx]; [lia|].
  exists x. split; [|by eapply list_elem_of_lookup_2].
  rewrite <- (Z2Nat.id i) by lia. by apply py_index_nat.
Qed.

Lemma choice_total {A} (seq : list A) w :
  seq <> [] ->
  exists x, choice seq w = Ok (x, advance w 1) /\ x ∈ seq.
Proof.
  intros Hne. unfold choice. rewrite bind_unfold. unfold draw.
  destruct seq as [|y seq]; [done|].
  set (v := tape (rand w) (cursor (rand w))).
  destruct (py_index_in_range (y :: seq) (v mod Z.of_nat (length (y :: seq))))
    as (x & Hx & Hin).
  { apply Z.mod_pos_bound. simpl. lia. }
  exists x. rewrite Hx. done.
Qed.

Lemma random_dna_total n : forall w,
  exists cs w',
    random_dna n w = Ok (cs, w') /\ heap w' = heap w /\
    length cs = n /\ Forall (fun c => c ∈ GENES) cs.
Proof.
  induction n as [|n IH]; intros w; simpl.
  - exists [], w. by split_and!.
  - destruct (choice_total GENES w) as (c & Hc & Hin); [done|].
    destruct (IH (advance w 1)) as (cs & w' & Hcs & Hh & Hlen & Hall).
    exists (c :: cs), w'. rewrite bind_unfold, Hc, bind_unfold, Hcs.
    split_and!; [done|by rewrite Hh|by simpl; rewrite Hlen|by constructor].
Qed.

Lemma with_child_candidate_ok target h cs :
  length cs = length target ->
  candidate_ok target (with_child h cs (fitness_sum cs target)) (child_loc h cs).
Proof.
  intros Hlen. exists (fresh (dom h)), cs.
  by rewrite with_child_lookup, with_child_lookup_dna.
Qed.

Lemma create_pool_total target n : forall pool w,
  exists new w',
    create_pool n target pool w = Ok (pool ++ new, w') /\
    length new = n /\
    preserves (heap w) (heap w') /\
    Forall (candidate_ok target (heap w')) new.
Proof.
  induction n as [|n IH]; intros pool w; simpl.
  - exists [], w. rewrite app_nil_r. split_and!; [done|done|apply preserves_refl|constructor].
  - destruct (random_dna_total (length target) w) as (cs & w1 & Hcs & Hh & Hlen & _).
    rewrite bind_unfold, Hcs.
    rewrite bind_unfold. unfold alloc at 1. rewrite Hh.
    rewrite bind_unfold, (read_list_eq _ _ cs) by (cbn; apply lookup_insert_eq).
    rewrite bind_unfold, calc_fitness_le by lia. cbn [lift].
    rewrite bind_unfold. unfold alloc at 1. cbn [heap rand].
    fold (child_loc (heap w) cs).
    change (<[child_loc (heap w) cs := ODict (fresh (dom (heap w))) (fitness_sum cs target)]>
              (<[fresh (dom (heap w)) := OList cs]> (heap w)))
      with (with_child (heap w) cs (fitness_sum cs target)).
    set (w2 := World (with_child (heap w) cs (fitness_sum cs target)) (rand w1)).
    destruct (IH (pool ++ [child_loc (heap w) cs]) w2) as (new & w' & Hrec & Hn & Hp & Hall).
    exists (child_loc (heap w) cs :: new), w'.
    rewrite Hrec, <- app_assoc. split_and!.
    + done.
    + simpl. by rewrite Hn.
    + eapply preserves_trans; [|done]. apply with_child_preserves.
    + constructor; [|done].
      eapply preserves_candidate_ok; [done|]. by apply with_child_candidate_ok.
Qed.

Lemma init_total population target r :
  exists s0,
    init population target r = Ok s0 /\
    length (gene_pool s0) = population /\
    pool_ok target s0 /\
    fittest s0 = [] /\ generation s0 = 1.
Proof.
  unfold init.
  destruct (create_pool_total target population [] (World ∅ r))
    as (new & w' & H & Hlen & _ & Hall).
  rewrite H. eexists. split; [done|]. by split_and!.
Qed.

(** ** The candidates of the pool stay well formed *)

Lemma reproduce_spec_length gA gB i0 j0 pos delta final :
  length gA = length gB ->
  (i0 < length gA)%nat -> (j0 < length gA)%nat ->
  reproduce_spec gA gB i0 j0 pos delta = Some final ->
  length final = length gA.
Proof.
  intros Hlen Hi Hj. unfold reproduce_spec.
  destruct (_ !! pos) as [c|]; [|done].
  destruct (chr _) as [c'|]; [|done]. intros [= <-].
  rewrite length_insert. apply crossover_length; lia.
Qed.

Lemma mutate_candidate_ok target p1 p2 w child w' :
  candidate_ok target (heap w) p1 ->
  candidate_ok target (heap w) p2 ->
  mutate p1 p2 target w = Ok (child, w') ->
  candidate_ok target (heap w') child.
Proof.
  intros (d1 & gA & Hp1 & Hd1 & HlA) (d2 & gB & Hp2 & Hd2 & HlB).
  rewrite (mutate_eq target w p1 p2 _ _ _ _ gA gB Hp1 Hd1 Hp2 Hd2) by lia.
  cbn zeta.
  destruct (reproduce_spec _ _ _ _ _ _) as [final|] eqn:Hspec; [|done].
  assert (length final = length gA) as Hlf.
  { assert (0 < Z.of_nat (length gA)).
    { destruct gA; [|simpl; lia].
      destruct gB; [|simpl in *; lia].
      unfold reproduce_spec, crossover in Hspec.
      by rewrite !drop_nil, !take_nil in Hspec. }
    eapply reproduce_spec_length; [..|exact Hspec]; [lia| |].
    - pose proof (Z.mod_pos_bound
        (tape (rand w) (0 + cursor (rand w))) (Z.of_nat (length gA))). lia.
    - pose proof (Z.mod_pos_bound
        (tape (rand w) (1 + cursor (rand w))) (Z.of_nat (length gA))). lia. }
  rewrite calc_fitness_le by lia.
  intros [= <- <-]. unfold advance. cbn [heap].
  apply with_child_candidate_ok. lia.
Qed.

Lemma pool_ok_round target s s' :
  completes target s s' -> pool_ok target s -> pool_ok target s'.
Proof.
  intros Hc Hok.
  pose proof (completes_preserves _ _ _ Hc) as Hp.
  pose proof (round_summary _ _ _ Hc)
    as (rest & worst & fw & best & p1 & p2 & cs & f & first & f0 & H).
  cbn zeta in H.
  destruct H as (_ & Hperm & _ & _ & _ & _ & Hp1 & Hp2 & Hmut & _ & _ & _ & Hpool' & _).
  unfold pool_ok in *. rewrite <- Hperm in Hok.
  assert (candidate_ok target (heap (st_world s')) (child_loc (heap (st_world s)) cs)) as Hchild.
  { eapply mutate_candidate_ok; [..|exact Hmut]; unfold advance; cbn [heap];
      eapply Forall_forall; try exact Hok; by rewrite Hperm. }
  rewrite Hpool'.
  apply Forall_app in Hok as [Hrest Hworst].
  apply Forall_app. split.
  - eapply Forall_impl; [exact Hrest|]. intros c. by apply preserves_candidate_ok.
  - constructor; [|constructor].
    destruct (f <? fw); [done|].
    apply Forall_cons in Hworst as [Hworst _]. by eapply preserves_candidate_ok.
Qed.

Lemma reaches_invariant target (P : state -> Prop) :
  (forall s s', completes target s s' -> P s -> P s') ->
  forall s s', reaches target s s' -> P s -> P s'.
Proof.
  intros Hstep s s' Hr.
  induction Hr as [s|s s1 s2 Hs _ IH|s s1 Hs]; intros HP.
  - done.
  - apply IH. eapply Hstep; [|done]. by left.
  - eapply Hstep; [|done]. by right.
Qed.

Lemma rounds_reaches target n : forall s s',
  rounds n target s = Some s' -> reaches target s s'.
Proof.
  induction n as [|n IH]; intros s s'; simpl.
  - intros [= <-]. constructor.
  - destruct (step target s) as [s1| |] eqn:Hs; try done.
    intros H. eapply reaches_continue; [done|]. by apply IH.
Qed.

Lemma run_reaches target fuel : forall s s',
  run fuel target s = Done s' -> reaches target s s'.
Proof.
  induction fuel as [|n IH]; intros s s'; simpl; [done|].
  destruct (step target s) as [s1|s1|] eqn:Hs; try done.
  - intros H. eapply reaches_continue; [done|]. by apply IH.
  - intros [= <-]. by apply reaches_break.
Qed.

Lemma candidate_ok_genome target h c :
  candidate_ok target h c ->
  exists g, genome_of h c = Some g /\ length g = length target /\
            fitness_of h c = Some (fitness_sum g target).
Proof.
  intros (d & cs & Hc & Hd & Hlen). exists cs.
  unfold genome_of, fitness_of. by rewrite Hc, Hd.
Qed.

(** ** No update in place *)

Lemma preserves_genome h h' c g :
  preserves h h' -> genome_of h c = Some g -> genome_of h' c = Some g.
Proof.
  intros Hp H. unfold genome_of in *.
  destruct (h !! c) as [[|d f]|] eqn:Hc; try done.
  destruct (h !! d) as [[cs|]|] eqn:Hd; try done.
  rewrite (Hp c), Hc, (Hp d), Hd; [done| |]; apply elem_of_dom; eauto.
Qed.

(** C5. [mutate] leaves every object of the store as it was, so both
    parents have the genome and the fitness they had, and what it returns is
    a new candidate.  A whole round does the same: no object of the store is
    changed, and a candidate of the new pool is either one of the old pool or
    a location that was not in the store, so the replacement puts a new
    candidate in and changes none.  The creation of the starting pool changes
    no object either. *)
Theorem no_update_in_place target :
  (forall p1 p2 w child w',
     mutate p1 p2 target w = Ok (child, w') ->
     preserves (heap w) (heap w') /\
     (child ∉ dom (heap w)) /\
     is_Some (genome_of (heap w) p1) /\
     (forall c g, genome_of (heap w) c = Some g -> genome_of (heap w') c = Some g) /\
     (forall c f, fitness_of (heap w) c = Some f -> fitness_of (heap w') c = Some f)) /\
  (forall s s',
     completes target s s' ->
     preserves (heap (st_world s)) (heap (st_world s')) /\
     (forall c, c ∈ gene_pool s' -> c ∈ gene_pool s \/ c ∉ dom (heap (st_world s))) /\
     (forall c g f, c ∈ gene_pool s ->
        genome_of (heap (st_world s)) c = Some g ->
        fitness_of (heap (st_world s)) c = Some f ->
        genome_of (heap (st_world s')) c = Some g /\
        fitness_of (heap (st_world s')) c = Some f)) /\
  (forall population pool w pool' w',
     create_pool population target pool w = Ok (pool', w') ->
     preserves (heap w) (heap w')).
Proof.
  split_and!.
  - intros p1 p2 w child w' H.
    assert (is_Some (genome_of (heap w) p1)) as Hp1.
    { unfold mutate in H.
      apply bind_Ok in H as (d1 & w1 & Hd1 & H). apply get_dna_Ok in Hd1 as [-> [f1 Hd1]].
      apply bind_Ok in H as (l1 & w1 & Hl1 & H). apply read_list_Ok in Hl1 as [-> Hl1].
      unfold genome_of. rewrite Hd1, Hl1. eauto. }
    apply mutate_Ok' in H as (cs & f & Hcalc & -> & ->).
    unfold advance. cbn [heap].
    pose proof (with_child_preserves (heap w) cs f) as Hp.
    split_and!; [done|apply child_loc_fresh|done|..].
    + intros c g. by apply preserves_genome.
    + intros c g. by apply preserves_fitness.
  - intros s s' Hc.
    pose proof (completes_preserves _ _ _ Hc) as Hp.
    split_and!; [done|..].
    + pose proof (round_summary _ _ _ Hc)
        as (rest & worst & fw & best & p1 & p2 & cs & f & first & f0 & H).
      cbn zeta in H.
      destruct H as (_ & Hperm & _ & _ & _ & _ & _ & _ & _ & _ & _ & _ & Hpool' & _).
      intros c. rewrite Hpool', <- Hperm, !elem_of_app, !list_elem_of_singleton.
      intros [Hin| ->]; [by left; left|].
      destruct (f <? fw); [right; apply child_loc_fresh|left; by right].
    + intros c g f _ Hg Hf. split; [by eapply preserves_genome|by eapply preserves_fitness].
  - intros population pool w pool' w' H.
    destruct (create_pool_total target population pool w) as (new & w1 & H1 & _ & Hp & _).
    rewrite H1 in H. by injection H as _ <-.
Qed.

(** ** The two invariants of the population *)

(** C6. The program's starting pool holds [population] candidates whose
    genomes have the length of the target, and so does the pool of every
    state that the loop reaches from it. *)
Theorem population_invariant population target r :
  exists s0,
    init population target r = Ok s0 /\
    forall s, reaches target s0 s ->
      length (gene_pool s) = population /\
      Forall (fun c => exists g, genome_of (heap (st_world s)) c = Some g /\
                                 length g = length target) (gene_pool s).
Proof.
  destruct (init_total population target r) as (s0 & Hinit & Hlen & Hok & _).
  exists s0. split; [done|]. intros s Hr. split.
  - apply (reaches_invariant target
             (fun s => length (gene_pool s) = population)) with s0; [|done|done].
    intros s1 s2 Hc H. by rewrite (completes_length _ _ _ Hc).
  - assert (pool_ok target s) as Hoks.
    { apply (reaches_invariant target (pool_ok target)) with s0; [|done|done].
      apply pool_ok_round. }
    eapply Forall_impl; [exact Hoks|]. intros c Hc. simpl.
    destruct (candidate_ok_genome _ _ _ Hc) as (g & Hg & Hl & _). eauto.
Qed.

(** ** The reproduction operator *)

(** Position by position: inside [i, j) the crossover has the character of
    [b], outside the one of [a]. *)
Lemma crossover_lookup a b i j k :
  length a = length b -> (i <= j)%nat -> (j <= length a)%nat ->
  crossover a b i j !! k =
    if decide (i <= k < j)%nat then b !! k else a !! k.
Proof.
  intros Hab Hij Hj. unfold crossover.
  destruct (decide (k < i)%nat) as [Hki|Hki].
  - rewrite lookup_app_l by (rewrite length_take; lia).
    rewrite lookup_take_lt by done. case_decide; [lia|done].
  - rewrite lookup_app_r by (rewrite length_take; lia).
    rewrite length_take, Nat.min_l by lia.
    destruct (decide (k < j)%nat) as [Hkj|Hkj].
    + rewrite lookup_app_l by (rewrite length_take, length_drop; lia).
      rewrite lookup_take_lt by lia. rewrite lookup_drop.
      case_decide; [|lia]. f_equal. lia.
    + rewrite lookup_app_r by (rewrite length_take, length_drop; lia).
      rewrite length_take, length_drop, Nat.min_l by lia.
      rewrite lookup_drop. case_decide; [lia|]. f_equal. lia.
Qed.

(** C4, as the code has it.  The parents are two candidates of the store
    with genomes of one length, not empty and not longer than the target;
    the four draws are the next four cells of the tape.  The child's genome
    starts as parent 1's; the two drawn indices are put in order and the
    positions from the first up to, not including, the second are
    overwritten with parent 2's; the character [c] at the drawn position is
    replaced by the one whose ordinal is [ord c + delta], with [delta] in
    -1..1.  When that ordinal is one of 0..255 [mutate] returns a new
    candidate with this genome and the fitness of this genome against the
    target; when it is not, there is no such character and [mutate] raises
    [ValueError]. *)
Theorem mutate_builds_child target w p1 p2 d1 f1 d2 f2 gA gB :
  heap w !! p1 = Some (ODict d1 f1) -> heap w !! d1 = Some (OList gA) ->
  heap w !! p2 = Some (ODict d2 f2) -> heap w !! d2 = Some (OList gB) ->
  length gA = length gB -> gA <> [] -> (length gA <= length target)%nat ->
  let n := Z.of_nat (length gA) in
  let tp i := tape (rand w) (i + cursor (rand w))%nat in
  let i0 := Z.to_nat (tp 0%nat mod n) in
  let j0 := Z.to_nat (tp 1%nat mod n) in
  let first := Nat.min i0 j0 in
  let second := Nat.max i0 j0 in
  let crossed := take first gA ++ take (second - first) (drop first gB) ++ drop second gA in
  let pos := Z.to_nat (tp 2%nat mod n) in
  let delta := -1 + tp 3%nat mod 3 in
  (first <= second < length gA)%nat /\ (pos < length gA)%nat /\ -1 <= delta <= 1 /\
  (forall k, crossed !! k = if decide (first <= k < second)%nat then gB !! k else gA !! k) /\
  exists c, crossed !! pos = Some c /\
    if decide (0 <= ord c + delta < 256) then
      exists c' child w',
        mutate p1 p2 target w = Ok (child, w') /\
        ord c' = ord c + delta /\
        genome_of (heap w') child = Some (<[pos := c']> crossed) /\
        fitness_of (heap w') child = Some (fitness_sum (<[pos := c']> crossed) target) /\
        (child ∉ dom (heap w)) /\
        preserves (heap w) (heap w') /\
        rand w' = Rng (tape (rand w)) (4 + cursor (rand w))
    else mutate p1 p2 target w = Raise ValueError.
Proof.
  intros Hp1 Hd1 Hp2 Hd2 Hlen Hne Htarget n tp i0 j0 first second crossed pos delta.
  assert (0 < n) as Hn by (subst n; destruct gA; [done|simpl; lia]).
  pose proof (Z.mod_pos_bound (tp 0%nat) n Hn) as Hi0.
  pose proof (Z.mod_pos_bound (tp 1%nat) n Hn) as Hj0.
  pose proof (Z.mod_pos_bound (tp 2%nat) n Hn) as Hpos.
  pose proof (Z.mod_pos_bound (tp 3%nat) 3 eq_refl) as Hdelta.
  assert (first <= second < length gA)%nat as Hfs by (subst first second i0 j0 n; lia).
  assert (pos < length gA)%nat as Hposn by (subst pos n; lia).
  fold (crossover gA gB first second) in crossed.
  assert (length crossed = length gA) as Hcl by (apply crossover_length; lia).
  split_and!; [lia..| |].
  { intros k. apply crossover_lookup; lia. }
  destruct (lookup_lt_is_Some_2 crossed pos) as [c Hc]; [lia|].
  exists c. split; [done|].
  pose proof (mutate_eq target w p1 p2 _ _ _ _ gA gB Hp1 Hd1 Hp2 Hd2 Hlen) as Heq.
  cbn zeta in Heq. fold n tp i0 j0 pos delta in Heq.
  unfold reproduce_spec in Heq. fold first second crossed in Heq. rewrite Hc in Heq.
  case_decide as Hrange.
  - destruct (chr_in_range _ Hrange) as (c' & Hchr & Hord).
    rewrite Hchr in Heq.
    rewrite calc_fitness_le in Heq by (rewrite length_insert; lia).
    exists c'. eexists _, _. split; [exact Heq|].
    unfold advance. cbn [heap rand tape cursor].
    split_and!; [done| | | | |done].
    + apply with_child_genome.
    + apply with_child_fitness.
    + apply child_loc_fresh.
    + apply with_child_preserves.
  - rewrite chr_out_of_range in Heq by lia. done.
Qed.

(** C4 as stated fails: two parents with genomes of one length, four
    draws, and no child.  The character to nudge has the ordinal 0 and the
    drawn perturbation is -1. *)
Lemma mutate_raises_on_nul :
  genome_of (heap nul_world) 2 = Some [nul; nul] /\
  genome_of (heap nul_world) 4 = Some [nul; nul] /\
  mutate 2 4 [nul; nul] nul_world = Raise ValueError.
Proof. vm_compute. done. Qed.

Lemma mutate_builds_child_witness :
  exists child w',
    mutate 2 4 (list_ascii_of_string "Hello") demo_world = Ok (child, w') /\
    genome_of (heap w') child = Some (list_ascii_of_string "Hanlx") /\
    fitness_of (heap w') child = Some (16 + 4 + 81).
Proof.
  destruct (mutate_builds_child (list_ascii_of_string "Hello") demo_world
      2 4 1 _ 3 _ (list_ascii_of_string "Jelly") (list_ascii_of_string "Hands")
      eq_refl eq_refl eq_refl eq_refl eq_refl)
    as (_ & _ & _ & _ & c & Hc & H).
  - done.
  - simpl. lia.
  - vm_compute in Hc. injection Hc as <-.
    destruct (decide _) as [Hr|Hr] in H; [|exfalso; apply Hr; vm_compute; split; discriminate].
    destruct H as (c' & child & w' & Hm & Hord & Hg & Hf & _).
    assert (c' = "x"%char) as -> by (apply ord_inj; rewrite Hord; reflexivity).
    exists child, w'. split; [exact Hm|]. split; [exact Hg|exact Hf].
Defined.

Lemma crossover_GENES gA gB i j :
  Forall (fun x => x ∈ GENES) gA -> Forall (fun x => x ∈ GENES) gB ->
  Forall (fun x => x ∈ GENES) (crossover gA gB i j).
Proof.
  intros HA HB. unfold crossover.
  repeat apply Forall_app_2;
    auto using Forall_take, Forall_drop.
Qed.

(** The child of two parents written in [GENES]: always returned, new to
    the store, and its genome is the crossover with the drawn character
    moved by exactly the drawn perturbation. *)
Lemma mutate_in_GENES target w p1 p2 d1 f1 d2 f2 gA gB :
  heap w !! p1 = Some (ODict d1 f1) -> heap w !! d1 = Some (OList gA) ->
  heap w !! p2 = Some (ODict d2 f2) -> heap w !! d2 = Some (OList gB) ->
  length gA = length gB -> gA <> [] -> (length gA <= length target)%nat ->
  Forall (fun x => x ∈ GENES) gA -> Forall (fun x => x ∈ GENES) gB ->
  let n := Z.of_nat (length gA) in
  let tp i := tape (rand w) (i + cursor (rand w))%nat in
  let i0 := Z.to_nat (tp 0%nat mod n) in
  let j0 := Z.to_nat (tp 1%nat mod n) in
  let crossed := crossover gA gB (Nat.min i0 j0) (Nat.max i0 j0) in
  let pos := Z.to_nat (tp 2%nat mod n) in
  let delta := -1 + tp 3%nat mod 3 in
  exists c c' child w',
    crossed !! pos = Some c /\ c ∈ GENES /\
    Forall (fun x => x ∈ GENES) crossed /\
    mutate p1 p2 target w = Ok (child, w') /\
    (child ∉ dom (heap w)) /\
    genome_of (heap w') child = Some (<[pos := c']> crossed) /\
    ord c' = ord c + delta /\
    (c = "z"%char -> delta = 1 ->
       (c' ∉ GENES) /\ Forall (fun x => ord x < ord c') GENES) /\
    (c = " "%char -> delta = -1 ->
       (c' ∉ GENES) /\ Forall (fun x => ord c' < ord x) GENES).
Proof.
  intros Hp1 Hd1 Hp2 Hd2 Hlen Hne Htarget HA HB n tp i0 j0 crossed pos delta.
  assert (0 < n) as Hn by (subst n; destruct gA; [done|simpl; lia]).
  pose proof (Z.mod_pos_bound (tp 0%nat) n Hn) as Hi0.
  pose proof (Z.mod_pos_bound (tp 1%nat) n Hn) as Hj0.
  pose proof (Z.mod_pos_bound (tp 2%nat) n Hn) as Hpos.
  pose proof (Z.mod_pos_bound (tp 3%nat) 3 eq_refl) as Hdelta.
  assert (length crossed = length gA) as Hcl.
  { apply crossover_length; subst i0 j0 n; lia. }
  assert (Forall (fun x => x ∈ GENES) crossed) as Hcr by by apply crossover_GENES.
  destruct (lookup_lt_is_Some_2 crossed pos) as [c Hc]; [subst pos n; lia|].
  assert (c ∈ GENES) as HcG.
  { eapply Forall_forall in Hcr; [exact Hcr|]. by eapply list_elem_of_lookup_2. }
  assert (32 <= ord c <= 122) as Hrange.
  { pose proof GENES_range as HG. by eapply Forall_forall in HG. }
  pose proof (mutate_eq target w p1 p2 _ _ _ _ gA gB Hp1 Hd1 Hp2 Hd2 Hlen) as Heq.
  cbn zeta in Heq. fold n tp i0 j0 pos delta in Heq.
  unfold reproduce_spec in Heq. fold crossed in Heq. rewrite Hc in Heq.
  destruct (chr_in_range (ord c + delta)) as (c' & Hchr & Hord); [subst delta; lia|].
  rewrite Hchr in Heq.
  rewrite calc_fitness_le in Heq by (rewrite length_insert; lia).
  exists c, c'. eexists _, _.
  split_and!; [done|done|done|exact Heq| | |done| |].
  - apply child_loc_fresh.
  - unfold advance. cbn [heap]. apply with_child_genome.
  - intros -> Hd. rewrite Hd in Hord. change (ord "z") with 122 in Hord.
    assert (c' = "{"%char) as -> by (apply ord_inj; rewrite Hord; reflexivity).
    split; compute_done.
  - intros -> Hd. rewrite Hd in Hord. change (ord " ") with 32 in Hord.
    assert (c' = "031"%char) as -> by (apply ord_inj; rewrite Hord; reflexivity).
    split; compute_done.
Qed.

(** C9. The point mutation neither wraps nor clamps.  For every pair of
    parents written in [GENES], with genomes of one length, not empty and
    not longer than the target, and for every outcome of the four draws,
    [mutate] returns a candidate that is new to the store; its genome is the
    crossover of the parents' genomes, all of it in [GENES], with the
    character [c] at the drawn position replaced by the character of the
    ordinal [ord c + delta] exactly.  When [c] is 'z', the top of [GENES],
    and [delta] is +1, that character is not in [GENES] and lies above every
    character of [GENES]; when [c] is the space, the bottom of [GENES], and
    [delta] is -1, it is not in [GENES] and lies below every character of
    [GENES].  Such parents and draws exist: the parents "fuzz" and "jazz"
    of [fuzz_world] with the draws 0, 0, 3 and +1 give a new candidate "fuz{",
    which is "fuzz" with the character at position 3 replaced by the one of
    the ordinal [ord 'z' + 1]. *)
Theorem mutation_leaves_alphabet :
  (forall target w p1 p2 d1 f1 d2 f2 gA gB,
     heap w !! p1 = Some (ODict d1 f1) -> heap w !! d1 = Some (OList gA) ->
     heap w !! p2 = Some (ODict d2 f2) -> heap w !! d2 = Some (OList gB) ->
     length gA = length gB -> gA <> [] -> (length gA <= length target)%nat ->
     Forall (fun x => x ∈ GENES) gA -> Forall (fun x => x ∈ GENES) gB ->
     let n := Z.of_nat (length gA) in
     let tp i := tape (rand w) (i + cursor (rand w))%nat in
     let i0 := Z.to_nat (tp 0%nat mod n) in
     let j0 := Z.to_nat (tp 1%nat mod n) in
     let crossed := crossover gA gB (Nat.min i0 j0) (Nat.max i0 j0) in
     let pos := Z.to_nat (tp 2%nat mod n) in
     let delta := -1 + tp 3%nat mod 3 in
     exists c c' child w',
       crossed !! pos = Some c /\ c ∈ GENES /\
       Forall (fun x => x ∈ GENES) crossed /\
       mutate p1 p2 target w = Ok (child, w') /\
       (child ∉ dom (heap w)) /\
       genome_of (heap w') child = Some (<[pos := c']> crossed) /\
       ord c' = ord c + delta /\
       (c = "z"%char -> delta = 1 ->
          (c' ∉ GENES) /\ Forall (fun x => ord x < ord c') GENES) /\
       (c = " "%char -> delta = -1 ->
          (c' ∉ GENES) /\ Forall (fun x => ord c' < ord x) GENES)) /\
  (exists child w' c',
     genome_of (heap fuzz_world) 2 = Some (list_ascii_of_string "fuzz") /\
     genome_of (heap fuzz_world) 4 = Some (list_ascii_of_string "jazz") /\
     Forall (fun x => x ∈ GENES) (list_ascii_of_string "fuzz") /\
     Forall (fun x => x ∈ GENES) (list_ascii_of_string "jazz") /\
     mutate 2 4 (list_ascii_of_string "buzz") fuzz_world = Ok (child, w') /\
     (child ∉ dom (heap fuzz_world)) /\
     genome_of (heap w') child = Some (<[3%nat := c']> (list_ascii_of_string "fuzz")) /\
     genome_of (heap w') child = Some (list_ascii_of_string "fuz{") /\
     ord c' = ord "z" + 1 /\
     (c' ∉ GENES) /\ Forall (fun x => ord x < ord c') GENES).
Proof.
  split; [exact mutate_in_GENES|].
  destruct (mutate_in_GENES (list_ascii_of_string "buzz") fuzz_world 2 4 1 _ 3 _
              (list_ascii_of_string "fuzz") (list_ascii_of_string "jazz")
              eq_refl eq_refl eq_refl eq_refl eq_refl)
    as (c & c' & child & w' & Hc & _ & _ & Hm & Hnew & Hg & Hord & Hz & _).
  - done.
  - simpl. lia.
  - compute_done.
  - compute_done.
  - vm_compute in Hc. injection Hc as <-.
    destruct Hz as [Hout Habove]; [done|reflexivity|].
    exists child, w', c'. split_and!; try done; try compute_done.
    rewrite Hg. f_equal.
    assert (c' = "{"%char) as -> by (apply ord_inj; rewrite Hord; reflexivity).
    reflexivity.
Qed.

Lemma mutation_leaves_alphabet_witness :
  exists child w',
    mutate 2 4 (list_ascii_of_string "buzz") fuzz_world = Ok (child, w') /\
    (child ∉ dom (heap fuzz_world)) /\
    genome_of (heap w') child = Some (list_ascii_of_string "fuz{") /\
    ("{"%char ∉ GENES) /\ Forall (fun x => ord x < ord "{") GENES.
Proof.
  destruct mutation_leaves_alphabet as [Hgen _].
  destruct (Hgen (list_ascii_of_string "buzz") fuzz_world 2%positive 4%positive
              1%positive _ 3%positive _
              (list_ascii_of_string "fuzz") (list_ascii_of_string "jazz")
              eq_refl eq_refl eq_refl eq_refl eq_refl)
    as (c & c' & child & w' & Hc & _ & _ & Hm & Hnew & Hg & Hord & Hz & _).
  - done.
  - simpl. lia.
  - compute_done.
  - compute_done.
  - vm_compute in Hc. injection Hc as <-.
    destruct Hz as [Hout Habove]; [done|reflexivity|].
    assert (c' = "{"%char) as -> by (apply ord_inj; rewrite Hord; reflexivity).
    exists child, w'. split_and!; done.
Defined.

(** ** The end of the loop *)

Lemma best_fitness_head s c f :
  head (gene_pool s) = Some c -> fitness_of (heap (st_world s)) c = Some f ->
  best_fitness s = Some f.
Proof. unfold best_fitness. destruct (gene_pool s); [done|]. by intros [= ->]. Qed.

Lemma round_best_fitness target s s' :
  completes target s s' ->
  exists f0, best_fitness s' = Some f0 /\
    ((step target s = Break s' /\ f0 = 0 /\ generation s' = generation s) \/
     (step target s = Continue s' /\ f0 <> 0 /\ generation s' = generation s + 1)).
Proof.
  intros (rest & worst & fw & best & p1 & p2 & cs & f & first & f0 & H)%round_summary.
  cbn zeta in H.
  destruct H as (_ & _ & _ & _ & _ & _ & _ & _ & _ & _ & _ & _ & _ & Hfirst & Hf0 & Hb).
  exists f0. split; [by eapply best_fitness_head|done].
Qed.

Lemma run_Done target fuel : forall s s',
  run fuel target s = Done s' ->
  exists s1, reaches target s s1 /\ step target s1 = Break s'.
Proof.
  induction fuel as [|n IH]; intros s s'; simpl; [done|].
  destruct (step target s) as [s1|s1|] eqn:Hs; try done.
  - intros (s2 & Hr & Hb)%IH. exists s2. split; [|done]. by eapply reaches_continue.
  - intros [= <-]. exists s. split; [constructor|done].
Qed.

Lemma random_parent_singleton c w : random_parent [c] w = Ok (c, advance w 1).
Proof.
  unfold random_parent. rewrite bind_unfold, randint_eq by (simpl; lia).
  cbn [length]. replace (Z.of_nat 1 - 1 - 0 + 1) with 1 by lia.
  rewrite Z.mod_1_r. by rewrite py_index_0.
Qed.

Lemma stuck_round s :
  stuck s ->
  exists s', step stuck_target s = Continue s' /\ stuck s' /\
             generation s' = generation s + 1.
Proof.
  destruct s as [[h [tp k]] pool hist g]. unfold stuck. cbn [gene_pool st_world heap rand tape].
  intros (-> & H2 & H1 & ->).
  set (w := World h (Rng (fun _ => 1) k)).
  assert (fitness_of h 2 = Some 1) as Hf2 by (unfold fitness_of; by rewrite H2).
  unfold step. cbn [gene_pool fittest st_world generation]. fold w.
  assert (loop_body stuck_target [2%positive] hist w
          = Ok ([2%positive], hist ++ [2%positive], false,
                advance (World (with_child h ["a"%char] 1) (rand w)) 6)) as ->.
  { unfold loop_body.
    rewrite bind_unfold. unfold sort_pool.
    rewrite bind_unfold, (mapM_get_fitness_eq [2%positive] w [1]) by (repeat constructor; done).
    cbn [ret zip zip_with sort_by_key foldr insert_by_key map snd].
    rewrite bind_unfold, py_index_0. cbn [lift].
    rewrite bind_unfold, random_parent_singleton.
    rewrite bind_unfold, random_parent_singleton.
    rewrite bind_unfold.
    rewrite (mutate_eq stuck_target _ 2 2 1 1 1 1 ["a"%char] ["a"%char]) by done.
    cbn zeta. unfold advance. cbn [heap rand tape cursor length].
    change (reproduce_spec ["a"%char] ["a"%char] _ _ _ _) with (Some ["a"%char]).
    cbn iota.
    change (calc_fitness ["a"%char] stuck_target) with (Ok 1).
    cbn iota. subst w. cbn [heap rand tape cursor].
    change (<[fresh (dom (<[fresh (dom h) := OList ["a"%char]]> h)) := ODict (fresh (dom h)) 1]>
              (<[fresh (dom h) := OList ["a"%char]]> h))
      with (with_child h ["a"%char] 1).
    fold (child_loc h ["a"%char]).
    set (h' := with_child h ["a"%char] 1).
    assert (fitness_of h' 2 = Some 1) as Hf2'.
    { eapply preserves_fitness; [apply with_child_preserves|done]. }
    rewrite bind_unfold. unfold replace_worst.
    rewrite bind_unfold, (get_fitness_eq _ _ 1) by apply with_child_fitness.
    rewrite bind_unfold, py_index_last. cbn [last lift].
    rewrite bind_unfold, (get_fitness_eq _ _ 1) by done.
    change (1 <? 1) with false. cbn iota. cbn [ret].
    rewrite bind_unfold, py_index_0. cbn [lift].
    rewrite bind_unfold, (get_fitness_eq _ _ 1) by done.
    cbn [ret]. change (1 =? 0) with false.
    repeat f_equal. }
  eexists. split; [done|]. unfold advance. cbn.
  split_and!; try done.
  - rewrite (with_child_preserves h ["a"%char] 1 2%positive); [done|].
    apply elem_of_dom. eauto.
  - rewrite (with_child_preserves h ["a"%char] 1 1%positive); [done|].
    apply elem_of_dom. eauto.
Qed.

Lemma stuck_rounds n : forall s,
  stuck s ->
  exists s', rounds n stuck_target s = Some s' /\ stuck s' /\
             generation s' = generation s + Z.of_nat n.
Proof.
  induction n as [|n IH]; intros s Hs.
  - exists s. simpl. split_and!; [done|done|lia].
  - destruct (stuck_round s Hs) as (s1 & Hstep & Hs1 & Hg1).
    destruct (IH s1 Hs1) as (s' & Hr & Hs' & Hg').
    exists s'. simpl. rewrite Hstep. split_and!; [done|done|lia].
Qed.

(** ** A round of a well-formed state does not raise *)

Lemma sort_pool_total pool w :
  Forall (fun c => is_Some (fitness_of (heap w) c)) pool ->
  exists sorted, sort_pool pool w = Ok (sorted, w) /\ Permutation sorted pool.
Proof.
  intros Hfit.
  assert (exists keys, Forall2 (fun c k => fitness_of (heap w) c = Some k) pool keys)
    as [keys Hkeys].
  { induction Hfit as [|c pool [k Hk] _ [keys IH]].
    - exists []. constructor.
    - exists (k :: keys). by constructor. }
  eexists. unfold sort_pool.
  rewrite bind_unfold, (mapM_get_fitness_eq _ _ _ Hkeys). split; [done|].
  rewrite sort_by_key_perm. rewrite snd_zip; [done|].
  apply Forall2_length in Hkeys. lia.
Qed.

Lemma random_parent_total pool w :
  pool <> [] ->
  exists p, random_parent pool w = Ok (p, advance w 1) /\ p ∈ pool.
Proof.
  intros Hne. unfold random_parent.
  assert (0 < Z.of_nat (length pool)) by (destruct pool; [done|simpl; lia]).
  rewrite bind_unfold, randint_eq by lia.
  set (i := 0 + _ mod _).
  destruct (py_index_in_range pool i) as (p & Hp & Hin).
  { subst i.
    pose proof (Z.mod_pos_bound (tape (rand w) (cursor (rand w)))
                  (Z.of_nat (length pool) - 1 - 0 + 1)). lia. }
  exists p. by rewrite Hp.
Qed.

(** [mutate] on two well-formed candidates and a target that is not empty
    returns a child, or raises [ValueError] because the drawn character has
    the ordinal 0 or 255. *)
Lemma mutate_outcome target p1 p2 w :
  target <> [] ->
  candidate_ok target (heap w) p1 -> candidate_ok target (heap w) p2 ->
  (exists cs f,
     mutate p1 p2 target w
     = Ok (child_loc (heap w) cs, advance (World (with_child (heap w) cs f) (rand w)) 4)) \/
  (mutate p1 p2 target w = Raise ValueError /\
   exists p g x, (p = p1 \/ p = p2) /\ genome_of (heap w) p = Some g /\ x ∈ g /\
                 (ord x = 0 \/ ord x = 255)).
Proof.
  intros Hne (d1 & gA & Hp1 & Hd1 & HlA) (d2 & gB & Hp2 & Hd2 & HlB).
  assert (0 < Z.of_nat (length gA)) as Hn.
  { destruct target; [done|]. simpl in HlA. lia. }
  rewrite (mutate_eq target w p1 p2 _ _ _ _ gA gB Hp1 Hd1 Hp2 Hd2) by lia.
  cbn zeta.
  set (i0 := Z.to_nat _). set (j0 := Z.to_nat _). set (pos := Z.to_nat _).
  set (delta := -1 + _).
  assert (i0 < length gA)%nat as Hi0.
  { subst i0. pose proof (Z.mod_pos_bound
      (tape (rand w) (0 + cursor (rand w))) _ Hn). lia. }
  assert (j0 < length gA)%nat as Hj0.
  { subst j0. pose proof (Z.mod_pos_bound
      (tape (rand w) (1 + cursor (rand w))) _ Hn). lia. }
  assert (pos < length gA)%nat as Hpos.
  { subst pos. pose proof (Z.mod_pos_bound
      (tape (rand w) (2 + cursor (rand w))) _ Hn). lia. }
  assert (-1 <= delta <= 1) as Hdelta.
  { subst delta. pose proof (Z.mod_pos_bound
      (tape (rand w) (3 + cursor (rand w))) 3 eq_refl). lia. }
  unfold reproduce_spec.
  set (crossed := crossover gA gB (Nat.min i0 j0) (Nat.max i0 j0)).
  assert (length crossed = length gA) as Hcl by (apply crossover_length; lia).
  destruct (lookup_lt_is_Some_2 crossed pos) as [c Hc]; [lia|].
  rewrite Hc.
  destruct (decide (0 <= ord c + delta < 256)) as [Hin|Hout].
  - left. destruct (chr_in_range (ord c + delta)) as (c' & -> & _); [lia|].
    rewrite calc_fitness_le by (rewrite length_insert; lia).
    by eexists _, _.
  - right. rewrite chr_out_of_range by lia. split; [done|].
    pose proof (ord_range c) as Hr.
    assert (ord c = 0 \/ ord c = 255) as Hedge by lia.
    pose proof Hc as Hc'. unfold crossed in Hc'.
    rewrite crossover_lookup in Hc' by lia.
    case_decide.
    + exists p2, gB, c. split_and!; [by right| |by eapply list_elem_of_lookup_2|done].
      unfold genome_of. by rewrite Hp2, Hd2.
    + exists p1, gA, c. split_and!; [by left| |by eapply list_elem_of_lookup_2|done].
      unfold genome_of. by rewrite Hp1, Hd1.
Qed.

(** A round from a well-formed pool reaches its test, or raises
    [ValueError] in [mutate]. *)
Lemma round_outcome target s :
  target <> [] -> gene_pool s <> [] -> pool_ok target s ->
  (exists s', completes target s s') \/
  (step target s = Crash ValueError /\ edge_char s).
Proof.
  intros Htarget Hpool Hok.
  set (w := st_world s). set (h := heap w).
  assert (Forall (fun c => is_Some (fitness_of h c)) (gene_pool s)) as Hfit.
  { eapply Forall_impl; [exact Hok|]. intros c (g & _ & _ & Hf)%candidate_ok_genome. eauto. }
  destruct (sort_pool_total _ w Hfit) as (sorted & Hsort & Hperm).
  assert (sorted <> []) as Hsne.
  { intros ->. apply Permutation_nil in Hperm. done. }
  assert (exists best, head sorted = Some best) as [best Hbest].
  { destruct sorted; [done|]. eauto. }
  destruct (random_parent_total sorted w Hsne) as (p1 & Hp1 & Hin1).
  destruct (random_parent_total sorted (advance w 1) Hsne) as (p2 & Hp2 & Hin2).
  assert (forall c, c ∈ sorted -> candidate_ok target h c) as Hcand.
  { intros c Hc. rewrite Hperm in Hc. by eapply Forall_forall in Hok. }
  destruct (mutate_outcome target p1 p2 (advance (advance w 1) 1) Htarget)
    as [(cs & f & Hmut)|(Hmut & p & g & x & Hp & Hg & Hx & Hedge)]; [by apply Hcand..| |].
  - left.
    cbn [advance heap rand] in Hmut. fold h in Hmut.
    set (child := child_loc h cs) in *.
    set (w' := advance (World (with_child h cs f) _) 4) in *.
    assert (heap w' = with_child h cs f) as Hh' by done.
    assert (exists worst, last sorted = Some worst) as [worst Hworst].
    { apply last_is_Some in Hsne as [x Hx]. eauto. }
    assert (forall c, c ∈ sorted -> is_Some (fitness_of (heap w') c)) as Hfit'.
    { intros c Hc. rewrite Hperm in Hc. eapply Forall_forall in Hfit as [k Hk]; [|done].
      exists k. rewrite Hh'. eapply preserves_fitness; [apply with_child_preserves|done]. }
    destruct (Hfit' worst) as [fw Hfw]; [by apply last_Some_elem_of|].
    set (pool' := if f <? fw then <[Nat.pred (length sorted) := child]> sorted else sorted).
    assert (replace_worst sorted child w' = Ok (pool', w')) as Hrep.
    { unfold replace_worst.
      rewrite bind_unfold, (get_fitness_eq _ _ f) by (rewrite Hh'; apply with_child_fitness).
      rewrite bind_unfold, py_index_last, Hworst. cbn [lift].
      rewrite bind_unfold, (get_fitness_eq _ _ fw) by done.
      subst pool'. destruct (f <? fw); [|done].
      by rewrite py_setitem_last. }
    assert (exists first f0, head pool' = Some first /\ fitness_of (heap w') first = Some f0)
      as (first & f0 & Hfirst & Hf0).
    { subst pool'. destruct (f <? fw).
      - destruct sorted as [|x [|y l]]; [done| |].
        + exists child, f. split; [done|]. rewrite Hh'. apply with_child_fitness.
        + destruct (Hfit' x) as [k Hk]; [apply elem_of_cons; by left|].
          exists x, k. done.
      - destruct (Hfit' best) as [k Hk]; [by apply head_Some_elem_of|]. eauto. }
    assert (loop_body target (gene_pool s) (fittest s) w
            = Ok (pool', fittest s ++ [best], f0 =? 0, w')) as Hbody.
    { unfold loop_body.
      rewrite bind_unfold, Hsort.
      rewrite bind_unfold, (proj2 (head_py_index _ _) Hbest). cbn [lift].
      rewrite bind_unfold, Hp1, bind_unfold, Hp2, bind_unfold, Hmut.
      rewrite bind_unfold, Hrep.
      rewrite bind_unfold, (proj2 (head_py_index _ _) Hfirst). cbn [lift].
      rewrite bind_unfold, (get_fitness_eq _ _ f0) by done. done. }
    unfold completes, step. fold w. rewrite Hbody.
    destruct (f0 =? 0); eexists; [right|left]; done.
  - right. split.
    + unfold step, loop_body. fold w.
      rewrite bind_unfold, Hsort.
      rewrite bind_unfold, (proj2 (head_py_index _ _) Hbest). cbn [lift].
      by rewrite bind_unfold, Hp1, bind_unfold, Hp2, bind_unfold, Hmut.
    + exists p, g, x. split_and!; [|done..].
      rewrite <- Hperm. by destruct Hp as [-> | ->].
Qed.

Lemma round_completes target s :
  target <> [] -> gene_pool s <> [] ->
  pool_ok target s -> inner_chars s ->
  exists s', completes target s s'.
Proof.
  intros Htarget Hpool Hok Hchars.
  destruct (round_outcome target s Htarget Hpool Hok)
    as [H|(_ & c & g & x & Hc & Hg & Hx & Hedge)]; [done|].
  pose proof (Hchars c g x Hc Hg Hx). lia.
Qed.

(** What the test at the end of a round looks at. *)
Lemma round_tested target s s' :
  completes target s s' ->
  exists sorted best first,
    sort_pool (gene_pool s) (st_world s) = Ok (sorted, st_world s) /\
    head sorted = Some best /\ best ∈ gene_pool s /\
    (forall c, c ∈ gene_pool s -> fit_le (heap (st_world s)) best c) /\
    head (gene_pool s') = Some first /\
    fit_le (heap (st_world s')) first best /\
    ((2 <= length (gene_pool s))%nat -> first = best).
Proof.
  intros Hc.
  pose proof (completes_preserves _ _ _ Hc) as Hp.
  pose proof (round_summary _ _ _ Hc)
    as (rest & worst & fw & best & p1 & p2 & cs & f & first & f0 & H).
  cbn zeta in H.
  destruct H as (Hsort & Hperm & Hsorted & Hfit & Hbest & _ & _ & _ & _ & _ & Hw' & Hfw
                 & Hpool' & Hfirst & Hf0 & _).
  set (h := heap (st_world s)) in *.
  assert (best ∈ rest ++ [worst]) as Hin by by apply head_Some_elem_of.
  assert (is_Some (fitness_of h best)) as [fb Hfb].
  { by eapply Forall_forall in Hfit. }
  exists (rest ++ [worst]), best, first.
  split_and!; [done|done|by rewrite <- Hperm| |done| |].
  - intros c Hcin. eapply sorted_head_least; [done|done|done|by rewrite Hperm].
  - rewrite Hpool' in Hfirst. destruct rest as [|x rest].
    + simpl in Hbest, Hfirst. injection Hbest as <-.
      destruct (Z.ltb_spec f fw) as [Hlt|Hge]; injection Hfirst as <-.
      * exists f, fw. split_and!; [|by eapply preserves_fitness|lia].
        rewrite Hw'. unfold advance. cbn [heap]. apply with_child_fitness.
      * apply fit_le_refl. exists fw. by eapply preserves_fitness.
    + simpl in Hbest, Hfirst. injection Hbest as <-. injection Hfirst as <-.
      apply fit_le_refl. exists fb. by eapply preserves_fitness.
  - intros Hlen. rewrite <- Hperm, length_app in Hlen. simpl in Hlen.
    rewrite Hpool' in Hfirst.
    destruct rest as [|x rest]; [simpl in Hlen; lia|].
    simpl in Hbest, Hfirst. by simplify_eq.
Qed.

(** C8. The loop is left by its test exactly when the fitness of
    [gene_pool[0]] is 0, and it can also be left by an exception.
    - A round that reaches the test takes [break] exactly when the fitness of
      [gene_pool[0]] is 0 then, and goes on to the next round, with the
      generation counter one higher, exactly when it is not.
    - What is tested: the round has sorted the pool, and the head [best] of
      the sorted pool is a member of least fitness of the pool the round
      started with.  The tested [gene_pool[0]] is at least as fit as [best],
      and with two candidates or more it is [best] itself, since the
      replacement writes to the last slot only.
    - A run that has left the loop by [break] has a best fitness of 0.
    - A round from a pool of well-formed candidates, with a target and a pool
      that are not empty, reaches the test or raises [ValueError]; it raises
      only when a character of the pool has the ordinal 0 or 255.  So it is
      for every round of a run of the program with a target that is not
      empty and one candidate or more.
    - The exception does end runs of the program: [main] with the draws of
      [crash_rng] ends in [ValueError] in its round 33.
    - The counter is never tested: from [stuck_state] the loop is still
      going after any number [n] of rounds, in generation [1 + n]. *)
Theorem loop_exit_condition :
  (forall target s s',
     completes target s s' ->
     (step target s = Break s' <-> best_fitness s' = Some 0) /\
     (step target s = Continue s' <->
        exists f, best_fitness s' = Some f /\ f <> 0) /\
     (step target s = Break s' -> generation s' = generation s) /\
     (step target s = Continue s' -> generation s' = generation s + 1)) /\
  (forall target s s',
     completes target s s' ->
     exists sorted best first,
       sort_pool (gene_pool s) (st_world s) = Ok (sorted, st_world s) /\
       head sorted = Some best /\ best ∈ gene_pool s /\
       (forall c, c ∈ gene_pool s -> fit_le (heap (st_world s)) best c) /\
       head (gene_pool s') = Some first /\
       fit_le (heap (st_world s')) first best /\
       ((2 <= length (gene_pool s))%nat -> first = best)) /\
  (forall target fuel s s',
     run fuel target s = Done s' -> best_fitness s' = Some 0) /\
  (forall target s,
     target <> [] -> gene_pool s <> [] -> pool_ok target s ->
     (exists s', completes target s s') \/
     (step target s = Crash ValueError /\ edge_char s)) /\
  (forall population target r s0 s,
     (1 <= population)%nat -> target <> [] ->
     init population target r = Ok s0 -> reaches target s0 s ->
     (exists s', completes target s s') \/
     (step target s = Crash ValueError /\ edge_char s)) /\
  main 33 crash_rng = Crashed ValueError /\
  (forall n, exists s',
     rounds n stuck_target stuck_state = Some s' /\
     run n stuck_target stuck_state = Running s' /\
     best_fitness s' = Some 1 /\
     generation s' = 1 + Z.of_nat n).
Proof.
  assert (forall target s s',
    completes target s s' ->
    (step target s = Break s' <-> best_fitness s' = Some 0) /\
    (step target s = Continue s' <-> exists f, best_fitness s' = Some f /\ f <> 0) /\
    (step target s = Break s' -> generation s' = generation s) /\
    (step target s = Continue s' -> generation s' = generation s + 1)) as Hround.
  { intros target s s' (f0 & Hbest & Hcase)%round_best_fitness.
    destruct Hcase as [(Hs & -> & Hg)|(Hs & Hne & Hg)]; rewrite Hs, Hbest.
    - split_and!; [done| |done|done].
      split; [done|]. intros (f & [= <-] & Hf). done.
    - split_and!; [| |done|done].
      + split; [done|]. intros [= ->]. done.
      + split; [intros _; by exists f0|done]. }
  split_and!.
  - exact Hround.
  - exact round_tested.
  - intros target fuel s s' (s1 & _ & Hb)%run_Done.
    apply (Hround target s1 s'); [by right|done].
  - exact round_outcome.
  - intros population target r s0 s Hpop Htarget Hinit Hr.
    destruct (init_total population target r) as (s0' & Hinit' & Hlen0 & Hok0 & _).
    rewrite Hinit in Hinit'. injection Hinit' as <-.
    apply round_outcome; [done| |].
    + assert (length (gene_pool s) = population) as Hlen.
      { apply (reaches_invariant target
                 (fun s => length (gene_pool s) = population)) with s0; [|done|done].
        intros s1 s2 Hc H. by rewrite (completes_length _ _ _ Hc). }
      intros Hnil. rewrite Hnil in Hlen. simpl in Hlen. lia.
    + apply (reaches_invariant target (pool_ok target)) with s0;
        [apply pool_ok_round|done|done].
  - vm_compute. reflexivity.
  - intros n.
    assert (stuck stuck_state) as H0 by done.
    destruct (stuck_rounds n stuck_state H0) as (s' & Hr & (Hpool & H2 & _) & Hg).
    exists s'. split_and!; [done| | |].
    + clear -Hr. revert Hr. generalize stuck_state.
      induction n as [|n IH]; intros s; simpl.
      * by intros [= ->].
      * destruct (step stuck_target s); try done. apply IH.
    + unfold best_fitness, fitness_of. by rewrite Hpool, H2.
    + rewrite Hg. done.
Qed.

(** C8 as stated fails: the notebook's program, with [POPULATION]
    candidates and the target 'Hello, world!', goes through 32 rounds with the
    draws of [crash_rng]; the best fitness is then 361, no candidate has the
    fitness 0, and round 33 ends the run with [ValueError]. *)
Lemma loop_ends_on_exception :
  init POPULATION hello_target crash_rng = Ok crash_start /\
  rounds 32 hello_target crash_start = Some crash_last /\
  generation crash_last = 33 /\
  best_fitness crash_last = Some 361 /\
  Forall (fun c => exists f, fitness_of (heap (st_world crash_last)) c = Some f /\ 361 <= f)
         (gene_pool crash_last) /\
  step hello_target crash_last = Crash ValueError /\
  main 33 crash_rng = Crashed ValueError.
Proof.
  split_and!; try (vm_compute; reflexivity).
  vm_compute. repeat constructor; eexists; (split; [reflexivity|discriminate]).
Qed.

Lemma loop_exit_condition_witness :
  ((step stuck_target stuck_state = Break stuck_round1 <->
      best_fitness stuck_round1 = Some 0) /\
   (step stuck_target stuck_state = Continue stuck_round1 <->
      exists f, best_fitness stuck_round1 = Some f /\ f <> 0) /\
   (step stuck_target stuck_state = Break stuck_round1 ->
      generation stuck_round1 = generation stuck_state) /\
   (step stuck_target stuck_state = Continue stuck_round1 ->
      generation stuck_round1 = generation stuck_state + 1)) /\
  (exists sorted best first,
     sort_pool (gene_pool demo_start) (st_world demo_start) = Ok (sorted, st_world demo_start) /\
     head sorted = Some best /\ best ∈ gene_pool demo_start /\
     (forall c, c ∈ gene_pool demo_start -> fit_le (heap (st_world demo_start)) best c) /\
     head (gene_pool demo_round1) = Some first /\
     fit_le (heap (st_world demo_round1)) first best /\
     ((2 <= length (gene_pool demo_start))%nat -> first = best)) /\
  ((exists s', completes hello_target crash_last s') \/
   (step hello_target crash_last = Crash ValueError /\ edge_char crash_last)).
Proof.
  destruct loop_exit_condition as (Hround & Htested & _ & _ & Hrun & _).
  split; [|split].
  - apply (Hround stuck_target). left. vm_compute. reflexivity.
  - apply (Htested demo_target). left. vm_compute. reflexivity.
  - apply (Hrun POPULATION hello_target crash_rng crash_start).
    + unfold POPULATION. lia.
    + done.
    + vm_compute. reflexivity.
    + apply (rounds_reaches hello_target 32). vm_compute. reflexivity.
Defined.

(** ** The winner *)

Lemma round_head target s s' :
  completes target s s' ->
  (2 <= length (gene_pool s))%nat ->
  exists best,
    last (fittest s') = Some best /\
    head (gene_pool s') = Some best /\
    best ∈ gene_pool s /\
    (forall c, c ∈ gene_pool s -> fit_le (heap (st_world s)) best c).
Proof.
  intros Hc Hlen.
  pose proof (round_summary _ _ _ Hc)
    as (rest & worst & fw & best & p1 & p2 & cs & f & first & f0 & H).
  cbn zeta in H.
  destruct H as (_ & Hperm & Hsorted & Hfit & Hbest & Hhist & _ & _ & _ & _ & _ & _
                 & Hpool' & _).
  rewrite <- Hperm, length_app in Hlen. simpl in Hlen.
  destruct rest as [|x rest]; [simpl in Hlen; lia|].
  simpl in Hbest. injection Hbest as ->.
  exists best. split_and!.
  - rewrite Hhist. apply last_snoc.
  - by rewrite Hpool'.
  - rewrite <- Hperm. apply elem_of_cons. by left.
  - intros c Hin. eapply sorted_head_least; [done|done|done|by rewrite Hperm].
Qed.

Lemma candidate_ok_fitness target h c f :
  candidate_ok target h c -> fitness_of h c = Some f -> 0 <= f.
Proof.
  intros (g & _ & _ & Hf)%candidate_ok_genome. rewrite Hf. intros [= <-].
  apply fitness_sum_nonneg.
Qed.

Lemma candidate_ok_winner target h c :
  candidate_ok target h c -> fitness_of h c = Some 0 -> genome_of h c = Some target.
Proof.
  intros (g & Hg & Hlen & Hf)%candidate_ok_genome. rewrite Hf. intros [= H0].
  apply fitness_sum_zero in H0; [|done]. by subst.
Qed.

(** The round that ends the loop: what it recorded is what it tested. *)
Lemma break_records_winner target s s' :
  pool_ok target s -> (2 <= length (gene_pool s))%nat ->
  step target s = Break s' ->
  exists c,
    last (fittest s') = Some c /\ head (gene_pool s') = Some c /\
    fitness_of (heap (st_world s')) c = Some 0 /\
    genome_of (heap (st_world s')) c = Some target.
Proof.
  intros Hok Hlen Hb.
  assert (completes target s s') as Hc by by right.
  destruct (round_head _ _ _ Hc Hlen) as (best & Hlast & Hhead & Hin & _).
  destruct (round_best_fitness _ _ _ Hc) as (f0 & Hbf & Hcase).
  destruct Hcase as [(_ & -> & _)|(Hs & _)]; [|congruence].
  assert (fitness_of (heap (st_world s')) best = Some 0) as Hf.
  { unfold best_fitness in Hbf. destruct (gene_pool s'); [done|].
    simpl in Hhead. by injection Hhead as ->. }
  exists best. split_and!; [done..|].
  apply (candidate_ok_winner target); [|done].
  pose proof (pool_ok_round _ _ _ Hc Hok) as Hok'.
  eapply Forall_forall; [exact Hok'|]. by apply head_Some_elem_of.
Qed.

(** A round that goes on although the pool at its end holds a candidate of
    fitness 0: that candidate is the child of this round, in the last slot,
    and the only one of fitness 0. *)
Lemma late_winner target s s1 child :
  pool_ok target s -> (2 <= length (gene_pool s))%nat ->
  step target s = Continue s1 ->
  child ∈ gene_pool s1 -> fitness_of (heap (st_world s1)) child = Some 0 ->
  (child ∉ dom (heap (st_world s))) /\
  last (gene_pool s1) = Some child /\
  last (fittest s1) <> Some child /\
  (forall c f, c ∈ gene_pool s1 -> c <> child ->
     fitness_of (heap (st_world s1)) c = Some f -> 0 < f).
Proof.
  intros Hok Hlen Hs Hin Hzero.
  assert (completes target s s1) as Hc by by left.
  pose proof (completes_preserves _ _ _ Hc) as Hp.
  destruct (round_head _ _ _ Hc Hlen) as (best & Hlast & Hhead & Hbin & Hleast).
  destruct (round_best_fitness _ _ _ Hc) as (f0 & Hbf & Hcase).
  destruct Hcase as [(Hs' & _)|(_ & Hne & _)]; [congruence|].
  set (h := heap (st_world s)) in *. set (h1 := heap (st_world s1)) in *.
  assert (fitness_of h1 best = Some f0) as Hfb1.
  { unfold best_fitness in Hbf. destruct (gene_pool s1); [done|].
    simpl in Hhead. by injection Hhead as ->. }
  assert (forall c, c ∈ gene_pool s -> c ∈ dom h) as Hdom.
  { intros c Hc'. by eapply pool_in_store. }
  assert (forall c f, c ∈ gene_pool s -> fitness_of h1 c = Some f -> 0 < f) as Hold.
  { intros c f Hc' Hf.
    destruct (Hleast c Hc') as (fb & fc & Hfb & Hfc & Hle).
    pose proof (preserves_fitness _ _ _ _ Hp Hfb) as Hfb'.
    pose proof (preserves_fitness _ _ _ _ Hp Hfc) as Hfc'.
    assert (0 <= fb).
    { eapply candidate_ok_fitness; [|exact Hfb]. eapply Forall_forall; [exact Hok|done]. }
    fold h1 in Hfb', Hfc'. simplify_eq. lia. }
  assert (child ∉ gene_pool s) as Hnew.
  { intros Hc'. pose proof (Hold _ _ Hc' Hzero). lia. }
  pose proof (round_summary _ _ _ Hc)
    as (rest & worst & fw & best' & p1 & p2 & cs & f & first & f0' & H).
  cbn zeta in H.
  destruct H as (_ & Hperm & _ & _ & _ & _ & _ & _ & _ & _ & _ & _ & Hpool' & _).
  fold h in Hpool'.
  assert (child = child_loc h cs /\ gene_pool s1 = rest ++ [child]) as [Hchild Hpool1].
  { rewrite Hpool' in Hin. apply elem_of_app in Hin as [Hin|Hin].
    - exfalso. apply Hnew. rewrite <- Hperm. apply elem_of_app. by left.
    - apply list_elem_of_singleton in Hin.
      destruct (f <? fw).
      + split; [done|]. by rewrite Hpool', Hin.
      + exfalso. apply Hnew. rewrite <- Hperm, Hin. apply elem_of_app. right.
        by apply list_elem_of_singleton. }
  split_and!.
  - rewrite Hchild. apply child_loc_fresh.
  - rewrite Hpool1. apply last_snoc.
  - rewrite Hlast. intros [= ->]. done.
  - intros c fc Hc' Hne' Hfc. apply (Hold c); [|done].
    rewrite Hpool1 in Hc'. apply elem_of_app in Hc' as [Hc'|Hc'].
    + rewrite <- Hperm. apply elem_of_app. by left.
    + by apply list_elem_of_singleton in Hc'.
Qed.

(** The round after: the sort brings the only candidate of fitness 0 to
    the front, where it is recorded and tested. *)
Lemma late_winner_detected target s1 s2 child :
  (2 <= length (gene_pool s1))%nat ->
  child ∈ gene_pool s1 -> fitness_of (heap (st_world s1)) child = Some 0 ->
  (forall c f, c ∈ gene_pool s1 -> c <> child ->
     fitness_of (heap (st_world s1)) c = Some f -> 0 < f) ->
  completes target s1 s2 ->
  step target s1 = Break s2 /\ last (fittest s2) = Some child.
Proof.
  intros Hlen Hin Hzero Hothers Hc.
  pose proof (completes_preserves _ _ _ Hc) as Hp.
  destruct (round_head _ _ _ Hc Hlen) as (best & Hlast & Hhead & Hbin & Hleast).
  assert (best = child) as ->.
  { destruct (decide (best = child)) as [|Hne]; [done|].
    destruct (Hleast child Hin) as (fb & fc & Hfb & Hfc & Hle).
    pose proof (Hothers best fb Hbin Hne Hfb). simplify_eq. lia. }
  split; [|done].
  destruct (round_best_fitness _ _ _ Hc) as (f0 & Hbf & Hcase).
  assert (f0 = 0) as ->.
  { unfold best_fitness in Hbf. destruct (gene_pool s2); [done|].
    simpl in Hhead. injection Hhead as ->.
    rewrite (preserves_fitness _ _ _ _ Hp Hzero) in Hbf. by injection Hbf. }
  destruct Hcase as [(Hs & _)|(_ & Hne & _)]; done.
Qed.

(** C10. In a run of the program with a population of at least two, the
    round that takes [break] has recorded in the history the very candidate
    whose fitness it tests: that candidate is [gene_pool[0]], its fitness is
    0 and its genome is the target.  A child of fitness 0 that a round puts
    in the pool goes in the last slot and is not what that round recorded;
    the round goes on, and it is the next round, if it does not raise, that
    sorts the child to the front, records it and takes [break]. *)
Theorem winner_detected_after_sort population target r s0 :
  (2 <= population)%nat ->
  init population target r = Ok s0 ->
  (forall fuel s',
     run fuel target s0 = Done s' ->
     exists c,
       last (fittest s') = Some c /\ head (gene_pool s') = Some c /\
       fitness_of (heap (st_world s')) c = Some 0 /\
       genome_of (heap (st_world s')) c = Some target) /\
  (forall s s1 child,
     reaches target s0 s ->
     step target s = Continue s1 ->
     child ∈ gene_pool s1 ->
     fitness_of (heap (st_world s1)) child = Some 0 ->
     (child ∉ dom (heap (st_world s))) /\
     last (gene_pool s1) = Some child /\
     last (fittest s1) <> Some child /\
     forall s2, completes target s1 s2 ->
       step target s1 = Break s2 /\ last (fittest s2) = Some child).
Proof.
  intros Hpop Hinit.
  destruct (init_total population target r) as (s0' & Hinit' & Hlen0 & Hok0 & _).
  rewrite Hinit in Hinit'. injection Hinit' as <-.
  assert (forall s, reaches target s0 s ->
            pool_ok target s /\ (2 <= length (gene_pool s))%nat) as Hinv.
  { intros s Hr. split.
    - apply (reaches_invariant target (pool_ok target)) with s0; [|done|done].
      apply pool_ok_round.
    - apply (reaches_invariant target
               (fun s => (2 <= length (gene_pool s))%nat)) with s0; [|done|lia].
      intros s1 s2 Hc H. by rewrite (completes_length _ _ _ Hc). }
  split.
  - intros fuel s' (s & Hr & Hb)%run_Done.
    destruct (Hinv s Hr) as [Hok Hlen]. by eapply break_records_winner.
  - intros s s1 child Hr Hs Hin Hzero.
    destruct (Hinv s Hr) as [Hok Hlen].
    destruct (late_winner _ _ _ _ Hok Hlen Hs Hin Hzero) as (Hnew & Hlast & Hhist & Hothers).
    split_and!; [done..|].
    intros s2 Hc. eapply late_winner_detected; [|done..].
    rewrite (completes_length target s s1); [done|by left].
Qed.


(** ** The theorems at work on the examples *)

Lemma elitist_replacement_witness :
  exists rest worst fw child fc,
    sort_pool (gene_pool demo_start) (st_world demo_start)
      = Ok (rest ++ [worst], st_world demo_start) /\
    Permutation (rest ++ [worst]) (gene_pool demo_start) /\
    StronglySorted (fit_le (heap (st_world demo_start))) (rest ++ [worst]) /\
    (forall c, c ∈ gene_pool demo_start -> fit_le (heap (st_world demo_start)) c worst) /\
    fitness_of (heap (st_world demo_start)) worst = Some fw /\
    (child ∉ dom (heap (st_world demo_start))) /\ (child ∉ gene_pool demo_start) /\
    fitness_of (heap (st_world demo_round1)) child = Some fc /\
    (child ∈ gene_pool demo_round1 <-> fc < fw) /\
    (fc < fw -> gene_pool demo_round1 = rest ++ [child]) /\
    (fw <= fc -> gene_pool demo_round1 = rest ++ [worst]) /\
    preserves (heap (st_world demo_start)) (heap (st_world demo_round1)).
Proof.
  apply (elitist_replacement demo_target demo_start demo_round1).
  left. vm_compute. reflexivity.
Defined.

Lemma no_update_in_place_witness :
  (exists child w',
     mutate 2 4 (list_ascii_of_string "Hello") demo_world = Ok (child, w') /\
     preserves (heap demo_world) (heap w') /\
     (child ∉ dom (heap demo_world)) /\
     genome_of (heap w') 2 = Some (list_ascii_of_string "Jelly") /\
     genome_of (heap w') 4 = Some (list_ascii_of_string "Hands")) /\
  preserves (heap (st_world demo_start)) (heap (st_world demo_round1)).
Proof.
  destruct (no_update_in_place demo_target) as (_ & Hround & _).
  destruct (no_update_in_place (list_ascii_of_string "Hello")) as (Hmutate & _ & _).
  split.
  - destruct (mutate 2 4 (list_ascii_of_string "Hello") demo_world)
      as [[child w']|e] eqn:Hm; [|vm_compute in Hm; discriminate].
    destruct (Hmutate 2%positive 4%positive demo_world child w' Hm)
      as (Hp & Hnew & _ & Hg & _).
    exists child, w'. split_and!; [done|done|done| |].
    + apply Hg. vm_compute. reflexivity.
    + apply Hg. vm_compute. reflexivity.
  - apply (Hround demo_start demo_round1). left. vm_compute. reflexivity.
Defined.

Lemma history_non_increasing_witness :
  exists f1 f2,
    fitness_of (heap (st_world demo_end)) 2 = Some f1 /\
    fitness_of (heap (st_world demo_end)) 6 = Some f2 /\
    f2 <= f1.
Proof.
  apply (history_non_increasing demo_target demo_start demo_end 0 2 6).
  - vm_compute. reflexivity.
  - apply (run_reaches demo_target 5). vm_compute. reflexivity.
  - vm_compute. reflexivity.
  - vm_compute. reflexivity.
Defined.

Lemma winner_detected_after_sort_witness :
  (exists c,
     last (fittest demo_end) = Some c /\ head (gene_pool demo_end) = Some c /\
     fitness_of (heap (st_world demo_end)) c = Some 0 /\
     genome_of (heap (st_world demo_end)) c = Some demo_target) /\
  ((6%positive ∉ dom (heap (st_world demo_start))) /\
   last (gene_pool demo_round1) = Some 6%positive /\
   last (fittest demo_round1) <> Some 6%positive /\
   forall s2, completes demo_target demo_round1 s2 ->
     step demo_target demo_round1 = Break s2 /\ last (fittest s2) = Some 6%positive).
Proof.
  destruct (winner_detected_after_sort 2 demo_target demo_rng demo_start) as [Hend Hlate].
  - lia.
  - vm_compute. reflexivity.
  - split.
    + apply (Hend 5%nat). vm_compute. reflexivity.
    + apply (Hlate demo_start).
      * constructor.
      * vm_compute. reflexivity.
      * apply list_elem_of_lookup. exists 1%nat. vm_compute. reflexivity.
      * vm_compute. reflexivity.
Defined.

Lemma population_invariant_witness :
  exists s0,
    init 2 demo_target demo_rng = Ok s0 /\
    forall s, reaches demo_target s0 s ->
      length (gene_pool s) = 2%nat /\
      Forall (fun c => exists g, genome_of (heap (st_world s)) c = Some g /\
                                 length g = length demo_target) (gene_pool s).
Proof. exact (population_invariant 2 demo_target demo_rng). Defined.

(** * More of the notebook's behaviour *)

(** ** random_parent *)

(** X1. [random_parent] on an empty pool raises [ValueError], from
    [randint(0, -1)].  On a pool that is not empty it returns the member at
    the index that the next cell of the tape gives modulo the size of the
    pool, uses that one cell and leaves the store alone; every member is
    the outcome of some cell, so the two parents of a round can be one and
    the same candidate. *)
Theorem random_parent_behaviour (pool : list loc) :
  (forall w, pool = [] -> random_parent pool w = Raise ValueError) /\
  (forall w, pool <> [] ->
     exists p,
       pool !! Z.to_nat (tape (rand w) (cursor (rand w)) mod Z.of_nat (length pool))
         = Some p /\
       random_parent pool w = Ok (p, advance w 1)) /\
  (forall (i : nat) p h k,
     pool !! i = Some p ->
     random_parent pool (World h (Rng (fun _ => Z.of_nat i) k))
     = Ok (p, World h (Rng (fun _ => Z.of_nat i) (S k)))).
Proof.
  assert (forall w, pool <> [] ->
     exists p,
       pool !! Z.to_nat (tape (rand w) (cursor (rand w)) mod Z.of_nat (length pool))
         = Some p /\
       random_parent pool w = Ok (p, advance w 1)) as Hne.
  { intros w Hpool.
    assert (0 < Z.of_nat (length pool)) as Hlen by (destruct pool; [done|simpl; lia]).
    pose proof (Z.mod_pos_bound (tape (rand w) (cursor (rand w))) _ Hlen) as Hb.
    set (i := Z.to_nat (tape (rand w) (cursor (rand w)) mod Z.of_nat (length pool))) in *.
    destruct (lookup_lt_is_Some_2 pool i) as [p Hp]; [lia|].
    exists p. split; [done|].
    unfold random_parent. rewrite bind_unfold, randint_eq by lia.
    replace (Z.of_nat (length pool) - 1 - 0 + 1) with (Z.of_nat (length pool)) by lia.
    replace (0 + tape (rand w) (cursor (rand w)) mod Z.of_nat (length pool))
      with (Z.of_nat i) by lia.
    by rewrite (py_index_nat _ _ _ Hp). }
  split_and!.
  - intros w ->. unfold random_parent. by rewrite bind_unfold, randint_empty.
  - exact Hne.
  - intros i p h k Hp.
    assert (pool <> []) as Hpool by (intros ->; done).
    destruct (Hne (World h (Rng (fun _ => Z.of_nat i) k)) Hpool) as (q & Hq & ->).
    cbn [rand tape cursor] in Hq.
    rewrite Z.mod_small in Hq by (apply lookup_lt_Some in Hp; lia).
    rewrite Nat2Z.id in Hq. by simplify_eq.
Qed.

Lemma random_parent_behaviour_witness :
  random_parent [] demo_world = Raise ValueError /\
  random_parent [2; 4]%positive (World ∅ (Rng (fun _ => Z.of_nat 1) 0))
  = Ok (4%positive, World ∅ (Rng (fun _ => Z.of_nat 1) 1)).
Proof.
  split.
  - apply (random_parent_behaviour []). reflexivity.
  - apply (random_parent_behaviour [2; 4]%positive). reflexivity.
Defined.

(** ** More on calc_fitness *)

Lemma sq_diff_sym s t : sq_diff s t = sq_diff t s.
Proof. unfold sq_diff. lia. Qed.

Lemma fitness_sum_sym g t : fitness_sum g t = fitness_sum t g.
Proof.
  unfold fitness_sum. revert t.
  induction g as [|s g IH]; intros [|c t]; simpl; try done.
  by rewrite IH, sq_diff_sym.
Qed.

(** X2. On two sequences of one length the fitness does not depend on
    which of the two is the source and which the target. *)
Theorem calc_fitness_symmetric genome target :
  length genome = length target ->
  calc_fitness genome target = calc_fitness target genome.
Proof.
  intros Hlen. rewrite !calc_fitness_le by lia. by rewrite fitness_sum_sym.
Qed.

Lemma calc_fitness_symmetric_witness :
  calc_fitness (list_ascii_of_string "Hilo") (list_ascii_of_string "Help")
  = calc_fitness (list_ascii_of_string "Help") (list_ascii_of_string "Hilo").
Proof.
  apply (calc_fitness_symmetric
           (list_ascii_of_string "Hilo") (list_ascii_of_string "Help")).
  reflexivity.
Defined.

(** One position of the genome replaced: the sum moves by the difference of
    the two squares at that position. *)
Lemma fitness_sum_insert g : forall t i c d c',
  g !! i = Some c -> t !! i = Some d ->
  fitness_sum (<[i := c']> g) t
  = fitness_sum g t - (ord d - ord c) ^ 2 + (ord d - ord c') ^ 2.
Proof.
  unfold fitness_sum.
  induction g as [|s g IH]; intros [|x t] [|i] c d c' Hg Ht; simpl in *; try done.
  - simplify_eq. unfold sq_diff. lia.
  - rewrite (IH t i c d c' Hg Ht). lia.
Qed.

(** X3. The fitness is a sum of independent positions: on a genome no
    longer than the target, replacing the character [c] at one position by
    [c'] changes the result by exactly the change of that position's square,
    so that a step of one ordinal towards the target's character lowers the
    fitness and a step away from it raises it. *)
Theorem calc_fitness_one_position genome target i c d c' :
  (length genome <= length target)%nat ->
  genome !! i = Some c -> target !! i = Some d ->
  exists f f',
    calc_fitness genome target = Ok f /\
    calc_fitness (<[i := c']> genome) target = Ok f' /\
    f' = f - (ord d - ord c) ^ 2 + (ord d - ord c') ^ 2 /\
    (Z.abs (ord d - ord c') < Z.abs (ord d - ord c) -> f' < f) /\
    (Z.abs (ord d - ord c) < Z.abs (ord d - ord c') -> f < f').
Proof.
  intros Hlen Hg Ht. eexists _, _.
  rewrite !calc_fitness_le by (rewrite ?length_insert; lia).
  split_and!; [done|done|by eapply fitness_sum_insert|..];
    rewrite (fitness_sum_insert _ _ _ _ _ _ Hg Ht); nia.
Qed.

Lemma calc_fitness_one_position_witness :
  exists f f',
    calc_fitness (list_ascii_of_string "Hilo") (list_ascii_of_string "Help") = Ok f /\
    calc_fitness (<[1%nat := "f"%char]> (list_ascii_of_string "Hilo"))
      (list_ascii_of_string "Help") = Ok f' /\
    f' = f - (ord "e" - ord "i") ^ 2 + (ord "e" - ord "f") ^ 2 /\
    (Z.abs (ord "e" - ord "f") < Z.abs (ord "e" - ord "i") -> f' < f) /\
    (Z.abs (ord "e" - ord "i") < Z.abs (ord "e" - ord "f") -> f < f').
Proof.
  apply (calc_fitness_one_position
           (list_ascii_of_string "Hilo") (list_ascii_of_string "Help") 1
           "i"%char "e"%char "f"%char).
  - simpl. lia.
  - reflexivity.
  - reflexivity.
Defined.

(** ** More on one round *)

Lemma calc_fitness_Ok_nonneg cs target f : calc_fitness cs target = Ok f -> 0 <= f.
Proof.
  destruct (Nat.le_gt_cases (length cs) (length target)) as [Hle|Hgt].
  - rewrite calc_fitness_le by done. intros [= <-]. apply fitness_sum_nonneg.
  - by rewrite calc_fitness_gt.
Qed.

(** X4. What a round records in the history is a fittest member of the
    pool it started with: the entry appended to [fittest] is a candidate of
    that pool and no candidate of that pool has a lower fitness. *)
Theorem history_records_fittest target s s' :
  completes target s s' ->
  exists best fb,
    fittest s' = fittest s ++ [best] /\
    best ∈ gene_pool s /\
    fitness_of (heap (st_world s)) best = Some fb /\
    forall c, c ∈ gene_pool s ->
      exists fc, fitness_of (heap (st_world s)) c = Some fc /\ fb <= fc.
Proof.
  intros Hc.
  pose proof (round_summary _ _ _ Hc)
    as (rest & worst & fw & best & p1 & p2 & cs & f & first & f0 & H).
  cbn zeta in H.
  destruct H as (_ & Hperm & Hsorted & Hfit & Hbest & Hhist & _).
  assert (best ∈ gene_pool s) as Hin.
  { rewrite <- Hperm. by apply head_Some_elem_of. }
  assert (is_Some (fitness_of (heap (st_world s)) best)) as [fb Hfb].
  { eapply Forall_forall in Hfit; [exact Hfit|]. by apply head_Some_elem_of. }
  exists best, fb. split_and!; [done..|].
  intros c Hcin.
  destruct (sorted_head_least _ _ best c Hsorted Hfit Hbest) as (fb' & fc & H1 & H2 & Hle).
  { by rewrite Hperm. }
  exists fc. split; [done|]. simplify_eq. done.
Qed.

Lemma history_records_fittest_witness :
  exists best fb,
    fittest demo_round1 = fittest demo_start ++ [best] /\
    best ∈ gene_pool demo_start /\
    fitness_of (heap (st_world demo_start)) best = Some fb /\
    forall c, c ∈ gene_pool demo_start ->
      exists fc, fitness_of (heap (st_world demo_start)) c = Some fc /\ fb <= fc.
Proof.
  apply (history_records_fittest demo_target demo_start demo_round1).
  left. vm_compute. reflexivity.
Defined.

(** X5. The replacement never lets the pool get worse: some member of the
    pool at the start of a round has a fitness that no member of the pool at
    its end exceeds. *)
Theorem worst_never_gets_worse target s s' :
  completes target s s' ->
  exists worst fw,
    worst ∈ gene_pool s /\
    fitness_of (heap (st_world s)) worst = Some fw /\
    (forall c, c ∈ gene_pool s ->
       exists fc, fitness_of (heap (st_world s)) c = Some fc /\ fc <= fw) /\
    (forall c, c ∈ gene_pool s' ->
       exists fc, fitness_of (heap (st_world s')) c = Some fc /\ fc <= fw).
Proof.
  intros Hc.
  pose proof (completes_preserves _ _ _ Hc) as Hp.
  pose proof (round_summary _ _ _ Hc)
    as (rest & worst & fw & best & p1 & p2 & cs & f & first & f0 & H).
  cbn zeta in H.
  destruct H as (_ & Hperm & Hsorted & Hfit & _ & _ & _ & _ & _ & _ & Hw' & Hfw
                 & Hpool' & _).
  assert (forall c, c ∈ rest ++ [worst] ->
            exists fc, fitness_of (heap (st_world s)) c = Some fc /\ fc <= fw) as Hold.
  { intros c Hin.
    destruct (sorted_last_greatest _ _ worst c Hsorted Hfit (last_snoc _ _) Hin)
      as (fc & fw' & H1 & H2 & Hle).
    exists fc. split; [done|]. simplify_eq. done. }
  exists worst, fw. split_and!.
  - rewrite <- Hperm. apply elem_of_app. right. by apply list_elem_of_singleton.
  - done.
  - intros c Hin. apply Hold. by rewrite Hperm.
  - intros c. rewrite Hpool', elem_of_app, list_elem_of_singleton.
    intros [Hin| ->].
    + destruct (Hold c) as (fc & Hfc & Hle); [apply elem_of_app; by left|].
      exists fc. split; [by eapply preserves_fitness|done].
    + destruct (Z.ltb_spec f fw) as [Hlt|Hge].
      * exists f. split; [|lia]. rewrite Hw'. unfold advance. cbn [heap].
        apply with_child_fitness.
      * exists fw. split; [by eapply preserves_fitness|lia].
Qed.

Lemma worst_never_gets_worse_witness :
  exists worst fw,
    worst ∈ gene_pool demo_start /\
    fitness_of (heap (st_world demo_start)) worst = Some fw /\
    (forall c, c ∈ gene_pool demo_start ->
       exists fc, fitness_of (heap (st_world demo_start)) c = Some fc /\ fc <= fw) /\
    (forall c, c ∈ gene_pool demo_round1 ->
       exists fc, fitness_of (heap (st_world demo_round1)) c = Some fc /\ fc <= fw).
Proof.
  apply (worst_never_gets_worse demo_target demo_start demo_round1).
  left. vm_compute. reflexivity.
Defined.

(** X6. A candidate of fitness 0 anywhere in a well-formed pool ends the
    loop in that very round: if the round does not raise, it takes [break],
    whatever the size of the pool and whatever the draws. *)
Theorem winner_in_pool_breaks target s s' c :
  pool_ok target s ->
  c ∈ gene_pool s -> fitness_of (heap (st_world s)) c = Some 0 ->
  completes target s s' ->
  step target s = Break s'.
Proof.
  intros Hok Hin Hzero Hc.
  pose proof (completes_preserves _ _ _ Hc) as Hp.
  pose proof (round_summary _ _ _ Hc)
    as (rest & worst & fw & best & p1 & p2 & cs & f & first & f0 & H).
  cbn zeta in H.
  destruct H as (_ & Hperm & Hsorted & Hfit & Hbest & _ & _ & _ & _ & Hcalc & Hw' & Hfw
                 & Hpool' & Hfirst & Hf0 & Hcase).
  set (h := heap (st_world s)) in *.
  assert (fitness_of h best = Some 0) as Hb0.
  { destruct (sorted_head_least h _ best c Hsorted Hfit Hbest) as (fb & fc & H1 & H2 & Hle).
    { by rewrite Hperm. }
    assert (0 <= fb).
    { eapply (candidate_ok_fitness target); [|exact H1].
      eapply Forall_forall; [exact Hok|]. rewrite <- Hperm. by apply head_Some_elem_of. }
    simplify_eq. rewrite H1. f_equal. lia. }
  assert (first = best) as ->.
  { rewrite Hpool' in Hfirst. destruct rest as [|x rest].
    - simpl in Hbest, Hfirst. simplify_eq.
      pose proof (calc_fitness_Ok_nonneg _ _ _ Hcalc).
      destruct (Z.ltb_spec f 0); [lia|]. done.
    - simpl in Hbest, Hfirst. by simplify_eq. }
  rewrite (preserves_fitness _ _ _ _ Hp Hb0) in Hf0. injection Hf0 as <-.
  destruct Hcase as [(Hs & _)|(_ & Hne & _)]; done.
Qed.

Lemma winner_in_pool_breaks_witness :
  step demo_target demo_round1 = Break demo_end.
Proof.
  apply (winner_in_pool_breaks demo_target demo_round1 demo_end 6%positive).
  - apply (reaches_invariant demo_target (pool_ok demo_target)) with demo_start.
    + apply pool_ok_round.
    + apply (rounds_reaches demo_target 1). vm_compute. reflexivity.
    + destruct (init_total 2 demo_target demo_rng) as (s0 & Hinit & _ & Hok & _).
      assert (s0 = demo_start) as <-; [|exact Hok].
      unfold demo_start, started. by rewrite Hinit.
  - apply list_elem_of_lookup. exists 1%nat. vm_compute. reflexivity.
  - vm_compute. reflexivity.
  - right. vm_compute. reflexivity.
Defined.

(** X7. With an empty pool the round raises [IndexError] at
    [gene_pool[0]], before any draw. *)
Theorem empty_pool_raises target s :
  gene_pool s = [] -> step target s = Crash IndexError.
Proof.
  intros Hpool. unfold step, loop_body. rewrite Hpool.
  rewrite bind_unfold. unfold sort_pool. cbn [mapM].
  rewrite bind_unfold. cbn [ret zip zip_with sort_by_key foldr map].
  by rewrite bind_unfold, py_index_0.
Qed.

Lemma empty_pool_raises_witness :
  step hello_target (started 0 hello_target demo_rng) = Crash IndexError.
Proof.
  apply (empty_pool_raises hello_target (started 0 hello_target demo_rng)).
  reflexivity.
Defined.

(** X8. With an empty target every genome is empty and the round raises
    [ValueError], from [randint(0, -1)] in [mutate], although every
    candidate has the fitness 0: the loop of a run with an empty target and
    a pool that is not empty never reaches its test. *)
Theorem empty_target_raises s :
  pool_ok [] s -> gene_pool s <> [] -> step [] s = Crash ValueError.
Proof.
  intros Hok Hpool.
  set (w := st_world s). set (h := heap w).
  assert (Forall (fun c => is_Some (fitness_of h c)) (gene_pool s)) as Hfit.
  { eapply Forall_impl; [exact Hok|]. intros c (g & _ & _ & Hf)%candidate_ok_genome. eauto. }
  destruct (sort_pool_total _ w Hfit) as (sorted & Hsort & Hperm).
  assert (sorted <> []) as Hsne.
  { intros ->. apply Permutation_nil in Hperm. done. }
  assert (exists best, head sorted = Some best) as [best Hbest].
  { destruct sorted; [done|]. eauto. }
  destruct (random_parent_total sorted w Hsne) as (p1 & Hp1 & Hin1).
  destruct (random_parent_total sorted (advance w 1) Hsne) as (p2 & Hp2 & Hin2).
  assert (forall c, c ∈ sorted -> candidate_ok [] h c) as Hcand.
  { intros c Hc. rewrite Hperm in Hc. by eapply Forall_forall in Hok. }
  destruct (Hcand p1 Hin1) as (d1 & gA & Hc1 & Hd1 & HlA).
  destruct (Hcand p2 Hin2) as (d2 & gB & Hc2 & Hd2 & HlB).
  destruct gA; [|done]. destruct gB; [|done].
  assert (mutate p1 p2 [] (advance (advance w 1) 1) = Raise ValueError) as Hmut.
  { rewrite (mutate_eq [] (advance (advance w 1) 1) p1 p2 d1 _ d2 _ [] [] Hc1 Hd1 Hc2 Hd2)
      by done.
    cbn zeta. unfold reproduce_spec, crossover.
    by rewrite !drop_nil, !take_nil. }
  unfold step, loop_body. fold w.
  rewrite bind_unfold, Hsort.
  rewrite bind_unfold, (proj2 (head_py_index _ _) Hbest). cbn [lift].
  by rewrite bind_unfold, Hp1, bind_unfold, Hp2, bind_unfold, Hmut.
Qed.

Lemma empty_target_raises_witness :
  step [] (started 3 [] demo_rng) = Crash ValueError.
Proof.
  apply (empty_target_raises (started 3 [] demo_rng)).
  - destruct (init_total 3 [] demo_rng) as (s0 & Hinit & _ & Hok & _).
    assert (s0 = started 3 [] demo_rng) as <-; [|exact Hok].
    unfold started. by rewrite Hinit.
  - vm_compute. discriminate.
Defined.

(** ** More on the starting pool and on runs *)

Lemma advance_advance w a b : advance (advance w a) b = advance w (b + a).
Proof. unfold advance. cbn [heap rand tape cursor]. do 2 f_equal. lia. Qed.

Lemma random_dna_spec n : forall w,
  exists cs,
    random_dna n w = Ok (cs, advance w n) /\
    length cs = n /\ Forall (fun c => c ∈ GENES) cs.
Proof.
  induction n as [|n IH]; intros w; simpl.
  - exists []. split_and!; [|done|constructor].
    unfold ret, advance. by destruct w as [h [t k]].
  - destruct (choice_total GENES w) as (c & Hc & Hin); [done|].
    destruct (IH (advance w 1)) as (cs & Hcs & Hlen & Hall).
    exists (c :: cs). rewrite bind_unfold, Hc, bind_unfold, Hcs.
    split_and!; [|by simpl; rewrite Hlen|by constructor].
    unfold ret. rewrite advance_advance. do 3 f_equal. lia.
Qed.

Lemma with_child_dom h cs f c : c ∈ dom h -> c ∈ dom (with_child h cs f).
Proof. apply preserves_dom, with_child_preserves. Qed.

Lemma child_loc_dom h cs f : child_loc h cs ∈ dom (with_child h cs f).
Proof. apply elem_of_dom. rewrite with_child_lookup. eauto. Qed.

Lemma create_pool_spec target n : forall pool w,
  exists new w',
    create_pool n target pool w = Ok (pool ++ new, w') /\
    length new = n /\
    rand w' = Rng (tape (rand w)) (n * length target + cursor (rand w)) /\
    created target w w' new.
Proof.
  induction n as [|n IH]; intros pool w; simpl.
  - exists [], w. rewrite app_nil_r. split_and!; [done|done|by destruct w as [h [t k]]|].
    split_and!; [apply preserves_refl|constructor..].
  - destruct (random_dna_spec (length target) w) as (cs & Hcs & Hlen & Hgenes).
    rewrite bind_unfold, Hcs.
    rewrite bind_unfold. unfold alloc at 1. cbn [advance heap rand].
    rewrite bind_unfold, (read_list_eq _ _ cs) by (cbn; apply lookup_insert_eq).
    rewrite bind_unfold, calc_fitness_le by lia. cbn [lift].
    rewrite bind_unfold. unfold alloc at 1. cbn [heap rand].
    fold (child_loc (heap w) cs).
    change (<[child_loc (heap w) cs := ODict (fresh (dom (heap w))) (fitness_sum cs target)]>
              (<[fresh (dom (heap w)) := OList cs]> (heap w)))
      with (with_child (heap w) cs (fitness_sum cs target)).
    set (h1 := with_child (heap w) cs (fitness_sum cs target)).
    set (w1 := World h1 _).
    destruct (IH (pool ++ [child_loc (heap w) cs]) w1)
      as (new & w' & Hrec & Hn & Hrand & Hp & Hok & Hchars & Hnew & Hnodup).
    exists (child_loc (heap w) cs :: new), w'.
    rewrite Hrec, <- app_assoc.
    assert (preserves (heap w) h1) as Hp1 by apply with_child_preserves.
    split_and!.
    + done.
    + simpl. by rewrite Hn.
    + rewrite Hrand. subst w1. cbn [rand tape cursor]. f_equal. lia.
    + split_and!.
      * eapply preserves_trans; [exact Hp1|exact Hp].
      * constructor; [|done].
        eapply preserves_candidate_ok; [exact Hp|]. by apply with_child_candidate_ok.
      * constructor; [|done]. exists cs. split; [|done].
        eapply preserves_genome; [exact Hp|]. apply with_child_genome.
      * constructor.
        -- split; [apply child_loc_fresh|].
           apply (preserves_dom _ _ Hp). apply child_loc_dom.
        -- eapply Forall_impl; [exact Hnew|]. intros c [Hc1 Hc2]. split; [|done].
           intros Hc. apply Hc1. by apply (preserves_dom _ _ Hp1).
      * constructor; [|done]. intros Hin.
        eapply Forall_forall in Hnew as [Hc1 _]; [|exact Hin].
        apply Hc1. apply child_loc_dom.
Qed.

(** X9. The starting pool, whatever the draws: every candidate has a
    genome written in [GENES] and carries the fitness of that genome against
    the target, no candidate is in the pool twice, and its creation has
    used one cell of the tape for each character, [population] times the
    length of the target in all. *)
Theorem starting_pool population target r :
  exists s0,
    init population target r = Ok s0 /\
    Forall (fun c => exists g,
              genome_of (heap (st_world s0)) c = Some g /\
              Forall (fun x => x ∈ GENES) g /\
              fitness_of (heap (st_world s0)) c = Some (fitness_sum g target) /\
              calc_fitness g target = Ok (fitness_sum g target))
           (gene_pool s0) /\
    NoDup (gene_pool s0) /\
    rand (st_world s0) = Rng (tape r) (population * length target + cursor r).
Proof.
  unfold init.
  destruct (create_pool_spec target population [] (World ∅ r))
    as (new & w' & H & Hlen & Hrand & Hp & Hok & Hchars & Hnew & Hnodup).
  rewrite H. eexists. split; [done|]. cbn [gene_pool st_world app].
  split_and!; [|done|done].
  apply Forall_forall. intros c Hc.
  eapply Forall_forall in Hchars as (g & Hg & Hgenes); [|exact Hc].
  eapply Forall_forall in Hok; [|exact Hc].
  destruct (candidate_ok_genome _ _ _ Hok) as (g' & Hg' & Hl & Hf).
  simplify_eq. exists g. split_and!; [done..|]. apply calc_fitness_le. lia.
Qed.

(** X10. The fitness stored in a candidate is never stale: in every state
    that a run of the program reaches, each candidate of the pool carries the
    value that [calc_fitness] gives for its genome and the target, and that
    value is not negative. *)
Theorem stored_fitness_is_current population target r s0 s :
  init population target r = Ok s0 ->
  reaches target s0 s ->
  Forall (fun c => exists g f,
            genome_of (heap (st_world s)) c = Some g /\
            fitness_of (heap (st_world s)) c = Some f /\
            calc_fitness g target = Ok f /\ 0 <= f)
         (gene_pool s).
Proof.
  intros Hinit Hr.
  destruct (init_total population target r) as (s0' & Hinit' & _ & Hok0 & _).
  rewrite Hinit in Hinit'. injection Hinit' as <-.
  assert (pool_ok target s) as Hok.
  { apply (reaches_invariant target (pool_ok target)) with s0; [|done|done].
    apply pool_ok_round. }
  eapply Forall_impl; [exact Hok|]. intros c Hc. simpl.
  destruct (candidate_ok_genome _ _ _ Hc) as (g & Hg & Hl & Hf).
  exists g, (fitness_sum g target).
  split_and!; [done|done|apply calc_fitness_le; lia|apply fitness_sum_nonneg].
Qed.

Lemma stored_fitness_is_current_witness :
  Forall (fun c => exists g f,
            genome_of (heap (st_world demo_end)) c = Some g /\
            fitness_of (heap (st_world demo_end)) c = Some f /\
            calc_fitness g demo_target = Ok f /\ 0 <= f)
         (gene_pool demo_end).
Proof.
  apply (stored_fitness_is_current 2 demo_target demo_rng demo_start demo_end).
  - vm_compute. reflexivity.
  - apply (run_reaches demo_target 5). vm_compute. reflexivity.
Defined.

Lemma round_bookkeeping target s s' :
  completes target s s' ->
  length (fittest s') = S (length (fittest s)) /\
  rand (st_world s') = Rng (tape (rand (st_world s))) (6 + cursor (rand (st_world s))).
Proof.
  intros (rest & worst & fw & best & p1 & p2 & cs & f & first & f0 & H)%round_summary.
  cbn zeta in H.
  destruct H as (_ & _ & _ & _ & _ & Hhist & _ & _ & _ & _ & Hw' & _).
  rewrite Hhist, Hw', length_app. simpl. split; [lia|done].
Qed.

(** X11. The counters of the loop.  After [n] rounds that went on, the
    generation counter has grown by [n], the history by [n] entries and the
    cursor of the random source by [6 * n]: each round draws six times.  When
    the loop is left by [break] after [n] such rounds, the history has
    [n + 1] more entries and the counter has grown by [n]; a run of the
    program, which starts in generation 1 with no history, ends with as many
    history entries as its generation counter says. *)
Theorem loop_counters target s0 :
  (forall n s,
     rounds n target s0 = Some s ->
     generation s = generation s0 + Z.of_nat n /\
     length (fittest s) = (length (fittest s0) + n)%nat /\
     rand (st_world s)
     = Rng (tape (rand (st_world s0))) (6 * n + cursor (rand (st_world s0)))) /\
  (forall fuel s',
     run fuel target s0 = Done s' ->
     exists n, (n < fuel)%nat /\
       generation s' = generation s0 + Z.of_nat n /\
       length (fittest s') = (length (fittest s0) + n + 1)%nat /\
       rand (st_world s')
       = Rng (tape (rand (st_world s0))) (6 * (n + 1) + cursor (rand (st_world s0)))) /\
  (forall fuel s',
     generation s0 = 1 -> fittest s0 = [] ->
     run fuel target s0 = Done s' ->
     generation s' = Z.of_nat (length (fittest s'))).
Proof.
  assert (forall fuel s s',
     run fuel target s = Done s' ->
     exists n, (n < fuel)%nat /\
       generation s' = generation s + Z.of_nat n /\
       length (fittest s') = (length (fittest s) + n + 1)%nat /\
       rand (st_world s')
       = Rng (tape (rand (st_world s))) (6 * (n + 1) + cursor (rand (st_world s)))) as Hrun.
  { induction fuel as [|fuel IH]; intros s s'; simpl; [done|].
    destruct (step target s) as [s1|s1|] eqn:Hs; try done.
    - intros (n & Hn & Hg & Hl & Hr)%IH.
      assert (completes target s s1) as Hc by by left.
      destruct (round_bookkeeping _ _ _ Hc) as [Hl1 Hr1].
      apply step_Continue in Hs as [_ Hg1].
      exists (S n). split_and!; [lia|lia|lia|].
      rewrite Hr, Hr1. cbn [tape cursor]. f_equal. lia.
    - intros [= <-].
      assert (completes target s s1) as Hc by by right.
      destruct (round_bookkeeping _ _ _ Hc) as [Hl1 Hr1].
      apply step_Break in Hs as [_ Hg1].
      exists 0%nat. split_and!; [lia|lia|lia|]. rewrite Hr1. f_equal. }
  split_and!.
  - intros n. revert s0. induction n as [|n IH]; intros s0 s; simpl.
    + intros [= <-]. split_and!; [lia|lia|]. by destruct (rand (st_world s0)).
    + destruct (step target s0) as [s1| |] eqn:Hs; try done.
      intros (Hg & Hl & Hr)%IH.
      assert (completes target s0 s1) as Hc by by left.
      destruct (round_bookkeeping _ _ _ Hc) as [Hl1 Hr1].
      apply step_Continue in Hs as [_ Hg1].
      split_and!; [lia|lia|]. rewrite Hr, Hr1. cbn [tape cursor]. f_equal. lia.
  - intros fuel s'. apply Hrun.
  - intros fuel s' Hg0 Hf0 (n & _ & Hg & Hl & _)%Hrun.
    rewrite Hg, Hl, Hg0, Hf0. simpl. lia.
Qed.

Lemma loop_counters_witness :
  generation demo_end = Z.of_nat (length (fittest demo_end)).
Proof.
  destruct (loop_counters demo_target demo_start) as (_ & _ & H).
  apply (H 5%nat); vm_compute; reflexivity.
Defined.

(** X12. The history is append-only and what it refers to is frozen: along
    a run the earlier history is a prefix of the later one, and every object
    of the earlier store, the recorded candidates and their dna among them,
    is unchanged in the later store. *)
Theorem history_append_only target s s' :
  reaches target s s' ->
  fittest s `prefix_of` fittest s' /\
  preserves (heap (st_world s)) (heap (st_world s')) /\
  forall i c g f,
    fittest s !! i = Some c ->
    genome_of (heap (st_world s)) c = Some g ->
    fitness_of (heap (st_world s)) c = Some f ->
    fittest s' !! i = Some c /\
    genome_of (heap (st_world s')) c = Some g /\
    fitness_of (heap (st_world s')) c = Some f.
Proof.
  intros Hr.
  assert (fittest s `prefix_of` fittest s' /\
          preserves (heap (st_world s)) (heap (st_world s'))) as [Hpre Hp].
  { apply (reaches_invariant target
             (fun x => fittest s `prefix_of` fittest x /\
                       preserves (heap (st_world s)) (heap (st_world x)))) with s;
      [|done|split; [done|apply preserves_refl]].
    intros x x' Hc [Hpre Hp].
    pose proof (completes_preserves _ _ _ Hc) as Hp'.
    apply round_summary in Hc
      as (rest & worst & fw & best & p1 & p2 & cs & f & first & f0 & H).
    cbn zeta in H. destruct H as (_ & _ & _ & _ & _ & Hhist & _).
    split; [|by eapply preserves_trans].
    rewrite Hhist. by apply prefix_app_r. }
  split_and!; [done..|].
  intros i c g f Hi Hg Hf. split_and!.
  - by eapply prefix_lookup_Some.
  - by eapply preserves_genome.
  - by eapply preserves_fitness.
Qed.

Lemma history_append_only_witness :
  fittest demo_round1 `prefix_of` fittest demo_end /\
  preserves (heap (st_world demo_round1)) (heap (st_world demo_end)) /\
  forall i c g f,
    fittest demo_round1 !! i = Some c ->
    genome_of (heap (st_world demo_round1)) c = Some g ->
    fitness_of (heap (st_world demo_round1)) c = Some f ->
    fittest demo_end !! i = Some c /\
    genome_of (heap (st_world demo_end)) c = Some g /\
    fitness_of (heap (st_world demo_end)) c = Some f.
Proof.
  apply (history_append_only demo_target demo_round1 demo_end).
  apply reaches_break. vm_compute. reflexivity.
Defined.

(** ** The pool holds no candidate twice *)

Lemma distinct_pool_round target s s' :
  completes target s s' -> distinct_pool s -> distinct_pool s'.
Proof.
  intros Hc [Hnd Hdom].
  pose proof (completes_preserves _ _ _ Hc) as Hp.
  pose proof (round_summary _ _ _ Hc)
    as (rest & worst & fw & best & p1 & p2 & cs & f & first & f0 & H).
  cbn zeta in H.
  destruct H as (_ & Hperm & _ & _ & _ & _ & _ & _ & _ & _ & Hw' & _ & Hpool' & _).
  rewrite <- Hperm in Hnd.
  assert (forall c, c ∈ rest ++ [worst] -> c ∈ dom (heap (st_world s))) as Hdom'.
  { intros c Hin. apply Hdom. by rewrite <- Hperm. }
  split.
  - rewrite Hpool'. destruct (f <? fw); [|done].
    apply NoDup_app in Hnd as (Hrest & _ & _).
    apply NoDup_app. split_and!; [done| |apply NoDup_singleton].
    intros c Hin ->%list_elem_of_singleton.
    apply (child_loc_fresh (heap (st_world s)) cs). apply Hdom'.
    apply elem_of_app. by left.
  - intros c. rewrite Hpool', elem_of_app, list_elem_of_singleton.
    intros [Hin| ->].
    + apply (preserves_dom _ _ Hp), Hdom'. apply elem_of_app. by left.
    + destruct (f <? fw).
      * rewrite Hw'. unfold advance. cbn [heap]. apply child_loc_dom.
      * apply (preserves_dom _ _ Hp), Hdom'. apply elem_of_app. right.
        by apply list_elem_of_singleton.
Qed.

(** X13. No candidate is in the pool twice: the members of the pool are
    different objects in the starting pool and in every state that a run
    reaches, so that a replacement takes exactly one individual out. *)
Theorem pool_members_distinct population target r s0 s :
  init population target r = Ok s0 ->
  reaches target s0 s ->
  NoDup (gene_pool s).
Proof.
  intros Hinit Hr.
  assert (distinct_pool s0) as H0.
  { unfold init in Hinit.
    destruct (create_pool_spec target population [] (World ∅ r))
      as (new & w' & H & _ & _ & _ & _ & _ & Hnew & Hnodup).
    rewrite H in Hinit. injection Hinit as <-. split; [done|].
    cbn [gene_pool st_world app]. intros c Hc.
    by eapply Forall_forall in Hnew as [_ ?]. }
  apply (reaches_invariant target distinct_pool) with s0; [|done|done].
  apply distinct_pool_round.
Qed.

Lemma pool_members_distinct_witness : NoDup (gene_pool demo_end).
Proof.
  apply (pool_members_distinct 2 demo_target demo_rng demo_start demo_end).
  - vm_compute. reflexivity.
  - apply (run_reaches demo_target 5). vm_compute. reflexivity.
Defined.

(** ** How far the characters drift *)

Lemma crossover_elem a b i j x :
  length a = length b -> (i <= j)%nat -> (j <= length a)%nat ->
  x ∈ crossover a b i j -> x ∈ a \/ x ∈ b.
Proof.
  intros Hab Hij Hj (k & Hk)%list_elem_of_lookup.
  rewrite crossover_lookup in Hk by done.
  case_decide; [right|left]; by eapply list_elem_of_lookup_2.
Qed.

Lemma reproduce_spec_chars gA gB i0 j0 pos delta final x :
  length gA = length gB ->
  (i0 < length gA)%nat -> (j0 < length gA)%nat ->
  -1 <= delta <= 1 ->
  reproduce_spec gA gB i0 j0 pos delta = Some final ->
  x ∈ final ->
  exists y, (y ∈ gA \/ y ∈ gB) /\ ord y - 1 <= ord x <= ord y + 1.
Proof.
  intros Hlen Hi Hj Hdelta. unfold reproduce_spec.
  set (crossed := crossover _ _ _ _).
  destruct (crossed !! pos) as [c|] eqn:Hc; [|done].
  destruct (chr _) as [c'|] eqn:Hchr; [|done]. intros [= <-].
  apply chr_Ok in Hchr as [_ Hord].
  intros (k & Hk)%list_elem_of_lookup.
  destruct (decide (k = pos)) as [->|Hne].
  - rewrite list_lookup_insert_eq in Hk by (by eapply lookup_lt_Some).
    injection Hk as <-. exists c. split; [|lia].
    eapply crossover_elem; [done| | |by eapply list_elem_of_lookup_2]; lia.
  - rewrite list_lookup_insert_ne in Hk by done.
    exists x. split; [|lia].
    eapply crossover_elem; [done| | |by eapply list_elem_of_lookup_2]; lia.
Qed.

Lemma candidate_ok_genome_back target h h' c g :
  preserves h h' -> candidate_ok target h c ->
  genome_of h' c = Some g -> genome_of h c = Some g.
Proof.
  intros Hp Hok Hg.
  destruct (candidate_ok_genome _ _ _ Hok) as (g' & Hg' & _).
  rewrite (preserves_genome _ _ _ _ Hp Hg') in Hg. by simplify_eq.
Qed.

Lemma chars_within_round target n s s' :
  completes target s s' -> pool_ok target s ->
  chars_within n s -> chars_within (n + 1) s'.
Proof.
  intros Hc Hok Hchars.
  pose proof (completes_preserves _ _ _ Hc) as Hp.
  pose proof (round_summary _ _ _ Hc)
    as (rest & worst & fw & best & p1 & p2 & cs & f & first & f0 & H).
  cbn zeta in H.
  destruct H as (_ & Hperm & _ & _ & _ & _ & Hp1 & Hp2 & Hmut & _ & Hw' & _ & Hpool' & _).
  set (h := heap (st_world s)) in *.
  assert (forall c g x, c ∈ rest ++ [worst] ->
            genome_of (heap (st_world s')) c = Some g -> x ∈ g ->
            32 - (n + 1) <= ord x <= 122 + (n + 1)) as Hold.
  { intros c g x Hin Hg Hx. rewrite Hperm in Hin.
    assert (genome_of h c = Some g) as Hg0.
    { eapply candidate_ok_genome_back; [exact Hp| |exact Hg].
      by eapply Forall_forall in Hok. }
    pose proof (Hchars c g x Hin Hg0 Hx). lia. }
  intros c g x. rewrite Hpool', elem_of_app, list_elem_of_singleton.
  intros [Hin|Hceq] Hg Hx.
  { eapply Hold; [|exact Hg|exact Hx]. apply elem_of_app. by left. }
  destruct (f <? fw); [|subst c; eapply Hold; [|exact Hg|exact Hx];
                        apply elem_of_app; right; by apply list_elem_of_singleton].
  subst c.
  assert (candidate_ok target h p1) as (d1 & gA & Hc1 & Hd1 & HlA)
    by by eapply Forall_forall in Hok.
  assert (candidate_ok target h p2) as (d2 & gB & Hc2 & Hd2 & HlB)
    by by eapply Forall_forall in Hok.
  assert (genome_of h p1 = Some gA) as HgA by (unfold genome_of; by rewrite Hc1, Hd1).
  assert (genome_of h p2 = Some gB) as HgB by (unfold genome_of; by rewrite Hc2, Hd2).
  rewrite (mutate_eq target (advance (st_world s) 2) p1 p2 _ _ _ _ gA gB Hc1 Hd1 Hc2 Hd2)
    in Hmut by lia.
  cbn zeta in Hmut.
  destruct (reproduce_spec _ _ _ _ _ _) as [final|] eqn:Hspec; [|done].
  destruct (calc_fitness final target) as [f'|]; [|done].
  assert (0 < Z.of_nat (length gA)) as Hn.
  { destruct gA; [|simpl; lia]. destruct gB; [|simpl in *; lia].
    unfold reproduce_spec, crossover in Hspec.
    by rewrite !drop_nil, !take_nil in Hspec. }
  assert (genome_of (heap (st_world s')) (child_loc h cs) = Some final) as Hgc.
  { injection Hmut as Hloc <-. rewrite <- Hloc.
    unfold advance. cbn [heap]. apply with_child_genome. }
  rewrite Hgc in Hg. injection Hg as <-.
  assert (exists y, (y ∈ gA \/ y ∈ gB) /\ ord y - 1 <= ord x <= ord y + 1)
    as (y & Hy & Hord).
  { refine (reproduce_spec_chars gA gB _ _ _ _ final x _ _ _ _ Hspec Hx).
    - lia.
    - pose proof (Z.mod_pos_bound
        (tape (rand (advance (st_world s) 2)) (0 + cursor (rand (advance (st_world s) 2))))
        _ Hn). lia.
    - pose proof (Z.mod_pos_bound
        (tape (rand (advance (st_world s) 2)) (1 + cursor (rand (advance (st_world s) 2))))
        _ Hn). lia.
    - pose proof (Z.mod_pos_bound
        (tape (rand (advance (st_world s) 2)) (3 + cursor (rand (advance (st_world s) 2))))
        3 eq_refl). lia. }
  destruct Hy as [Hy|Hy].
  - pose proof (Hchars p1 gA y Hp1 HgA Hy). lia.
  - pose proof (Hchars p2 gB y Hp2 HgB Hy). lia.
Qed.

Lemma chars_within_rounds target n : forall s s',
  rounds n target s = Some s' ->
  pool_ok target s -> chars_within 0 s ->
  pool_ok target s' /\ chars_within (Z.of_nat n) s'.
Proof.
  induction n as [|n IH]; intros s s'.
  - simpl. intros [= <-]. done.
  - intros Hr Hok Hch.
    assert (exists s1, rounds n target s = Some s1 /\ step target s1 = Continue s')
      as (s1 & Hr1 & Hs1).
    { clear -Hr. revert s Hr. induction n as [|n IH]; intros s; simpl.
      - destruct (step target s) as [x| |] eqn:Hs; try done. intros [= <-].
        exists s. by split.
      - destruct (step target s) as [x| |] eqn:Hs; try done.
        intros (s1 & H1 & H2)%IH. eauto. }
    destruct (IH s s1 Hr1 Hok Hch) as [Hok1 Hch1].
    assert (completes target s1 s') as Hc by by left.
    split; [by eapply pool_ok_round|].
    replace (Z.of_nat (S n)) with (Z.of_nat n + 1) by lia.
    by eapply chars_within_round.
Qed.

Lemma starting_pool_facts population target r :
  exists s0,
    init population target r = Ok s0 /\
    length (gene_pool s0) = population /\
    pool_ok target s0 /\ chars_within 0 s0.
Proof.
  unfold init.
  destruct (create_pool_spec target population [] (World ∅ r))
    as (new & w' & H & Hlen & _ & _ & Hok & Hchars & _ & _).
  rewrite H. eexists. split; [done|]. cbn [gene_pool st_world app].
  split_and!; [done|done|].
  intros c g x Hin Hg Hx. cbn [gene_pool st_world app] in *.
  eapply Forall_forall in Hchars as (g' & Hg' & Hgenes); [|exact Hin].
  simplify_eq.
  eapply Forall_forall in Hgenes; [|exact Hx].
  pose proof GENES_range as HR. eapply Forall_forall in HR; [|exact Hgenes]. lia.
Qed.

(** X14. The characters drift by at most one ordinal per generation: after
    [n] rounds of a run of the program every character of the pool has an
    ordinal between [32 - n] and [122 + n], 32..122 being the range of
    [GENES].  So, with a target and a pool that are not empty, none of the
    first 32 rounds of a run raises: [chr] is only given ordinals of
    1..254. *)
Theorem drift_is_one_per_generation population target r s0 n s :
  init population target r = Ok s0 ->
  rounds n target s0 = Some s ->
  (forall c g x, c ∈ gene_pool s -> genome_of (heap (st_world s)) c = Some g ->
                 x ∈ g -> 32 - Z.of_nat n <= ord x <= 122 + Z.of_nat n) /\
  ((n <= 31)%nat -> (1 <= population)%nat -> target <> [] ->
   exists s', completes target s s').
Proof.
  intros Hinit Hr.
  destruct (starting_pool_facts population target r) as (s0' & Hinit' & Hlen0 & Hok0 & Hch0).
  rewrite Hinit in Hinit'. injection Hinit' as <-.
  destruct (chars_within_rounds target n s0 s Hr Hok0 Hch0) as [Hok Hch].
  split; [exact Hch|].
  intros Hn Hpop Htarget.
  apply round_completes; [done| |done|].
  - assert (length (gene_pool s) = population) as Hl.
    { apply (reaches_invariant target
               (fun x => length (gene_pool x) = population)) with s0;
        [|by eapply rounds_reaches|done].
      intros x x' Hc H. by rewrite (completes_length _ _ _ Hc). }
    intros Hnil. rewrite Hnil in Hl. simpl in Hl. lia.
  - intros c g x Hin Hg Hx. pose proof (Hch c g x Hin Hg Hx). lia.
Qed.

Lemma drift_is_one_per_generation_witness :
  (forall c g x, c ∈ gene_pool demo_round1 ->
                 genome_of (heap (st_world demo_round1)) c = Some g ->
                 x ∈ g -> 32 - Z.of_nat 1 <= ord x <= 122 + Z.of_nat 1) /\
  exists s', completes demo_target demo_round1 s'.
Proof.
  destruct (drift_is_one_per_generation 2 demo_target demo_rng demo_start 1 demo_round1)
    as [Hrange Hnext].
  - vm_compute. reflexivity.
  - vm_compute. reflexivity.
  - split; [exact Hrange|]. apply Hnext; [lia|lia|done].
Defined.

(** ** More on mutate *)

(** X15. When [mutate] raises instead of returning a child.  With an empty
    dna in parent 2 the first [randint(0, -1)] raises [ValueError], whatever
    parent 1 is.  With parents of one length that is greater than the
    target's, no child is returned either: [calc_fitness] raises
    [IndexError] on the finished genome, unless [chr] has already raised
    [ValueError]. *)
Theorem mutate_raises target w p1 p2 d1 f1 d2 f2 gA gB :
  heap w !! p1 = Some (ODict d1 f1) -> heap w !! d1 = Some (OList gA) ->
  heap w !! p2 = Some (ODict d2 f2) -> heap w !! d2 = Some (OList gB) ->
  (gB = [] -> mutate p1 p2 target w = Raise ValueError) /\
  (length gA = length gB -> (length target < length gA)%nat ->
   mutate p1 p2 target w = Raise IndexError \/
   mutate p1 p2 target w = Raise ValueError).
Proof.
  intros Hp1 Hd1 Hp2 Hd2. split.
  - intros ->.
    set (cd := fresh (dom (heap w))).
    assert (heap w !! cd = None) as Hcd by apply fresh_heap.
    assert (cd <> p2) as Hcp2 by (intros ->; congruence).
    assert (cd <> d2) as Hcd2 by (intros ->; congruence).
    unfold mutate.
    rewrite bind_unfold, (get_dna_eq _ _ _ _ Hp1).
    rewrite bind_unfold, (read_list_eq _ _ _ Hd1).
    rewrite bind_unfold. unfold alloc at 1. cbn [heap rand]. fold cd.
    rewrite bind_unfold, (get_dna_eq _ _ d2 f2) by (cbn; by rewrite lookup_insert_ne).
    rewrite bind_unfold, (read_list_eq _ _ []) by (cbn; by rewrite lookup_insert_ne).
    by rewrite bind_unfold, randint_empty.
  - intros Hlen Hshort.
    rewrite (mutate_eq target w p1 p2 _ _ _ _ gA gB Hp1 Hd1 Hp2 Hd2 Hlen).
    cbn zeta.
    destruct (reproduce_spec _ _ _ _ _ _) as [final|] eqn:Hspec; [|by right].
    assert (0 < Z.of_nat (length gA)) as Hn by lia.
    assert (length final = length gA) as Hlf.
    { eapply reproduce_spec_length; [..|exact Hspec]; [lia| |].
      - pose proof (Z.mod_pos_bound
          (tape (rand w) (0 + cursor (rand w))) (Z.of_nat (length gA)) Hn). lia.
      - pose proof (Z.mod_pos_bound
          (tape (rand w) (1 + cursor (rand w))) (Z.of_nat (length gA)) Hn). lia. }
    rewrite calc_fitness_gt by lia. by left.
Qed.

Lemma mutate_raises_witness :
  mutate 2 4 hello_target
    (World (two_parents (list_ascii_of_string "Hi") [] hello_target) demo_rng)
  = Raise ValueError /\
  (mutate 2 4 (list_ascii_of_string "Hi") demo_world = Raise IndexError \/
   mutate 2 4 (list_ascii_of_string "Hi") demo_world = Raise ValueError).
Proof.
  split.
  - refine (proj1 (mutate_raises hello_target
      (World (two_parents (list_ascii_of_string "Hi") [] hello_target) demo_rng)
      2 4 1 _ 3 _ (list_ascii_of_string "Hi") [] eq_refl eq_refl eq_refl eq_refl) eq_refl).
  - refine (proj2 (mutate_raises (list_ascii_of_string "Hi") demo_world
      2 4 1 _ 3 _ (list_ascii_of_string "Jelly") (list_ascii_of_string "Hands")
      eq_refl eq_refl eq_refl eq_refl) eq_refl _).
    simpl. lia.
Defined.

Lemma crossover_same a i j :
  (i <= j)%nat -> (j <= length a)%nat -> crossover a a i j = a.
Proof.
  intros Hij Hj. apply list_eq. intros k.
  rewrite crossover_lookup by done. by case_decide.
Qed.

(** X16. Self-mating is a plain hill-climbing step.  When both parents are
    the same candidate, the crossover changes nothing: the child's genome is
    the parent's with the one character [c] at the drawn position moved by
    the drawn [delta], and its fitness is the parent genome's fitness plus
    [delta^2 - 2 * delta * (ord d - ord c)], where [d] is the target's
    character at that position. *)
Theorem self_mating_is_hill_climbing target w p d f g :
  heap w !! p = Some (ODict d f) -> heap w !! d = Some (OList g) ->
  g <> [] -> (length g <= length target)%nat ->
  let n := Z.of_nat (length g) in
  let pos := Z.to_nat (tape (rand w) (2 + cursor (rand w))%nat mod n) in
  let delta := -1 + tape (rand w) (3 + cursor (rand w))%nat mod 3 in
  exists c t,
    g !! pos = Some c /\ target !! pos = Some t /\ -1 <= delta <= 1 /\
    (0 <= ord c + delta < 256 ->
     exists c' child w',
       mutate p p target w = Ok (child, w') /\
       ord c' = ord c + delta /\
       genome_of (heap w') child = Some (<[pos := c']> g) /\
       fitness_of (heap w') child
       = Some (fitness_sum g target + delta ^ 2 - 2 * delta * (ord t - ord c))).
Proof.
  intros Hp Hd Hne Htarget n pos delta.
  assert (0 < n) as Hn by (subst n; destruct g; [done|simpl; lia]).
  pose proof (Z.mod_pos_bound (tape (rand w) (0 + cursor (rand w))%nat) n Hn) as Hi0.
  pose proof (Z.mod_pos_bound (tape (rand w) (1 + cursor (rand w))%nat) n Hn) as Hj0.
  pose proof (Z.mod_pos_bound (tape (rand w) (2 + cursor (rand w))%nat) n Hn) as Hpos.
  pose proof (Z.mod_pos_bound (tape (rand w) (3 + cursor (rand w))%nat) 3 eq_refl) as Hdelta.
  destruct (lookup_lt_is_Some_2 g pos) as [c Hc]; [subst pos n; lia|].
  destruct (lookup_lt_is_Some_2 target pos) as [t Ht]; [subst pos n; lia|].
  exists c, t. split; [done|]. split; [done|]. split; [subst delta; lia|].
  intros Hrange.
  pose proof (mutate_eq target w p p _ _ _ _ g g Hp Hd Hp Hd eq_refl
    : mutate p p target w =
      match reproduce_spec g g
              (Z.to_nat (tape (rand w) (0 + cursor (rand w))%nat mod n))
              (Z.to_nat (tape (rand w) (1 + cursor (rand w))%nat mod n))
              pos delta with
      | Some final =>
          match calc_fitness final target with
          | Ok f' =>
              Ok (child_loc (heap w) final,
                  advance (World (with_child (heap w) final f') (rand w)) 4)
          | Raise e => Raise e
          end
      | None => Raise ValueError
      end) as Heq.
  unfold reproduce_spec in Heq.
  rewrite crossover_same in Heq by (subst n; lia).
  rewrite Hc in Heq.
  destruct (chr_in_range _ Hrange) as (c' & Hchr & Hord).
  rewrite Hchr in Heq.
  rewrite calc_fitness_le in Heq by (rewrite length_insert; lia).
  exists c'. eexists _, _. split; [exact Heq|].
  unfold advance. cbn [heap rand tape cursor].
  split; [done|]. split; [apply with_child_genome|].
  rewrite with_child_fitness. f_equal.
  rewrite (fitness_sum_insert g target pos c t c' Hc Ht). rewrite Hord. lia.
Qed.

Lemma self_mating_is_hill_climbing_witness :
  exists c t,
    list_ascii_of_string "Jelly" !! 4%nat = Some c /\
    list_ascii_of_string "Hello" !! 4%nat = Some t /\ -1 <= -1 <= 1 /\
    (0 <= ord c + -1 < 256 ->
     exists c' child w',
       mutate 2 2 (list_ascii_of_string "Hello") demo_world = Ok (child, w') /\
       ord c' = ord c + -1 /\
       genome_of (heap w') child = Some (<[4%nat := c']> (list_ascii_of_string "Jelly")) /\
       fitness_of (heap w') child
       = Some (fitness_sum (list_ascii_of_string "Jelly") (list_ascii_of_string "Hello")
               + (-1) ^ 2 - 2 * -1 * (ord t - ord c))).
Proof.
  refine (self_mating_is_hill_climbing (list_ascii_of_string "Hello") demo_world
            2 1 _ (list_ascii_of_string "Jelly") eq_refl eq_refl _ _).
  - done.
  - simpl. lia.
Defined.

(** ** print_gene_pool *)

Lemma pretty_N_char_free a x : separator a -> pretty_N_char x <> a.
Proof. intros [-> | ->]; unfold pretty_N_char; by repeat case_match. Qed.

Lemma pretty_N_go_free a x : separator a ->
  forall s, free_of a s -> free_of a (pretty_N_go x s).
Proof.
  intros Ha. induction (N.lt_wf_0 x) as [x _ IH]; intros s Hs.
  assert (x = 0 \/ 0 < x)%N as [->|Hx] by lia.
  - by rewrite pretty_N_go_0.
  - rewrite pretty_N_go_step by done. apply IH.
    + by apply N.div_lt.
    + split; [by apply pretty_N_char_free|done].
Qed.

Lemma pretty_N_free a (x : N) : separator a -> free_of a (pretty x).
Proof.
  intros Ha. unfold pretty, pretty_N. case_decide.
  - split; [|done]. by destruct Ha as [-> | ->].
  - by apply pretty_N_go_free.
Qed.

Lemma pretty_Z_free a (x : Z) : separator a -> free_of a (pretty x).
Proof.
  intros Ha. destruct x as [|p|p]; unfold pretty, pretty_Z.
  - split; [|done]. by destruct Ha as [-> | ->].
  - by apply pretty_N_free.
  - split; [by destruct Ha as [-> | ->]|]. by apply pretty_N_free.
Qed.

Lemma append_nil_l (s : string) : EmptyString +:+ s = s.
Proof. reflexivity. Qed.

Lemma append_cons b (s1 s2 : string) : String b s1 +:+ s2 = String b (s1 +:+ s2).
Proof. reflexivity. Qed.

Lemma free_of_app a s1 s2 : free_of a (s1 +:+ s2) <-> free_of a s1 /\ free_of a s2.
Proof.
  induction s1 as [|b s1 IH]; [rewrite append_nil_l; simpl; tauto|].
  rewrite append_cons. simpl. rewrite IH. tauto.
Qed.

Lemma free_of_list a l : a ∉ l -> free_of a (string_of_list_ascii l).
Proof.
  induction l as [|b l IH]; simpl; [done|].
  rewrite not_elem_of_cons. intros [Hne Hl]. split; [done|]. by apply IH.
Qed.

Lemma free_of_count a s : free_of a s -> count_char a s = 0%nat.
Proof.
  induction s as [|b s IH]; simpl; [done|]. intros [Hne Hs].
  rewrite IH by done. by rewrite decide_False.
Qed.

Lemma count_char_app a s1 s2 :
  count_char a (s1 +:+ s2) = (count_char a s1 + count_char a s2)%nat.
Proof.
  induction s1 as [|b s1 IH]; [done|].
  rewrite append_cons. simpl. rewrite IH. lia.
Qed.

Lemma append_assoc (s1 s2 s3 : string) : (s1 +:+ s2) +:+ s3 = s1 +:+ (s2 +:+ s3).
Proof.
  induction s1 as [|b s1 IH]; [done|].
  rewrite !append_cons. by rewrite IH.
Qed.

(** Two texts that agree agree on what is in front of the first separator. *)
Lemma split_at_char c a : forall b x y,
  free_of c a -> free_of c b ->
  a +:+ String c x = b +:+ String c y -> a = b /\ x = y.
Proof.
  induction a as [|d a IH]; intros [|e b] x y Ha Hb; simpl.
  - by intros [= ->].
  - intros [= <- _]. by destruct Hb.
  - intros [= -> _]. by destruct Ha.
  - intros [= -> H]. destruct Ha as [_ Ha], Hb as [_ Hb].
    destruct (IH b x y Ha Hb H) as [-> ->]. done.
Qed.

Lemma string_of_list_ascii_inj l1 l2 :
  string_of_list_ascii l1 = string_of_list_ascii l2 -> l1 = l2.
Proof.
  intros H. rewrite <- (list_ascii_of_string_of_list_ascii l1),
                    <- (list_ascii_of_string_of_list_ascii l2). by rewrite H.
Qed.

Lemma format_candidate_inj g1 f1 d1 g2 f2 d2 :
  format_candidate g1 f1 d1 = format_candidate g2 f2 d2 ->
  g1 = g2 /\ f1 = f2 /\ d1 = d2.
Proof.
  unfold format_candidate. intros H.
  apply split_at_char in H as [Hg H]; [|apply pretty_Z_free; by left..].
  apply split_at_char in H as [Hf H]; [|apply pretty_Z_free; by left..].
  split_and!.
  - by apply (inj pretty).
  - by apply (inj pretty).
  - by apply string_of_list_ascii_inj.
Qed.

Lemma format_candidate_free g f d :
  newline ∉ d -> free_of newline (format_candidate g f d).
Proof.
  intros Hd. unfold format_candidate.
  rewrite !free_of_app. simpl.
  split_and!; try done.
  - apply pretty_Z_free. by right.
  - apply pretty_Z_free. by right.
  - by apply free_of_list.
Qed.

Lemma format_candidate_count g f d :
  count_char newline (format_candidate g f d)
  = count_char newline (string_of_list_ascii d).
Proof.
  unfold format_candidate. rewrite !count_char_app.
  rewrite !(free_of_count newline (pretty _)) by (apply pretty_Z_free; by right).
  done.
Qed.

Lemma format_candidate_head g f d x :
  format_candidate g f d +:+ x <> String newline EmptyString.
Proof.
  unfold format_candidate.
  pose proof (pretty_Z_free newline g (or_intror eq_refl)) as Hg.
  destruct (pretty g) as [|a s]; simpl; [done|].
  destruct Hg as [Hne _]. intros [= H _]. done.
Qed.

Lemma candidate_text_eq generation c w f g :
  fitness_of (heap w) c = Some f -> genome_of (heap w) c = Some g ->
  candidate_text generation c w = Ok (format_candidate generation f g, w).
Proof.
  unfold fitness_of, genome_of, candidate_text. intros Hf Hg.
  destruct (heap w !! c) as [[|d f']|] eqn:Hc; try done.
  destruct (heap w !! d) as [[cs|]|] eqn:Hd; try done.
  simplify_eq.
  rewrite bind_unfold, (get_fitness_eq _ _ f) by (unfold fitness_of; by rewrite Hc).
  rewrite bind_unfold, (get_dna_eq _ _ _ _ Hc).
  by rewrite bind_unfold, (read_list_eq _ _ _ Hd).
Qed.

Lemma candidate_text_Ok generation c w text w' :
  candidate_text generation c w = Ok (text, w') ->
  w' = w /\ exists f g,
    fitness_of (heap w) c = Some f /\ genome_of (heap w) c = Some g /\
    text = format_candidate generation f g.
Proof.
  unfold candidate_text. intros H.
  apply bind_Ok in H as (f & w1 & Hf & H). apply get_fitness_Ok in Hf as [-> [d0 Hf]].
  apply bind_Ok in H as (d & w1 & Hd & H). apply get_dna_Ok in Hd as [-> [f0 Hd]].
  apply bind_Ok in H as (cs & w1 & Hcs & H). apply read_list_Ok in Hcs as [-> Hcs].
  apply ret_Ok in H as [-> ->]. split; [done|].
  exists f, cs. split_and!; [| |done].
  - unfold fitness_of. by rewrite Hf.
  - unfold genome_of. by rewrite Hd, Hcs.
Qed.

Lemma entries_exist h pool :
  Forall (fun c => is_Some (genome_of h c)) pool -> exists entries, entries_of h pool entries.
Proof.
  induction 1 as [|c pool [g Hg] _ [es IH]].
  - exists []. constructor.
  - assert (is_Some (fitness_of h c)) as [f Hf].
    { unfold genome_of, fitness_of in *. by destruct (h !! c) as [[|d f]|]. }
    exists ((f, g) :: es). by constructor.
Qed.

Lemma print_candidates_eq generation pool : forall w entries,
  entries_of (heap w) pool entries ->
  print_candidates pool generation w
  = (foldr (fun e out => format_candidate generation e.1 e.2 +:+ String newline out)
           EmptyString entries, Ok w).
Proof.
  induction pool as [|c pool IH]; intros w entries He.
  - by apply Forall2_nil_inv_l in He as ->.
  - apply Forall2_cons_inv_l in He as ([f g] & es & [Hf Hg] & He & ->).
    cbn [print_candidates]. rewrite (candidate_text_eq _ _ _ f g) by done.
    by rewrite (IH w es He).
Qed.

Lemma pool_text_app generation entries :
  foldr (fun e out => format_candidate generation e.1 e.2 +:+ String newline out)
        EmptyString entries +:+ String newline EmptyString
  = pool_text generation entries.
Proof.
  unfold pool_text. induction entries as [|e es IH]; [done|].
  cbn [foldr]. rewrite append_assoc, append_cons. by rewrite IH.
Qed.

Lemma print_gene_pool_eq generation pool w entries :
  entries_of (heap w) pool entries ->
  print_gene_pool pool generation w = (pool_text generation entries, Ok w).
Proof.
  intros He. unfold print_gene_pool.
  rewrite (print_candidates_eq _ _ _ _ He). by rewrite pool_text_app.
Qed.

Lemma print_candidates_Ok generation pool : forall w out w',
  print_candidates pool generation w = (out, Ok w') ->
  w' = w /\ exists entries, entries_of (heap w) pool entries.
Proof.
  induction pool as [|c pool IH]; intros w out w'; cbn [print_candidates].
  - intros [= <- <-]. split; [done|]. exists []. constructor.
  - destruct (candidate_text generation c w) as [[text w1]|e] eqn:Hc; [|done].
    apply candidate_text_Ok in Hc as (-> & f & g & Hf & Hg & ->).
    destruct (print_candidates pool generation w) as [out1 r] eqn:Hr.
    intros [= <- ->]. apply IH in Hr as [-> [es He]].
    split; [done|]. exists ((f, g) :: es). by constructor.
Qed.

Lemma print_gene_pool_Ok generation pool w text w' :
  print_gene_pool pool generation w = (text, Ok w') ->
  w' = w /\ exists entries,
    entries_of (heap w) pool entries /\ text = pool_text generation entries.
Proof.
  unfold print_gene_pool.
  destruct (print_candidates pool generation w) as [out [w1|e]] eqn:Hp; [|done].
  intros [= <- <-].
  pose proof Hp as [-> [es He]]%print_candidates_Ok.
  split; [done|]. exists es. split; [done|].
  rewrite (print_candidates_eq _ _ _ _ He) in Hp. injection Hp as <-.
  by rewrite pool_text_app.
Qed.

Lemma pool_text_count generation entries :
  count_char newline (pool_text generation entries)
  = (length entries + 1
     + sum_list_with (fun e => count_char newline (string_of_list_ascii e.2)) entries)%nat.
Proof.
  unfold pool_text. induction entries as [|e es IH]; [done|].
  cbn [foldr length sum_list_with].
  rewrite count_char_app, format_candidate_count. cbn [count_char].
  rewrite IH. rewrite decide_True by done. lia.
Qed.

Lemma pool_text_inj gen1 gen2 es1 : forall es2,
  Forall (fun e => newline ∉ e.2) es1 -> Forall (fun e => newline ∉ e.2) es2 ->
  pool_text gen1 es1 = pool_text gen2 es2 ->
  es1 = es2 /\ (es1 <> [] -> gen1 = gen2).
Proof.
  unfold pool_text.
  induction es1 as [|[f1 d1] es1 IH]; intros [|[f2 d2] es2] H1 H2; cbn [foldr fst snd].
  - done.
  - intros H. symmetry in H. by apply format_candidate_head in H.
  - intros H. by apply format_candidate_head in H.
  - apply Forall_cons in H1 as [Hd1 H1]. apply Forall_cons in H2 as [Hd2 H2].
    intros H. apply split_at_char in H as [Hline Hrest];
      [|by apply format_candidate_free..].
    apply format_candidate_inj in Hline as (-> & -> & ->).
    destruct (IH es2 H1 H2 Hrest) as [-> _]. done.
Qed.

Lemma entries_of_same h1 h2 pool1 : forall pool2 es,
  entries_of h1 pool1 es -> entries_of h2 pool2 es ->
  Forall2 (fun c1 c2 => fitness_of h1 c1 = fitness_of h2 c2 /\
                        genome_of h1 c1 = genome_of h2 c2) pool1 pool2.
Proof.
  induction pool1 as [|c1 pool1 IH]; intros pool2 es H1 H2.
  - apply Forall2_nil_inv_l in H1 as ->. apply Forall2_nil_inv_r in H2 as ->. constructor.
  - apply Forall2_cons_inv_l in H1 as (e & es' & [Hf1 Hg1] & H1 & ->).
    apply Forall2_cons_inv_r in H2 as (c2 & pool2' & [Hf2 Hg2] & H2 & ->).
    constructor; [by rewrite Hf1, Hg1, Hf2, Hg2|]. by eapply IH.
Qed.

(** X17. [print_gene_pool] writes a stream of characters.
    - On a pool of candidates that are in the store it writes, for each
      candidate in the order of the pool, the generation, the fitness and
      the dna, separated by single spaces and followed by a newline, and then
      one more newline; it raises nothing and leaves the store and the
      random source as they are.  The number of newlines in the text is the
      number of candidates plus one plus the number of newlines that the
      dnas hold: there is one line per candidate only when no dna holds a
      newline.
    - When no dna holds a newline the text determines what was printed: two
      calls that write the same text were made on pools of the same length
      whose candidates have, position by position, the same fitness and the
      same dna, and, unless the pools are empty, with the same generation.
    - With a newline in a dna this fails: one candidate with the dna
      "a", newline, "1 1 b" and the two candidates "a" and "b" print the same
      text. *)
Theorem print_gene_pool_text :
  (forall pool generation w,
     Forall (fun c => is_Some (genome_of (heap w) c)) pool ->
     exists entries,
       entries_of (heap w) pool entries /\
       print_gene_pool pool generation w = (pool_text generation entries, Ok w) /\
       count_char newline (pool_text generation entries)
       = (length pool + 1
          + sum_list_with (fun e => count_char newline (string_of_list_ascii e.2))
                          entries)%nat) /\
  (forall pool1 gen1 w1 pool2 gen2 w2 text,
     print_gene_pool pool1 gen1 w1 = (text, Ok w1) ->
     print_gene_pool pool2 gen2 w2 = (text, Ok w2) ->
     (forall c g, c ∈ pool1 -> genome_of (heap w1) c = Some g -> newline ∉ g) ->
     (forall c g, c ∈ pool2 -> genome_of (heap w2) c = Some g -> newline ∉ g) ->
     Forall2 (fun c1 c2 => fitness_of (heap w1) c1 = fitness_of (heap w2) c2 /\
                           genome_of (heap w1) c1 = genome_of (heap w2) c2)
             pool1 pool2 /\
     (pool1 <> [] -> gen1 = gen2)) /\
  (exists text,
     print_gene_pool [2%positive] 1 folded_world = (text, Ok folded_world) /\
     print_gene_pool [2%positive; 4%positive] 1 unfolded_world
     = (text, Ok unfolded_world)).
Proof.
  split; [|split].
  - intros pool generation w Hall.
    destruct (entries_exist _ _ Hall) as [entries He].
    exists entries. split_and!; [done|by apply print_gene_pool_eq|].
    rewrite pool_text_count. by rewrite <- (Forall2_length _ _ _ He).
  - intros pool1 gen1 w1 pool2 gen2 w2 text H1 H2 Hn1 Hn2.
    apply print_gene_pool_Ok in H1 as (_ & es1 & He1 & ->).
    apply print_gene_pool_Ok in H2 as (_ & es2 & He2 & Htext).
    assert (forall h pool es,
              entries_of h pool es ->
              (forall c g, c ∈ pool -> genome_of h c = Some g -> newline ∉ g) ->
              Forall (fun e => newline ∉ e.2) es) as Hfree.
    { intros h pool es He Hn. induction He as [|c e pool es [_ Hg] _ IH]; constructor.
      - apply (Hn c); [by left|done].
      - apply IH. intros c' g' Hc'. apply Hn. by right. }
    apply pool_text_inj in Htext as [-> Hgen]; [|by eapply Hfree..].
    split.
    + by eapply entries_of_same.
    + intros Hne. apply Hgen. intros ->. apply Forall2_nil_inv_r in He1. done.
  - eexists. split; vm_compute; reflexivity.
Qed.

Lemma print_gene_pool_text_witness :
  (exists entries,
     entries_of (heap (st_world crash_last)) (gene_pool crash_last) entries /\
     print_gene_pool (gene_pool crash_last) 33 (st_world crash_last)
     = (pool_text 33 entries, Ok (st_world crash_last)) /\
     count_char newline (pool_text 33 entries)
     = (length (gene_pool crash_last) + 1
        + sum_list_with (fun e => count_char newline (string_of_list_ascii e.2))
                        entries)%nat) /\
  Forall2 (fun c1 c2 =>
             fitness_of (heap unfolded_world) c1
             = fitness_of (heap (advance unfolded_world 3)) c2 /\
             genome_of (heap unfolded_world) c1
             = genome_of (heap (advance unfolded_world 3)) c2)
          [2%positive; 4%positive] [2%positive; 4%positive].
Proof.
  destruct print_gene_pool_text as (Htext & Hread & _).
  split.
  - apply Htext. vm_compute. repeat constructor; eauto.
  - apply (Hread _ 1 _ _ 1 _ (pool_text 1 [(4, ["a"%char]); (1, ["b"%char])])).
    + vm_compute. reflexivity.
    + vm_compute. reflexivity.
    + intros c g Hc Hg. apply elem_of_cons in Hc as [->|Hc].
      * vm_compute in Hg. injection Hg as <-. compute_done.
      * apply list_elem_of_singleton in Hc as ->.
        vm_compute in Hg. injection Hg as <-. compute_done.
    + intros c g Hc Hg. apply elem_of_cons in Hc as [->|Hc].
      * vm_compute in Hg. injection Hg as <-. compute_done.
      * apply list_elem_of_singleton in Hc as ->.
        vm_compute in Hg. injection Hg as <-. compute_done.
Defined.

(** ** The total fitness of the pool *)

Lemma total_fitness_app h l1 l2 :
  total_fitness h (l1 ++ l2) = total_fitness h l1 + total_fitness h l2.
Proof.
  unfold total_fitness. induction l1 as [|c l1 IH]; simpl; [done|]. rewrite IH. lia.
Qed.

Lemma total_fitness_perm h l1 l2 :
  Permutation l1 l2 -> total_fitness h l1 = total_fitness h l2.
Proof.
  unfold total_fitness. induction 1; simpl; lia.
Qed.

Lemma total_fitness_preserves h h' l :
  preserves h h' -> Forall (fun c => c ∈ dom h) l ->
  total_fitness h' l = total_fitness h l.
Proof.
  intros Hp. unfold total_fitness, fitness_of.
  induction 1 as [|c l Hc _ IH]; simpl; [done|].
  by rewrite IH, (Hp c Hc).
Qed.

(** X18. Every replacement strictly lowers the sum of the fitness values
    of the pool, and a round without replacement leaves that sum as it is;
    in a well-formed pool the sum is never negative.  So the replacements of
    a run are bounded by the total fitness of its starting pool. *)
Theorem replacement_lowers_total_fitness target s s' :
  completes target s s' ->
  pool_ok target s ->
  0 <= total_fitness (heap (st_world s')) (gene_pool s') /\
  total_fitness (heap (st_world s')) (gene_pool s')
    <= total_fitness (heap (st_world s)) (gene_pool s) /\
  (Permutation (gene_pool s') (gene_pool s) ->
   total_fitness (heap (st_world s')) (gene_pool s')
   = total_fitness (heap (st_world s)) (gene_pool s)) /\
  (~ Permutation (gene_pool s') (gene_pool s) ->
   total_fitness (heap (st_world s')) (gene_pool s')
   < total_fitness (heap (st_world s)) (gene_pool s)).
Proof.
  intros Hc Hok.
  pose proof (completes_preserves _ _ _ Hc) as Hp.
  pose proof (pool_ok_round _ _ _ Hc Hok) as Hok'.
  pose proof (round_summary _ _ _ Hc)
    as (rest & worst & fw & best & p1 & p2 & cs & f & first & f0 & H).
  cbn zeta in H.
  destruct H as (_ & Hperm & _ & Hfit & _ & _ & _ & _ & _ & _ & Hw' & Hfw & Hpool' & _).
  set (h := heap (st_world s)) in *. set (h' := heap (st_world s')) in *.
  assert (Forall (fun c => c ∈ dom h) (rest ++ [worst])) as Hdom.
  { eapply Forall_impl; [exact Hfit|]. intros c [fc Hfc]. by eapply fitness_of_dom. }
  assert (total_fitness h (gene_pool s) = total_fitness h rest + fw) as Hold.
  { rewrite <- (total_fitness_perm h _ _ Hperm), total_fitness_app.
    unfold total_fitness at 2. simpl. rewrite Hfw. simpl. lia. }
  assert (total_fitness h' rest = total_fitness h rest) as Hrest.
  { apply total_fitness_preserves; [done|]. by apply Forall_app in Hdom as [? _]. }
  assert (0 <= total_fitness h' (gene_pool s')) as Hnonneg.
  { clear -Hok'. unfold pool_ok in Hok'. fold h' in Hok'.
    unfold total_fitness. induction Hok' as [|c l Hc _ IH]; simpl; [done|].
    destruct (candidate_ok_genome _ _ _ Hc) as (g & _ & _ & Hf). rewrite Hf. simpl.
    pose proof (fitness_sum_nonneg g target). lia. }
  assert (total_fitness h' (gene_pool s')
          = total_fitness h rest + (if f <? fw then f else fw)) as Hnew.
  { rewrite Hpool', total_fitness_app, Hrest. f_equal.
    unfold total_fitness. simpl. destruct (f <? fw).
    - subst h'. rewrite Hw'. unfold advance. cbn [heap].
      rewrite with_child_fitness. simpl. lia.
    - rewrite (preserves_fitness _ _ _ _ Hp Hfw). simpl. lia. }
  split_and!; [done| | |].
  - rewrite Hnew, Hold. destruct (Z.ltb_spec f fw); lia.
  - intros Hsame. rewrite Hnew, Hold.
    destruct (Z.ltb_spec f fw) as [Hlt|Hge]; [|done].
    exfalso. rewrite Hpool' in Hsame.
    apply (child_loc_fresh h cs).
    apply fitness_of_dom with (f := default 0 (fitness_of h (child_loc h cs))).
    assert (child_loc h cs ∈ gene_pool s) as Hin.
    { rewrite <- Hsame. apply elem_of_app. right. by apply list_elem_of_singleton. }
    rewrite <- Hperm in Hin. eapply Forall_forall in Hfit as [fc Hfc]; [|exact Hin].
    by rewrite Hfc.
  - intros Hdiff. rewrite Hnew, Hold.
    destruct (Z.ltb_spec f fw) as [Hlt|Hge]; [lia|].
    exfalso. apply Hdiff. by rewrite Hpool', Hperm.
Qed.

Lemma replacement_lowers_total_fitness_witness :
  0 <= total_fitness (heap (st_world demo_round1)) (gene_pool demo_round1) /\
  total_fitness (heap (st_world demo_round1)) (gene_pool demo_round1)
    <= total_fitness (heap (st_world demo_start)) (gene_pool demo_start) /\
  (Permutation (gene_pool demo_round1) (gene_pool demo_start) ->
   total_fitness (heap (st_world demo_round1)) (gene_pool demo_round1)
   = total_fitness (heap (st_world demo_start)) (gene_pool demo_start)) /\
  (~ Permutation (gene_pool demo_round1) (gene_pool demo_start) ->
   total_fitness (heap (st_world demo_round1)) (gene_pool demo_round1)
   < total_fitness (heap (st_world demo_start)) (gene_pool demo_start)).
Proof.
  apply (replacement_lowers_total_fitness demo_target demo_start demo_round1).
  - left. vm_compute. reflexivity.
  - destruct (init_total 2 demo_target demo_rng) as (s0 & Hinit & _ & Hok & _).
    assert (s0 = demo_start) as <-; [|exact Hok].
    unfold demo_start, started. by rewrite Hinit.
Defined.
